(** * graphql-tools: error relocation, type-candidate merging, WrapType

    A shallow embedding of

    - [packages/utils/src/errors.ts]          (module [Errors]),
    - [packages/stitch/src/typeCandidates.ts] (module [TypeCandidates]),
    - the [WrapType] transform                (module [WrapType]),
    - [packages/wrap/src/transforms/TransformRootFields.ts]
                                              (module [TransformRootFields]),

    followed by the properties proved about them.

    JavaScript objects used as dictionaries are finite maps ([gmap]) keyed
    by their property names; [undefined]/[null] in an optional position is
    [None]; a thrown [TypeError] is [None] in the result of a function that
    can throw. *)

From Stdlib Require Import NArith Ascii String List.
From stdpp Require Import base option list strings gmap pretty.

Open Scope string_scope.
Open Scope list_scope.

(* ===================================================================== *)
(** * errors.ts *)
(* ===================================================================== *)

Module Errors.

(** One element of an error path: [string | number].  The numbers that occur
    in a response path are list indices. *)
Inductive PathSegment :=
| FieldName (name : string)
| Index (i : N).

#[global] Instance PathSegment_eq_dec : EqDecision PathSegment.
Proof. solve_decision. Defined.

(** The property key a segment denotes when it is used to index an object:
    a string is its own key, a number is written in decimal. *)
Definition propertyKey (segment : PathSegment) : string :=
  match segment with
  | FieldName name => name
  | Index i => pretty i
  end.

(** The optional [path] parameter of [relocatedError]: the caller may leave
    it out ([undefined]), pass [null], or pass an array. *)
Inductive PathArg :=
| PathUndefined
| PathNull
| PathArray (segments : list PathSegment).

Section GraphQLError.

(** What graphql-js carries through an error and this file never inspects. *)
Context {ASTNode Source SourceLocation OriginalError ExtensionValue : Type}.

(** A [GraphQLError] of graphql-js, as the values its constructor stores in
    the object.  The fields are read-only once the error is built. *)
Record GraphQLError := new_GraphQLError {
  message : string;
  nodes : option (list ASTNode);
  source : option Source;
  positions : option (list N);
  locations : option (list SourceLocation);
  path : option (list PathSegment);
  originalError : option OriginalError;
  extensions : option (gmap string ExtensionValue);
}.

(** ** The constructor

    [new GraphQLError(message, nodes, source, positions, path, originalError,
    extensions)].  graphql-js computes [locations] from the nodes, the source
    and the positions it is given ([getLocations]), and, given no extensions,
    takes over those of [originalError] when it has some ([extensionsOf] reads
    them).  The nodes, the source and the positions this file hands it are
    those stored in an error, and are stored again as they are. *)
Variable getLocations :
  option (list ASTNode) → option Source → option (list N) → option (list SourceLocation).
Variable extensionsOf : OriginalError → option (gmap string ExtensionValue).

Definition constructGraphQLError (message : string) (nodes : option (list ASTNode))
    (source : option Source) (positions : option (list N))
    (path : option (list PathSegment)) (originalError : option OriginalError)
    (extensions : option (gmap string ExtensionValue)) : GraphQLError :=
  new_GraphQLError message nodes source positions
    (getLocations nodes source positions)
    path originalError
    (match extensions with
     | Some extensions => Some extensions
     | None => originalError ≫= extensionsOf
     end).

(** [relocatedError]: line 11 is
    [path === null ? undefined : path === undefined ? originalError.path : path]. *)
Definition relocatedError (err : GraphQLError) (newPath : PathArg) : GraphQLError :=
  constructGraphQLError
    (message err)
    (nodes err)
    (source err)
    (positions err)
    (match newPath with
     | PathNull => None
     | PathUndefined => path err
     | PathArray segments => Some segments
     end)
    (originalError err)
    (extensions err).

(** [slicedError]: [originalError.path.slice(1)] when there is a path. *)
Definition slicedError (err : GraphQLError) : GraphQLError :=
  relocatedError err
    (match path err with
     | Some segments => PathArray (drop 1 segments)
     | None => PathUndefined
     end).

(** One round of the [forEach] in [getErrorsByPathSegment]. *)
Definition addErrorByPathSegment
    (record : gmap string (list GraphQLError)) (error : GraphQLError)
    : gmap string (list GraphQLError) :=
  match path error with
  | None => record
  | Some segments =>
    if (length segments <? 2)%nat then record
    else
      match segments !! 1%nat with
      | None => record
      | Some pathSegment =>
        let key := propertyKey pathSegment in
        let current := default [] (record !! key) in
        <[key := current ++ [slicedError error]]> record
      end
  end.

Definition getErrorsByPathSegment (errors : list GraphQLError)
    : gmap string (list GraphQLError) :=
  foldl addErrorByPathSegment ∅ errors.

(** ** Objects and the [ERROR_SYMBOL] side channel *)

(** A result is [any]: a primitive, or a reference to an object. *)
Inductive JSValue :=
| JSUndefined
| JSNull
| JSBoolean (b : bool)
| JSNumber (n : Z)
| JSString (s : string)
| JSObject (ref : positive).

(** An object: its string-keyed properties (what [Object.keys], [for..in]
    and JSON serialisation see) and the slot keyed by [ERROR_SYMBOL]. *)
Record ObjectData := mkObject {
  properties : gmap string JSValue;
  subschemaErrors : option (list GraphQLError);
}.

(** [result[ERROR_SYMBOL] = errors].  Module code is strict: the assignment
    throws on [null], [undefined] and on a primitive. *)
Definition setErrors (heap : gmap positive ObjectData) (result : JSValue)
    (errors : list GraphQLError) : option (gmap positive ObjectData) :=
  match result with
  | JSObject ref =>
    object ← heap !! ref;
    Some (<[ref := mkObject (properties object) (Some errors)]> heap)
  | _ => None
  end.

(** [!error.path || error.path[0] === pathSegment] *)
Definition errorMatchesSegment (pathSegment : string) (error : GraphQLError) : bool :=
  match path error with
  | None => true
  | Some segments =>
    match segments !! 0%nat with
    | Some (FieldName name) => bool_decide (name = pathSegment)
    | _ => false
    end
  end.

(** [getErrors]: [None] is the [null] it returns when no array is attached. *)
Definition getErrors (heap : gmap positive ObjectData) (result : JSValue)
    (pathSegment : string) : option (list GraphQLError) :=
  let errors :=
    match result with
    | JSObject ref => object ← heap !! ref; subschemaErrors object
    | _ => None
    end in
  match errors with
  | None => None
  | Some errors => Some (List.filter (errorMatchesSegment pathSegment) errors)
  end.

(** ** Object identity of errors

    [new GraphQLError(...)] allocates: the store maps the reference of every
    error built so far to its value. *)
Definition allocError (store : gmap positive GraphQLError) (error : GraphQLError)
    : positive * gmap positive GraphQLError :=
  let ref := fresh (dom store) in (ref, <[ref := error]> store).

(** [relocatedError] on references: reads the original, builds the new one. *)
Definition relocatedErrorRef (store : gmap positive GraphQLError) (ref : positive)
    (newPath : PathArg) : option (positive * gmap positive GraphQLError) :=
  err ← store !! ref;
  Some (allocError store (relocatedError err newPath)).

(** ** Extensions *)

(** [extendedError]: the extensions given replace those of the original. *)
Definition extendedError (err : GraphQLError)
    (newExtensions : gmap string ExtensionValue) : GraphQLError :=
  constructGraphQLError
    (message err) (nodes err) (source err) (positions err) (path err)
    (originalError err) (Some newExtensions).

(** The [forEach] of [unextendedError] over the keys of the original
    extensions: [newExtensions] and [extensionsPresent] after it. *)
Definition copyExtensionsExcept (extensionKey : string)
    (originalExtensions : gmap string ExtensionValue)
    : gmap string ExtensionValue * bool :=
  map_fold (λ key value '(newExtensions, extensionsPresent),
              if decide (key ≠ extensionKey)
              then (<[key := value]> newExtensions, true)
              else (newExtensions, extensionsPresent))
           (∅, false) originalExtensions.

(** [unextendedError]: the original error itself when it has no extensions
    or an object with no key; otherwise a new error, built with [undefined]
    extensions when no key is left. *)
Definition unextendedError (err : GraphQLError) (extensionKey : string) : GraphQLError :=
  match extensions err with
  | None => err
  | Some originalExtensions =>
    if decide (size originalExtensions = 0%nat) then err
    else
      let '(newExtensions, extensionsPresent) :=
        copyExtensionsExcept extensionKey originalExtensions in
      if extensionsPresent
      then constructGraphQLError
             (message err) (nodes err) (source err) (positions err) (path err)
             (originalError err) (Some newExtensions)
      else constructGraphQLError
             (message err) (nodes err) (source err) (positions err) (path err)
             (originalError err) None
  end.

(** ** Vocabulary of the statements *)

(** An error as the constructor leaves it: one without extensions has an
    original error, if any, that brings none. *)
Definition wellConstructed (error : GraphQLError) : Prop :=
  extensions error = None → originalError error ≫= extensionsOf = None.

(** An error whose locations are those the constructor computes from the
    nodes, the source and the positions the error has. *)
Definition locationsComputed (error : GraphQLError) : Prop :=
  locations error = getLocations (nodes error) (source error) (positions error).

(** An error applies to a field when it carries no path, or when its path
    starts with the field's name. *)
Definition appliesToField (fieldName : string) (error : GraphQLError) : Prop :=
  path error = None ∨ ∃ rest, path error = Some (FieldName fieldName :: rest).

#[global] Instance appliesToField_dec fieldName error :
  Decision (appliesToField fieldName error).
Proof.
  unfold appliesToField.
  destruct (path error) as [[|[name|i] rest]|].
  - right. intros [?|[? ?]]; discriminate.
  - destruct (decide (name = fieldName)) as [->|Hne].
    + left. right. by exists rest.
    + right. intros [?|[? ?]]; [discriminate | congruence].
  - right. intros [?|[? ?]]; discriminate.
  - left. by left.
Defined.

(** The key of the child an error belongs to: its second path segment, when
    the path has one. *)
Definition childKey (error : GraphQLError) : option string :=
  match path error with
  | Some (_ :: second :: _) => Some (propertyKey second)
  | _ => None
  end.

End GraphQLError.

Arguments GraphQLError : clear implicits.
Arguments ObjectData : clear implicits.

End Errors.

(* ===================================================================== *)
(** * typeCandidates.ts *)
(* ===================================================================== *)

Module TypeCandidates.

(** graphql-js's [OperationTypeNode]: ['query' | 'mutation' | 'subscription']. *)
Inductive OperationTypeNode := OpQuery | OpMutation | OpSubscription.

#[global] Instance OperationTypeNode_eq_dec : EqDecision OperationTypeNode.
Proof. solve_decision. Defined.

(** The string an operation is, which is the key it has in
    [operationTypeNames]. *)
Definition operationKey (operation : OperationTypeNode) : string :=
  match operation with
  | OpQuery => "query"
  | OpMutation => "mutation"
  | OpSubscription => "subscription"
  end.

(** [OperationTypeDefinitionNode]: [typeName] is [type.name.value]. *)
Record OperationTypeDefinitionNode := mkOperationType {
  operation : OperationTypeNode;
  typeName : string;
}.

(** Of a [schema { ... }] definition and of an [extend schema { ... }] node
    only [operationTypes] is read; it is optional on both. *)
Record SchemaDefinitionNode := mkSchemaDefinition {
  definitionOperationTypes : option (list OperationTypeDefinitionNode);
}.

Record SchemaExtensionNode := mkSchemaExtension {
  extensionOperationTypes : option (list OperationTypeDefinitionNode);
}.

(** [SchemaDefinitionNode | SchemaExtensionNode] *)
Inductive SchemaNode :=
| DefinitionNode (node : SchemaDefinitionNode)
| ExtensionNode (node : SchemaExtensionNode).

Definition operationTypes (node : SchemaNode) : option (list OperationTypeDefinitionNode) :=
  match node with
  | DefinitionNode node => definitionOperationTypes node
  | ExtensionNode node => extensionOperationTypes node
  end.

(** The body of the outer [forEach] of [setOperationTypeNames]. *)
Definition recordOperationTypes (operationTypeNames : gmap string string)
    (node : SchemaNode) : gmap string string :=
  match operationTypes node with
  | None => operationTypeNames
  | Some operationTypes =>
    foldl (λ names operationType,
             <[operationKey (operation operationType) := typeName operationType]> names)
          operationTypeNames operationTypes
  end.

(** [setOperationTypeNames]: [allNodes] is a copy of the extensions with the
    definition, when there is one, put in front ([unshift]); the result is
    [operationTypeNames] after the writes. *)
Definition setOperationTypeNames (schemaDef : option SchemaDefinitionNode)
    (schemaExtensions : list SchemaExtensionNode)
    (operationTypeNames : gmap string string) : gmap string string :=
  let allNodes := ExtensionNode <$> schemaExtensions in
  let allNodes :=
    match schemaDef with
    | Some schemaDef => DefinitionNode schemaDef :: allNodes
    | None => allNodes
    end in
  foldl recordOperationTypes operationTypeNames allNodes.

(** ** Vocabulary of the statements about [setOperationTypeNames] *)

(** The name the last entry for [operation] in a list of operation types
    gives it, if any entry does. *)
Definition lastNameFor (operation' : OperationTypeNode)
    (operationTypes : list OperationTypeDefinitionNode) : option string :=
  typeName <$> last (filter (λ operationType, operation operationType = operation')
                            operationTypes).

(** All operation types of the extension nodes, in the order of the nodes. *)
Definition extensionAssignments (schemaExtensions : list SchemaExtensionNode)
    : list OperationTypeDefinitionNode :=
  mjoin ((λ node, default [] (extensionOperationTypes node)) <$> schemaExtensions).

Definition definitionAssignments (schemaDef : option SchemaDefinitionNode)
    : list OperationTypeDefinitionNode :=
  default [] (schemaDef ≫= definitionOperationTypes).

Section buildTypeMap.

(** Types of graphql-js and of the sibling packages.  A named type is an
    object compared by reference ([===]): [EqDecision] is that comparison. *)
Context {GraphQLNamedType GraphQLSchema SubschemaConfig : Type}.
Context {MergedTypeInfo TypeMergingOptions : Type}.
Context `{EqDecision GraphQLNamedType}.

(** [MergeTypeCandidate]; [schemaName] is the property the conflict selector
    sets on the candidate it makes up. *)
Record MergeTypeCandidate := mkCandidate {
  type : GraphQLNamedType;
  subschema : option SubschemaConfig;
  transformedSchema : option GraphQLSchema;
  schemaName : option string;
}.

(** The third argument of an [OnTypeConflict] callback:
    [{ left: { schema }, right: { schema } }]. *)
Record ConflictInfo := mkConflictInfo {
  leftSchema : option GraphQLSchema;
  rightSchema : option GraphQLSchema;
}.

Definition OnTypeConflict : Type :=
  GraphQLNamedType → GraphQLNamedType → ConflictInfo → GraphQLNamedType.

(** [mergeTypes: boolean | Array<string> | MergeTypeFilter] *)
Inductive MergeTypes :=
| MergeTypesBoolean (b : bool)
| MergeTypesList (names : list string)
| MergeTypesFilter (filter : list MergeTypeCandidate → string → bool).

Record StitchingInfo := mkStitchingInfo {
  mergedTypes : gmap string MergedTypeInfo;
}.

(** [isSpecifiedScalarType] of graphql-js and [mergeCandidates] of
    [./mergeCandidates].  Both are taken where they return: a call of
    [mergeCandidates] that throws is left out. *)
Variable isSpecifiedScalarType : GraphQLNamedType → bool.
Variable mergeCandidates :
  string → list MergeTypeCandidate → TypeMergingOptions → GraphQLNamedType.

(** The callback of the [reduce] in [onTypeConflictToCandidateSelector]. *)
Definition resolveConflict (onTypeConflict : OnTypeConflict)
    (prev next : MergeTypeCandidate) : MergeTypeCandidate :=
  let type' :=
    onTypeConflict (type prev) (type next)
      (mkConflictInfo (transformedSchema prev) (transformedSchema next)) in
  if decide (type prev = type') then prev
  else if decide (type next = type') then next
  else mkCandidate type' None None (Some "unknown").

(** [cands.reduce(callback)] with no initial value: the first candidate
    starts as the accumulator, an empty array throws. *)
Definition onTypeConflictToCandidateSelector (onTypeConflict : OnTypeConflict)
    (cands : list MergeTypeCandidate) : option MergeTypeCandidate :=
  match cands with
  | [] => None
  | first :: rest => Some (foldl (resolveConflict onTypeConflict) first rest)
  end.

(** [cands => cands[cands.length - 1]]; index [-1] of an empty array is
    [undefined], as is index [0]. *)
Definition lastCandidate (cands : list MergeTypeCandidate) : option MergeTypeCandidate :=
  cands !! (length cands - 1)%nat.

(** The condition of the [if] in [buildTypeMap], lines 201 to 207. *)
Definition mergesCandidates (stitchingInfo : option StitchingInfo)
    (operationTypeNames : gmap string string) (mergeTypes : MergeTypes)
    (typeName : string) (cands : list MergeTypeCandidate) : bool :=
  bool_decide (operationTypeNames !! "query" = Some typeName)
  || bool_decide (operationTypeNames !! "mutation" = Some typeName)
  || bool_decide (operationTypeNames !! "subscription" = Some typeName)
  || match mergeTypes with
     | MergeTypesBoolean true =>
       negb (existsb (λ candidate, isSpecifiedScalarType (type candidate)) cands)
     | _ => false
     end
  || match mergeTypes with
     | MergeTypesFilter filter => filter cands typeName
     | _ => false
     end
  || match mergeTypes with
     | MergeTypesList names => bool_decide (typeName ∈ names)
     | _ => false
     end
  || match stitchingInfo with
     | Some stitchingInfo => bool_decide (is_Some (mergedTypes stitchingInfo !! typeName))
     | None => false
     end.

(** What one round of the [forEach] assigns to [typeMap[typeName]]; [None]
    when [.type] is read off [undefined] or [reduce] meets an empty array. *)
Definition composeType (stitchingInfo : option StitchingInfo)
    (operationTypeNames : gmap string string) (onTypeConflict : option OnTypeConflict)
    (mergeTypes : MergeTypes) (typeMergingOptions : TypeMergingOptions)
    (typeName : string) (cands : list MergeTypeCandidate) : option GraphQLNamedType :=
  if mergesCandidates stitchingInfo operationTypeNames mergeTypes typeName cands
  then Some (mergeCandidates typeName cands typeMergingOptions)
  else
    let candidateSelector :=
      match onTypeConflict with
      | Some onTypeConflict => onTypeConflictToCandidateSelector onTypeConflict
      | None => lastCandidate
      end in
    type <$> candidateSelector cands.

(** [buildTypeMap]: one round of the [forEach] per key of [typeCandidates],
    each writing its own key of [typeMap]; a round that throws ends the
    whole call ([None]). *)
Definition buildTypeMap (typeCandidates : gmap string (list MergeTypeCandidate))
    (stitchingInfo : option StitchingInfo) (operationTypeNames : gmap string string)
    (onTypeConflict : option OnTypeConflict) (mergeTypes : MergeTypes)
    (typeMergingOptions : TypeMergingOptions) : option (gmap string GraphQLNamedType) :=
  map_fold (λ typeName cands typeMap,
              typeMap ← typeMap;
              composite ← composeType stitchingInfo operationTypeNames onTypeConflict
                             mergeTypes typeMergingOptions typeName cands;
              Some (<[typeName := composite]> typeMap))
           (Some ∅) typeCandidates.

(** ** buildTypeCandidates *)

(** [addTypeCandidate]: the candidate goes to the end of the list of its
    name, a list the first candidate of a name starts. *)
Definition addTypeCandidate (typeCandidates : gmap string (list MergeTypeCandidate))
    (name : string) (typeCandidate : MergeTypeCandidate)
    : gmap string (list MergeTypeCandidate) :=
  <[name := default [] (typeCandidates !! name) ++ [typeCandidate]]> typeCandidates.

(** More types of graphql-js and of the sibling packages. *)
Context {GraphQLDirective TypedefObject ParseOptions DocumentNode DefinitionNode : Type}.
Context `{EqDecision SubschemaConfig}.

(** One type definition: a string of SDL, or an object (a document, an AST
    node, a function). *)
Inductive ITypedef :=
| TypedefString (sdl : string)
| TypedefOther (object : TypedefObject).

(** [typeDefs: ITypeDefinitions], which the caller may leave out. *)
Inductive ITypeDefinitions :=
| TypeDefsUndefined
| TypeDefsOne (typedef : ITypedef)
| TypeDefsArray (typedefs : list ITypedef).

(** [(typeDefs && !Array.isArray(typeDefs)) ||
     (Array.isArray(typeDefs) && typeDefs.length)]: of the values that are
    no array only [undefined] and the empty string are falsy. *)
Definition hasTypeDefs (typeDefs : ITypeDefinitions) : bool :=
  match typeDefs with
  | TypeDefsUndefined => false
  | TypeDefsOne (TypedefString sdl) => negb (bool_decide (sdl = ""))
  | TypeDefsOne (TypedefOther _) => true
  | TypeDefsArray typedefs => (0 <? length typedefs)%nat
  end.

(** What the function reads of its collaborators: [type.name] and
    [directive.name]; [wrapSchema] of [@graphql-tools/wrap]; the getters of a
    [GraphQLSchema], its type map as the entries in the order of
    [Object.keys]; [buildDocumentFromTypeDefinitions] of
    [@graphql-tools/schema]; the extractors of [./definitions]; the
    [definitions] of a document; and [typeFromAST], once for each of the two
    types its result is cast to ([None] is the [null] it returns).  Each is
    taken where it returns: a call of [wrapSchema] or of
    [buildDocumentFromTypeDefinitions] that throws is left out. *)
Variable namedTypeName : GraphQLNamedType → string.
Variable directiveName : GraphQLDirective → string.
Variable wrapSchema : SubschemaConfig → GraphQLSchema.
Variable getQueryType : GraphQLSchema → option GraphQLNamedType.
Variable getMutationType : GraphQLSchema → option GraphQLNamedType.
Variable getSubscriptionType : GraphQLSchema → option GraphQLNamedType.
Variable getDirectives : GraphQLSchema → list GraphQLDirective.
Variable getTypeMap : GraphQLSchema → list (string * GraphQLNamedType).
Variable buildDocumentFromTypeDefinitions : ITypeDefinitions → ParseOptions → DocumentNode.
Variable extractSchemaDefinition : DocumentNode → option SchemaDefinitionNode.
Variable extractSchemaExtensions : DocumentNode → list SchemaExtensionNode.
Variable extractTypeDefinitions : DocumentNode → DocumentNode.
Variable extractDirectiveDefinitions : DocumentNode → DocumentNode.
Variable extractTypeExtensionDefinitions : DocumentNode → DocumentNode.
Variable definitions : DocumentNode → list DefinitionNode.
Variable typeFromAST : DefinitionNode → option GraphQLNamedType.
Variable directiveFromAST : DefinitionNode → option GraphQLDirective.

(** [operationTypeNames[operationType]] used as a property name: a missing
    entry is [undefined], which names the property [undefined]. *)
Definition operationTypeName (operationTypeNames : gmap string string)
    (operationType : string) : string :=
  default "undefined" (operationTypeNames !! operationType).

(** The object [operationTypes] of a round, as its entries. *)
Definition schemaOperationTypes (schema : GraphQLSchema)
    : list (string * option GraphQLNamedType) :=
  [("query", getQueryType schema);
   ("mutation", getMutationType schema);
   ("subscription", getSubscriptionType schema)].

(** Lines 86 to 94: the root types of a subschema go under the names in
    [operationTypeNames]. *)
Definition addOperationTypeCandidates (operationTypeNames : gmap string string)
    (subschemaConfig : SubschemaConfig) (schema : GraphQLSchema)
    (typeCandidates : gmap string (list MergeTypeCandidate))
    : gmap string (list MergeTypeCandidate) :=
  foldl (λ typeCandidates '(operationType, rootType),
           match rootType with
           | Some rootType =>
             addTypeCandidate typeCandidates
               (operationTypeName operationTypeNames operationType)
               (mkCandidate rootType (Some subschemaConfig) (Some schema) None)
           | None => typeCandidates
           end)
        typeCandidates (schemaOperationTypes schema).

(** The condition of lines 105 to 111 on a type of the type map, which is a
    named type: its name does not start with two underscores and it is none of
    the root types of the schema. *)
Definition isOwnTypeCandidate (schema : GraphQLSchema) (type' : GraphQLNamedType) : bool :=
  negb (bool_decide (substring 0 2 (namedTypeName type') = "__"))
  && bool_decide (getQueryType schema ≠ Some type')
  && bool_decide (getMutationType schema ≠ Some type')
  && bool_decide (getSubscriptionType schema ≠ Some type').

(** Lines 102 to 118: the other types of a subschema go under their own
    names. *)
Definition addTypeMapCandidates (subschemaConfig : SubschemaConfig)
    (schema : GraphQLSchema) (typeCandidates : gmap string (list MergeTypeCandidate))
    : gmap string (list MergeTypeCandidate) :=
  foldl (λ typeCandidates '(typeName, type'),
           if isOwnTypeCandidate schema type'
           then addTypeCandidate typeCandidates (namedTypeName type')
                  (mkCandidate type' (Some subschemaConfig) (Some schema) None)
           else typeCandidates)
        typeCandidates (getTypeMap schema).

(** [directiveMap[directive.name] = directive] for each directive. *)
Definition addDirectives (directives : list GraphQLDirective)
    (directiveMap : gmap string GraphQLDirective) : gmap string GraphQLDirective :=
  foldl (λ directiveMap directive, <[directiveName directive := directive]> directiveMap)
        directiveMap directives.

(** What [buildTypeCandidates] returns and what it leaves in the objects it
    is handed: the [Map] [transformedSchemas], the arrays and records
    [extensions], [directiveMap], [schemaDefs] and [operationTypeNames]. *)
Record TypeCandidatesResult := mkTypeCandidatesResult {
  resultTypeCandidates : gmap string (list MergeTypeCandidate);
  resultTransformedSchemas : SubschemaConfig → option GraphQLSchema;
  resultExtensions : list DocumentNode;
  resultDirectiveMap : gmap string GraphQLDirective;
  resultSchemaDef : option SchemaDefinitionNode;
  resultSchemaExtensions : list SchemaExtensionNode;
  resultOperationTypeNames : gmap string string;
}.

(** One round of [subschemaConfigs.forEach], lines 75 to 119, on the type
    candidates, the transformed schemas and the directive map. *)
Definition addSubschema (operationTypeNames : gmap string string) (mergeDirectives : bool)
    (state : gmap string (list MergeTypeCandidate)
             * (SubschemaConfig → option GraphQLSchema)
             * gmap string GraphQLDirective)
    (subschemaConfig : SubschemaConfig)
    : gmap string (list MergeTypeCandidate)
      * (SubschemaConfig → option GraphQLSchema)
      * gmap string GraphQLDirective :=
  let '(typeCandidates, transformedSchemas, directiveMap) := state in
  let schema := wrapSchema subschemaConfig in
  let transformedSchemas :=
    λ config, if decide (config = subschemaConfig) then Some schema
              else transformedSchemas config in
  let typeCandidates :=
    addOperationTypeCandidates operationTypeNames subschemaConfig schema typeCandidates in
  let directiveMap :=
    if mergeDirectives then addDirectives (getDirectives schema) directiveMap
    else directiveMap in
  let typeCandidates := addTypeMapCandidates subschemaConfig schema typeCandidates in
  (typeCandidates, transformedSchemas, directiveMap).

(** Lines 123 to 128: the types the type definitions declare. *)
Definition addDefinedTypes (typesDocument : DocumentNode)
    (typeCandidates : gmap string (list MergeTypeCandidate))
    : gmap string (list MergeTypeCandidate) :=
  foldl (λ typeCandidates def,
           match typeFromAST def with
           | Some type' =>
             addTypeCandidate typeCandidates (namedTypeName type')
               (mkCandidate type' None None None)
           | None => typeCandidates
           end)
        typeCandidates (definitions typesDocument).

(** Lines 131 to 134: the directives the type definitions declare; reading
    [name] off a [null] directive throws. *)
Definition addDefinedDirectives (directivesDocument : DocumentNode)
    (directiveMap : gmap string GraphQLDirective) : option (gmap string GraphQLDirective) :=
  foldl (λ directiveMap def,
           directiveMap ← directiveMap;
           directive ← directiveFromAST def;
           Some (<[directiveName directive := directive]> directiveMap))
        (Some directiveMap) (definitions directivesDocument).

(** Line 142: the types handed in go last. *)
Definition addTypes (types : list GraphQLNamedType)
    (typeCandidates : gmap string (list MergeTypeCandidate))
    : gmap string (list MergeTypeCandidate) :=
  foldl (λ typeCandidates type',
           addTypeCandidate typeCandidates (namedTypeName type')
             (mkCandidate type' None None None))
        typeCandidates types.

Definition buildTypeCandidates (subschemaConfigs : list SubschemaConfig)
    (types : list GraphQLNamedType) (typeDefs : ITypeDefinitions)
    (parseOptions : ParseOptions)
    (transformedSchemas : SubschemaConfig → option GraphQLSchema)
    (extensions : list DocumentNode) (directiveMap : gmap string GraphQLDirective)
    (operationTypeNames : gmap string string) (mergeDirectives : bool)
    : option TypeCandidatesResult :=
  let document :=
    if hasTypeDefs typeDefs
    then Some (buildDocumentFromTypeDefinitions typeDefs parseOptions)
    else None in
  let schemaDef := document ≫= extractSchemaDefinition in
  let schemaExtensions :=
    match document with
    | Some document => [] ++ extractSchemaExtensions document
    | None => []
    end in
  let operationTypeNames :=
    setOperationTypeNames schemaDef schemaExtensions operationTypeNames in
  let '(typeCandidates, transformedSchemas, directiveMap) :=
    foldl (addSubschema operationTypeNames mergeDirectives)
          (∅, transformedSchemas, directiveMap) subschemaConfigs in
  match document with
  | Some document =>
    let typeCandidates := addDefinedTypes (extractTypeDefinitions document) typeCandidates in
    directiveMap ← addDefinedDirectives (extractDirectiveDefinitions document) directiveMap;
    let extensionsDocument := extractTypeExtensionDefinitions document in
    let extensions :=
      if (0 <? length (definitions extensionsDocument))%nat
      then extensions ++ [extensionsDocument]
      else extensions in
    Some (mkTypeCandidatesResult (addTypes types typeCandidates) transformedSchemas
            extensions directiveMap schemaDef schemaExtensions operationTypeNames)
  | None =>
    Some (mkTypeCandidatesResult (addTypes types typeCandidates) transformedSchemas
            extensions directiveMap schemaDef schemaExtensions operationTypeNames)
  end.

(** ** Vocabulary of the statements about [buildTypeCandidates] *)

(** The candidate a subschema contributes for a type, and the one a type
    with no subschema makes. *)
Definition subschemaCandidate (subschemaConfig : SubschemaConfig)
    (type' : GraphQLNamedType) : MergeTypeCandidate :=
  mkCandidate type' (Some subschemaConfig) (Some (wrapSchema subschemaConfig)) None.

Definition localCandidate (type' : GraphQLNamedType) : MergeTypeCandidate :=
  mkCandidate type' None None None.

(** The candidates a subschema adds, each with the name it goes under, in the
    order it adds them: its root types, then the other types of its type
    map. *)
Definition operationTypeAdditions (operationTypeNames : gmap string string)
    (subschemaConfig : SubschemaConfig) : list (string * MergeTypeCandidate) :=
  omap (λ '(operationType, rootType),
          (λ rootType, (operationTypeName operationTypeNames operationType,
                        subschemaCandidate subschemaConfig rootType)) <$> rootType)
       (schemaOperationTypes (wrapSchema subschemaConfig)).

Definition typeMapAdditions (subschemaConfig : SubschemaConfig)
    : list (string * MergeTypeCandidate) :=
  omap (λ '(typeName, type'),
          if isOwnTypeCandidate (wrapSchema subschemaConfig) type'
          then Some (namedTypeName type', subschemaCandidate subschemaConfig type')
          else None)
       (getTypeMap (wrapSchema subschemaConfig)).

Definition subschemaAdditions (operationTypeNames : gmap string string)
    (subschemaConfig : SubschemaConfig) : list (string * MergeTypeCandidate) :=
  operationTypeAdditions operationTypeNames subschemaConfig
  ++ typeMapAdditions subschemaConfig.

(** The candidates the type definitions add, and those of [types]. *)
Definition definedTypeAdditions (typesDocument : DocumentNode)
    : list (string * MergeTypeCandidate) :=
  omap (λ def, (λ type', (namedTypeName type', localCandidate type')) <$> typeFromAST def)
       (definitions typesDocument).

Definition typeAdditions (types : list GraphQLNamedType)
    : list (string * MergeTypeCandidate) :=
  (λ type', (namedTypeName type', localCandidate type')) <$> types.

(** The document of the type definitions, when there are some. *)
Definition typeDefsDocument (typeDefs : ITypeDefinitions) (parseOptions : ParseOptions)
    : option DocumentNode :=
  if hasTypeDefs typeDefs
  then Some (buildDocumentFromTypeDefinitions typeDefs parseOptions)
  else None.

(** The operation type names after the schema definition and the schema
    extensions of the type definitions were read. *)
Definition resolvedOperationTypeNames (typeDefs : ITypeDefinitions)
    (parseOptions : ParseOptions) (operationTypeNames : gmap string string)
    : gmap string string :=
  setOperationTypeNames
    (typeDefsDocument typeDefs parseOptions ≫= extractSchemaDefinition)
    (default [] (extractSchemaExtensions <$> typeDefsDocument typeDefs parseOptions))
    operationTypeNames.

(** Every addition of a call, in order: subschema by subschema, then the
    type definitions, then [types]. *)
Definition allAdditions (subschemaConfigs : list SubschemaConfig)
    (types : list GraphQLNamedType) (typeDefs : ITypeDefinitions)
    (parseOptions : ParseOptions) (operationTypeNames : gmap string string)
    : list (string * MergeTypeCandidate) :=
  mjoin (subschemaAdditions
           (resolvedOperationTypeNames typeDefs parseOptions operationTypeNames)
         <$> subschemaConfigs)
  ++ default []
       ((λ document, definedTypeAdditions (extractTypeDefinitions document))
        <$> typeDefsDocument typeDefs parseOptions)
  ++ typeAdditions types.

(** The root type of a schema for an operation. *)
Definition rootType (operation' : OperationTypeNode) (schema : GraphQLSchema)
    : option GraphQLNamedType :=
  match operation' with
  | OpQuery => getQueryType schema
  | OpMutation => getMutationType schema
  | OpSubscription => getSubscriptionType schema
  end.

(** The candidates among some additions that go under a name, in order. *)
Definition additionsFor (name : string) (additions : list (string * MergeTypeCandidate))
    : list MergeTypeCandidate :=
  (filter (λ addition, addition.1 = name) additions).*2.

(** ** Vocabulary of the statements about [buildTypeMap] *)

(** The candidate selector [buildTypeMap] uses on a name it does not merge,
    applied to the candidates. *)
Definition candidateSelector (onTypeConflict : option OnTypeConflict)
    (cands : list MergeTypeCandidate) : option MergeTypeCandidate :=
  match onTypeConflict with
  | Some onTypeConflict => onTypeConflictToCandidateSelector onTypeConflict cands
  | None => lastCandidate cands
  end.

(** The name is none of the three root-operation type names. *)
Definition notRootTypeName (operationTypeNames : gmap string string)
    (typeName : string) : Prop :=
  operationTypeNames !! "query" ≠ Some typeName
  ∧ operationTypeNames !! "mutation" ≠ Some typeName
  ∧ operationTypeNames !! "subscription" ≠ Some typeName.

(** [stitchingInfo] is absent or has no entry for the name. *)
Definition notInMergedTypes (stitchingInfo : option StitchingInfo)
    (typeName : string) : Prop :=
  ∀ info, stitchingInfo = Some info → mergedTypes info !! typeName = None.

End buildTypeMap.

Arguments MergeTypeCandidate : clear implicits.
Arguments ConflictInfo : clear implicits.
Arguments OnTypeConflict : clear implicits.
Arguments MergeTypes : clear implicits.
Arguments StitchingInfo : clear implicits.
Arguments ITypedef : clear implicits.
Arguments ITypeDefinitions : clear implicits.
Arguments TypeCandidatesResult : clear implicits.

End TypeCandidates.

(* ===================================================================== *)
(** * WrapType *)
(* ===================================================================== *)

Module WrapType.

Section Transform.

Context {GraphQLSchema SubschemaConfig Request ExecutionResult : Type}.
Context {DelegationContext TransformationContext : Type}.

(** The [Transform] interface, as an object: the methods read and may
    update what the object holds.  [state] is everything a call can change
    (the private fields, and the mutable records handed to it); a method
    returns its result and the state it leaves behind. *)
Record Transform := mkTransform {
  state : Type;
  constructed : state;
  transformSchema :
    state → GraphQLSchema → option SubschemaConfig → GraphQLSchema * state;
  transformRequest :
    state → Request → DelegationContext → TransformationContext → Request * state;
  transformResult :
    state → ExecutionResult → DelegationContext → TransformationContext
    → ExecutionResult * state;
}.

(** [new WrapFields(outerTypeName, wrappingFieldNames, wrappingTypeNames)]
    of [./WrapFields]. *)
Variable WrapFields : string → list string → list string → Transform.

(** [class WrapType]: its only field is [transformer], so its state is the
    transformer's, and each method hands its arguments on. *)
Definition WrapType (outerTypeName innerTypeName fieldName : string) : Transform :=
  let transformer := WrapFields outerTypeName [fieldName] [innerTypeName] in
  {| state := state transformer;
     constructed := constructed transformer;
     transformSchema := λ this originalWrappingSchema subschemaConfig,
       transformSchema transformer this originalWrappingSchema subschemaConfig;
     transformRequest := λ this originalRequest delegationContext transformationContext,
       transformRequest transformer this originalRequest delegationContext
         transformationContext;
     transformResult := λ this originalResult delegationContext transformationContext,
       transformResult transformer this originalResult delegationContext
         transformationContext |}.

(** ** What a caller can observe of a transform

    A caller holds the object, calls its methods in some order and sees what
    they return. *)
Inductive Call :=
| CallTransformSchema (schema : GraphQLSchema) (subschemaConfig : option SubschemaConfig)
| CallTransformRequest (request : Request) (delegationContext : DelegationContext)
    (transformationContext : TransformationContext)
| CallTransformResult (result : ExecutionResult) (delegationContext : DelegationContext)
    (transformationContext : TransformationContext).

Inductive Reply :=
| ReplySchema (schema : GraphQLSchema)
| ReplyRequest (request : Request)
| ReplyResult (result : ExecutionResult).

Definition invoke (transform : Transform) (this : state transform) (call : Call)
    : Reply * state transform :=
  match call with
  | CallTransformSchema schema subschemaConfig =>
    let '(schema', this') := transformSchema transform this schema subschemaConfig in
    (ReplySchema schema', this')
  | CallTransformRequest request delegationContext transformationContext =>
    let '(request', this') :=
      transformRequest transform this request delegationContext transformationContext in
    (ReplyRequest request', this')
  | CallTransformResult result delegationContext transformationContext =>
    let '(result', this') :=
      transformResult transform this result delegationContext transformationContext in
    (ReplyResult result', this')
  end.

Fixpoint replies (transform : Transform) (this : state transform) (calls : list Call)
    : list Reply :=
  match calls with
  | [] => []
  | call :: calls =>
    let '(reply, this') := invoke transform this call in
    reply :: replies transform this' calls
  end.

(** The replies a freshly constructed transform gives to a sequence of calls. *)
Definition observe (transform : Transform) (calls : list Call) : list Reply :=
  replies transform (constructed transform) calls.

End Transform.

Arguments Transform : clear implicits.
Arguments Call : clear implicits.
Arguments Reply : clear implicits.

End WrapType.

(* ===================================================================== *)
(** * TransformRootFields.ts *)
(* ===================================================================== *)

Module TransformRootFields.

Section TransformRootFields.

Context {GraphQLSchema SubschemaConfig Request ExecutionResult : Type}.
Context {DelegationContext TransformationContext : Type}.
Context {GraphQLNamedType GraphQLFieldConfig FieldTransformerResult : Type}.
Context {FieldNodeTransformer : Type}.

Local Abbreviation Transform :=
  (WrapType.Transform GraphQLSchema SubschemaConfig Request ExecutionResult
     DelegationContext TransformationContext).

(** The first argument of a [RootFieldTransformer]:
    ['Query' | 'Mutation' | 'Subscription']. *)
Inductive RootOperation := Query | Mutation | Subscription.

(** The getters of a schema and [type.name]; [undefined] as the result of a
    field transformer; and [new TransformObjectFields(objectFieldTransformer,
    fieldNodeTransformer)] of [./TransformObjectFields]. *)
Variable getQueryType : GraphQLSchema → option GraphQLNamedType.
Variable getMutationType : GraphQLSchema → option GraphQLNamedType.
Variable getSubscriptionType : GraphQLSchema → option GraphQLNamedType.
Variable namedTypeName : GraphQLNamedType → string.
Variable undefinedResult : FieldTransformerResult.
Variable TransformObjectFields :
  (string → string → GraphQLFieldConfig → FieldTransformerResult)
  → option FieldNodeTransformer → Transform.

(** An object of the class: the two fields the constructor sets, and
    [transformer], [undefined] until [transformSchema] sets it; a
    transformer is held with the state it is in. *)
Record TransformRootFields := mkTransformRootFields {
  rootFieldTransformer :
    RootOperation → string → GraphQLFieldConfig → FieldTransformerResult;
  fieldNodeTransformer : option FieldNodeTransformer;
  transformer : option { object : Transform & WrapType.state object };
}.

(** The constructor. *)
Definition new (rootFieldTransformer :
                  RootOperation → string → GraphQLFieldConfig → FieldTransformerResult)
    (fieldNodeTransformer : option FieldNodeTransformer) : TransformRootFields :=
  mkTransformRootFields rootFieldTransformer fieldNodeTransformer None.

(** [rootToObjectFieldTransformer], lines 26 to 44: [queryTypeName] and the
    like are [undefined] for a schema without that root type, which no type
    name is equal to. *)
Definition rootToObjectFieldTransformer (this : TransformRootFields)
    (originalWrappingSchema : GraphQLSchema) (typeName fieldName : string)
    (fieldConfig : GraphQLFieldConfig) : FieldTransformerResult :=
  let queryTypeName := namedTypeName <$> getQueryType originalWrappingSchema in
  let mutationTypeName := namedTypeName <$> getMutationType originalWrappingSchema in
  let subscriptionTypeName :=
    namedTypeName <$> getSubscriptionType originalWrappingSchema in
  if decide (Some typeName = queryTypeName)
  then rootFieldTransformer this Query fieldName fieldConfig
  else if decide (Some typeName = mutationTypeName)
  then rootFieldTransformer this Mutation fieldName fieldConfig
  else if decide (Some typeName = subscriptionTypeName)
  then rootFieldTransformer this Subscription fieldName fieldConfig
  else undefinedResult.

(** [transformSchema] builds a new [TransformObjectFields], keeps it in
    [transformer] and hands the call on to it. *)
Definition transformSchema (this : TransformRootFields)
    (originalWrappingSchema : GraphQLSchema) (subschemaConfig : option SubschemaConfig)
    : GraphQLSchema * TransformRootFields :=
  let created :=
    TransformObjectFields (rootToObjectFieldTransformer this originalWrappingSchema)
      (fieldNodeTransformer this) in
  let '(schema, state) :=
    WrapType.transformSchema created (WrapType.constructed created)
      originalWrappingSchema subschemaConfig in
  (schema,
   mkTransformRootFields (rootFieldTransformer this) (fieldNodeTransformer this)
     (Some (existT created state))).

(** [transformRequest] and [transformResult] call the method of
    [this.transformer], which throws while that is [undefined]. *)
Definition transformRequest (this : TransformRootFields) (originalRequest : Request)
    (delegationContext : DelegationContext)
    (transformationContext : TransformationContext)
    : option (Request * TransformRootFields) :=
  match transformer this with
  | None => None
  | Some (existT object state) =>
    let '(request, state) :=
      WrapType.transformRequest object state originalRequest delegationContext
        transformationContext in
    Some (request,
          mkTransformRootFields (rootFieldTransformer this) (fieldNodeTransformer this)
            (Some (existT object state)))
  end.

Definition transformResult (this : TransformRootFields) (originalResult : ExecutionResult)
    (delegationContext : DelegationContext)
    (transformationContext : TransformationContext)
    : option (ExecutionResult * TransformRootFields) :=
  match transformer this with
  | None => None
  | Some (existT object state) =>
    let '(result, state) :=
      WrapType.transformResult object state originalResult delegationContext
        transformationContext in
    Some (result,
          mkTransformRootFields (rootFieldTransformer this) (fieldNodeTransformer this)
            (Some (existT object state)))
  end.

(** ** What a caller can observe

    The replies to a sequence of calls, as for [WrapType.replies]; [None]
    when one of the calls throws. *)
Definition invoke (this : TransformRootFields)
    (call : WrapType.Call GraphQLSchema SubschemaConfig Request ExecutionResult
              DelegationContext TransformationContext)
    : option (WrapType.Reply GraphQLSchema Request ExecutionResult * TransformRootFields) :=
  match call with
  | WrapType.CallTransformSchema schema subschemaConfig =>
    let '(schema', this') := transformSchema this schema subschemaConfig in
    Some (WrapType.ReplySchema schema', this')
  | WrapType.CallTransformRequest request delegationContext transformationContext =>
    '(request', this') ← transformRequest this request delegationContext
                           transformationContext;
    Some (WrapType.ReplyRequest request', this')
  | WrapType.CallTransformResult result delegationContext transformationContext =>
    '(result', this') ← transformResult this result delegationContext
                          transformationContext;
    Some (WrapType.ReplyResult result', this')
  end.

Fixpoint replies (this : TransformRootFields)
    (calls : list (WrapType.Call GraphQLSchema SubschemaConfig Request ExecutionResult
                     DelegationContext TransformationContext))
    : option (list (WrapType.Reply GraphQLSchema Request ExecutionResult)) :=
  match calls with
  | [] => Some []
  | call :: calls =>
    '(reply, this') ← invoke this call;
    rest ← replies this' calls;
    Some (reply :: rest)
  end.

(** A call of [transformRequest] or [transformResult]. *)
Definition isDelegationCall
    (call : WrapType.Call GraphQLSchema SubschemaConfig Request ExecutionResult
              DelegationContext TransformationContext) : Prop :=
  match call with
  | WrapType.CallTransformSchema _ _ => False
  | _ => True
  end.

End TransformRootFields.

Arguments TransformRootFields : clear implicits.

End TransformRootFields.

(* ===================================================================== *)
(** * Properties of errors.ts *)
(* ===================================================================== *)

Module ErrorsFacts.
Import Errors.

Section facts.

Context {ASTNode Source SourceLocation OriginalError ExtensionValue : Type}.
Variable getLocations :
  option (list ASTNode) → option Source → option (list N) → option (list SourceLocation).
Variable extensionsOf : OriginalError → option (gmap string ExtensionValue).

Local Abbreviation GraphQLError :=
  (GraphQLError ASTNode Source SourceLocation OriginalError ExtensionValue).
Local Abbreviation ObjectData :=
  (ObjectData ASTNode Source SourceLocation OriginalError ExtensionValue).
Local Abbreviation constructGraphQLError := (constructGraphQLError getLocations extensionsOf).
Local Abbreviation relocatedError := (relocatedError getLocations extensionsOf).
Local Abbreviation relocatedErrorRef := (relocatedErrorRef getLocations extensionsOf).
Local Abbreviation slicedError := (slicedError getLocations extensionsOf).
Local Abbreviation addErrorByPathSegment :=
  (addErrorByPathSegment getLocations extensionsOf).
Local Abbreviation getErrorsByPathSegment :=
  (getErrorsByPathSegment getLocations extensionsOf).
Local Abbreviation wellConstructed := (wellConstructed extensionsOf).
Local Abbreviation locationsComputed := (locationsComputed getLocations).

Implicit Types (err error : GraphQLError) (errors : list GraphQLError).
Implicit Types (record : gmap string (list GraphQLError)).
Implicit Types (heap : gmap positive ObjectData) (store : gmap positive GraphQLError).

(** ** relocatedError *)

Lemma allocError_fresh store error :
  store !! (allocError store error).1 = None.
Proof.
  unfold allocError. simpl.
  apply not_elem_of_dom. apply is_fresh.
Qed.

(** C2 (as the code has it): leaving the path out keeps the original path,
    [null] removes the path, an array (the empty one included) becomes the
    path.  In every case message and originalError are those of the
    original.  The extensions are those of the original when it has some, and
    else those the constructor takes over from its originalError: they are
    preserved exactly when the original has extensions or its originalError
    brings none.  The locations are those the constructor computes from the
    nodes, the source and the positions of the original: they are preserved
    exactly when the original's locations are those.  The result is a newly
    allocated error, the original staying in the store as it was. *)
Theorem relocatedError_spec err :
  path (relocatedError err PathUndefined) = path err
  ∧ path (relocatedError err PathNull) = None
  ∧ path (relocatedError err (PathArray [])) = Some []
  ∧ (∀ explicitPath, path (relocatedError err (PathArray explicitPath)) = Some explicitPath)
  ∧ (∀ newPath,
       message (relocatedError err newPath) = message err
       ∧ originalError (relocatedError err newPath) = originalError err
       ∧ extensions (relocatedError err newPath)
         = match extensions err with
           | Some extensions => Some extensions
           | None => originalError err ≫= extensionsOf
           end
       ∧ (extensions (relocatedError err newPath) = extensions err
          ↔ wellConstructed err)
       ∧ locations (relocatedError err newPath)
         = getLocations (nodes err) (source err) (positions err)
       ∧ (locations (relocatedError err newPath) = locations err
          ↔ locationsComputed err))
  ∧ (∀ store ref newPath,
       store !! ref = Some err →
       ∃ ref' store',
         relocatedErrorRef store ref newPath = Some (ref', store')
         ∧ ref' ≠ ref
         ∧ store !! ref' = None
         ∧ store' !! ref' = Some (relocatedError err newPath)
         ∧ ∀ other, other ≠ ref' → store' !! other = store !! other).
Proof.
  split; [done|]. split; [done|]. split; [done|]. split; [done|]. split.
  - intros newPath. split; [done|]. split; [done|]. split; [done|]. split.
    + unfold Errors.wellConstructed. simpl.
      destruct (extensions err) as [originalExtensions|]; [by split|].
      split; [by intros -> | by intros ->].
    + split; [done|]. unfold Errors.locationsComputed. simpl. by split.
  - intros store ref newPath Hin.
    unfold Errors.relocatedErrorRef. rewrite Hin. simpl.
    pose proof (allocError_fresh store (relocatedError err newPath)) as Hfresh.
    destruct (allocError store (relocatedError err newPath)) as [ref' store'] eqn:Halloc.
    unfold allocError in Halloc. injection Halloc as Href Hstore.
    simpl in Hfresh.
    exists ref', store'. split; [done|].
    split; [intros ->; congruence|].
    split; [done|].
    subst store'. rewrite Href. split.
    + apply lookup_insert_eq.
    + intros other Hne. by apply lookup_insert_ne.
Qed.

(** ** slicedError and getErrorsByPathSegment *)

Lemma slicedError_path err : path (slicedError err) = drop 1 <$> path err.
Proof.
  unfold Errors.slicedError. destruct (path err) eqn:Hpath; simpl; by rewrite ?Hpath.
Qed.

Lemma slicedError_constructed err :
  slicedError err =
  constructGraphQLError (message err) (nodes err) (source err) (positions err)
    (drop 1 <$> path err) (originalError err) (extensions err).
Proof.
  unfold Errors.slicedError, Errors.relocatedError.
  destruct (path err) eqn:Hpath; simpl; by rewrite ?Hpath.
Qed.

Lemma addErrorByPathSegment_lookup record error key :
  addErrorByPathSegment record error !! key =
    if decide (childKey error = Some key)
    then Some (default [] (record !! key) ++ [slicedError error])
    else record !! key.
Proof.
  unfold Errors.addErrorByPathSegment, childKey.
  destruct (path error) as [[|first [|second rest]]|]; simpl; try done.
  case_decide as Hkey.
  - injection Hkey as <-. by rewrite lookup_insert_eq.
  - rewrite lookup_insert_ne; [done | congruence].
Qed.

Lemma foldl_addErrorByPathSegment_lookup errors record key :
  foldl addErrorByPathSegment record errors !! key =
    match filter (λ error, childKey error = Some key) errors with
    | [] => record !! key
    | children => Some (default [] (record !! key) ++ (slicedError <$> children))
    end.
Proof.
  revert record. induction errors as [|error errors IH]; intros record; [done|].
  simpl. rewrite IH, addErrorByPathSegment_lookup.
  rewrite filter_cons. case_decide as Hkey; simpl.
  - destruct (filter _ errors) as [|child children]; [done|].
    by rewrite <- (assoc_L (++)).
  - done.
Qed.

(** C1 (as the code has it): the errors are grouped by their second path
    segment.  Under a key stand, in their order, the errors whose path has at
    least two segments and whose second segment is that key, each with its
    leading segment removed; errors with no path or a shorter one are left
    out, and a key no error has is absent.  An error with its leading segment
    removed is the error the constructor builds from the fields of the
    original and the rest of its path: message, nodes, source, positions and
    originalError are those of the original. *)
Theorem getErrorsByPathSegment_spec errors key :
  getErrorsByPathSegment errors !! key =
    match filter (λ error, childKey error = Some key) errors with
    | [] => None
    | children => Some (slicedError <$> children)
    end
  ∧ (∀ error,
       slicedError error =
       constructGraphQLError (message error) (nodes error) (source error)
         (positions error) (drop 1 <$> path error) (originalError error)
         (extensions error)
       ∧ path (slicedError error) = drop 1 <$> path error
       ∧ message (slicedError error) = message error
       ∧ nodes (slicedError error) = nodes error
       ∧ source (slicedError error) = source error
       ∧ positions (slicedError error) = positions error
       ∧ originalError (slicedError error) = originalError error)
  ∧ (∀ error,
       is_Some (childKey error) ↔
       ∃ first second rest, path error = Some (first :: second :: rest)).
Proof.
  split; [|split].
  - unfold Errors.getErrorsByPathSegment.
    rewrite foldl_addErrorByPathSegment_lookup, lookup_empty. done.
  - intros error. split; [apply slicedError_constructed|].
    by rewrite slicedError_constructed.
  - intros error. unfold childKey.
    destruct (path error) as [[|first [|second rest]]|]; split;
      try (intros [? ?]; discriminate);
      try (intros (? & ? & ? & ?); discriminate).
    + intros _. by exists first, second, rest.
    + intros _. by eexists.
Qed.

(** ** setErrors and getErrors *)

Lemma errorMatchesSegment_appliesToField fieldName error :
  errorMatchesSegment fieldName error = true ↔ appliesToField fieldName error.
Proof.
  unfold errorMatchesSegment, appliesToField.
  destruct (path error) as [[|[name|i] rest]|]; simpl.
  - split; [discriminate | intros [?|[? ?]]; discriminate].
  - rewrite bool_decide_eq_true. split.
    + intros ->. right. by exists rest.
    + intros [?|[? ?]]; [discriminate | congruence].
  - split; [discriminate | intros [?|[? ?]]; discriminate].
  - split; [by left | done].
Qed.

Lemma filter_errorMatchesSegment fieldName errors :
  List.filter (errorMatchesSegment fieldName) errors =
  filter (appliesToField fieldName) errors.
Proof.
  induction errors as [|error errors IH]; [done|].
  simpl. rewrite filter_cons, IH.
  pose proof (errorMatchesSegment_appliesToField fieldName error) as Hiff.
  destruct (errorMatchesSegment fieldName error); case_decide; try done.
  - exfalso. tauto.
  - exfalso. assert (false = true) by tauto. discriminate.
Qed.

Lemma filter_nil_Forall_not {A} (P : A → Prop) `{∀ x, Decision (P x)} (l : list A) :
  filter P l = [] ↔ Forall (λ x, ¬ P x) l.
Proof.
  induction l as [|x l IH]; [by split; [constructor|]|].
  rewrite filter_cons, Forall_cons. case_decide; [|tauto].
  split; [discriminate | tauto].
Qed.

(** C9: on a result that is an object, [setErrors] succeeds, leaves the
    object's own visible properties and every other object as they were, and
    a following [getErrors] for a field name returns, in order, exactly the
    attached errors that carry no path or whose path starts with that name. *)
Theorem setErrors_getErrors heap ref object errors fieldName :
  heap !! ref = Some object →
  ∃ heap',
    setErrors heap (JSObject ref) errors = Some heap'
    ∧ properties <$> heap' !! ref = Some (properties object)
    ∧ (∀ other, other ≠ ref → heap' !! other = heap !! other)
    ∧ getErrors heap' (JSObject ref) fieldName =
        Some (filter (appliesToField fieldName) errors).
Proof.
  intros Hobject. unfold setErrors. rewrite Hobject. simpl.
  eexists. split; [done|].
  split; [by rewrite lookup_insert_eq|].
  split; [intros other Hne; by rewrite lookup_insert_ne|].
  unfold getErrors. rewrite lookup_insert_eq. simpl.
  by rewrite filter_errorMatchesSegment.
Qed.

(** C10: [getErrors] returns [null] for [null], for [undefined] and for any
    result with no error list attached; it returns the empty list exactly when
    the result is an object with a list attached none of whose errors lacks a
    path or has the field name as its leading segment. *)
Theorem getErrors_null_or_empty heap result fieldName :
  getErrors heap JSNull fieldName = None
  ∧ getErrors heap JSUndefined fieldName = None
  ∧ ((∀ ref object,
        result = JSObject ref → heap !! ref = Some object →
        subschemaErrors object = None) →
     getErrors heap result fieldName = None)
  ∧ (getErrors heap result fieldName = Some [] ↔
     ∃ ref object errors,
       result = JSObject ref
       ∧ heap !! ref = Some object
       ∧ subschemaErrors object = Some errors
       ∧ Forall (λ error, ¬ appliesToField fieldName error) errors).
Proof.
  split; [done|]. split; [done|]. split.
  - intros Hnone. unfold getErrors.
    destruct result as [| | | | |ref]; try done.
    destruct (heap !! ref) as [object|] eqn:Hobject; [|done]. simpl.
    by rewrite (Hnone ref object eq_refl Hobject).
  - unfold getErrors. split.
    + destruct result as [| | | | |ref]; try done.
      destruct (heap !! ref) as [object|] eqn:Hobject; [|done]. simpl.
      destruct (subschemaErrors object) as [errors|] eqn:Herrors; [|done].
      rewrite filter_errorMatchesSegment. intros [= Hnil].
      exists ref, object, errors. repeat split; try done.
      by rewrite <- filter_nil_Forall_not.
    + intros (ref & object & errors & -> & Hobject & Herrors & Hall).
      rewrite Hobject. simpl. rewrite Herrors, filter_errorMatchesSegment.
      f_equal. by rewrite filter_nil_Forall_not.
Qed.

End facts.

(** ** The statements at concrete errors *)

(** An error that carries a message and a path only. *)
Definition errorAt (message : string) (segments : list PathSegment)
    : GraphQLError unit unit unit unit unit :=
  new_GraphQLError message None None None None (Some segments) None None.

Definition errorWithoutPath (message : string) : GraphQLError unit unit unit unit unit :=
  new_GraphQLError message None None None None None None None.

(** A constructor that computes no locations, and original errors that bring
    no extensions. *)
Definition noLocations
    : option (list unit) → option unit → option (list N) → option (list unit) :=
  λ _ _ _, None.

Definition noExtensions {OriginalError} : OriginalError → option (gmap string unit) :=
  λ _, None.

(** An error with extensions and an original error; the original error is
    given by the extensions it has, if it has any. *)
Definition errorWithExtensions (extensions : option (gmap string nat))
    (originalError : option (option (gmap string nat)))
    : GraphQLError unit unit unit (option (gmap string nat)) nat :=
  new_GraphQLError "boom" None None None None (Some [FieldName "a"]) originalError
    extensions.

Definition sampleExtensionsOf : option (gmap string nat) → option (gmap string nat) :=
  λ original, original.

(** *** Locations, written out

    A source is its body; a node is its [loc], when it has one: the source it
    was parsed from and the position it starts at; a location is a line and a
    column. *)
Record NodeLocation := mkNodeLocation {
  locationSource : string;
  locationStart : N;
}.

(** [getLocation(source, position)] of graphql-js: each line break ([\r\n],
    [\n] or [\r]) that starts before the position begins a new line, and the
    column counts from the end of the last of them. *)
Fixpoint getLocationFrom (body : string) (index position line column : N) : N * N :=
  match body with
  | EmptyString => (line, column)
  | String char rest =>
    if Ascii.eqb char "013"%char then
      if (index <? position)%N then
        match rest with
        | String char' rest' =>
          if Ascii.eqb char' "010"%char
          then getLocationFrom rest' (index + 2) position (line + 1)
                 (position + 1 - (index + 2))
          else getLocationFrom rest (index + 1) position (line + 1)
                 (position + 1 - (index + 1))
        | EmptyString => ((line + 1)%N, (position + 1 - (index + 1))%N)
        end
      else (line, column)
    else if Ascii.eqb char "010"%char then
      if (index <? position)%N
      then getLocationFrom rest (index + 1) position (line + 1)
             (position + 1 - (index + 1))
      else (line, column)
    else getLocationFrom rest (index + 1) position line column
  end.

Definition getLocation (body : string) (position : N) : N * N :=
  getLocationFrom body 0 position 1 (position + 1).

(** The locations graphql-js's constructor computes: those of the positions
    in the source when it is given both; else those of the nodes that have a
    [loc], each in the source of its own [loc]; none when it is given no node. *)
Definition graphqlLocations (nodes : option (list (option NodeLocation)))
    (source : option string) (positions : option (list N)) : option (list (N * N)) :=
  match positions, source with
  | Some positions, Some source => Some (getLocation source <$> positions)
  | _, _ =>
    match nodes with
    | Some (node :: nodes) =>
      Some (omap (λ node : option NodeLocation,
                    (λ loc, getLocation (locationSource loc) (locationStart loc))
                    <$> node)
                 (node :: nodes))
    | _ => None
    end
  end.

Definition lineBreak : string := String "010"%char EmptyString.

Definition queryDocument : string :=
  "type Query {" +:+ lineBreak +:+ "  a: Int" +:+ lineBreak +:+ "}".

Definition extensionDocument : string := "extend type Query { b: Int }".

(** The field [a] of the first document and the field [b] of the second. *)
Definition fieldA : option NodeLocation := Some (mkNodeLocation queryDocument 15).
Definition fieldB : option NodeLocation := Some (mkNodeLocation extensionDocument 20).

(** The error graphql-js builds from the two nodes alone,
    [new GraphQLError('boom', [fieldA, fieldB])]: the source is that of the
    first node, the positions are where the nodes start, and each location is
    that of a node in its own document. *)
Definition twoDocumentError : GraphQLError (option NodeLocation) string (N * N) unit unit :=
  new_GraphQLError "boom" (Some [fieldA; fieldB]) (Some queryDocument)
    (Some [15%N; 20%N]) (Some [(2%N, 3%N); (1%N, 21%N)]) None None None.

Example twoDocumentError_locations :
  graphqlLocations (Some [fieldA; fieldB]) None None = locations twoDocumentError.
Proof. vm_compute. reflexivity. Qed.

(** C2, as stated, fails in three ways.  [relocatedError(e, null)] does not
    keep the path of [e]: the error it returns has no path.  The extensions
    are not preserved when [e] has none and its originalError has some: the
    constructor takes those over.  The locations are not preserved when the
    nodes of [e] come from two documents: the constructor, given the source
    and the positions of [e], places every position in the first document. *)
Lemma relocatedError_not_preserving :
  (path (relocatedError noLocations noExtensions
           (errorAt "boom" [FieldName "a"; Index 0]) PathNull)
   ≠ path (errorAt "boom" [FieldName "a"; Index 0])
   ∧ path (relocatedError noLocations noExtensions
             (errorAt "boom" [FieldName "a"; Index 0]) PathNull) = None)
  ∧ (extensions (relocatedError noLocations sampleExtensionsOf
                   (errorWithExtensions None (Some (Some {[ "retry" := 5%nat ]})))
                   PathUndefined)
     ≠ extensions (errorWithExtensions None (Some (Some {[ "retry" := 5%nat ]})))
     ∧ extensions (relocatedError noLocations sampleExtensionsOf
                     (errorWithExtensions None (Some (Some {[ "retry" := 5%nat ]})))
                     PathUndefined)
       = Some {[ "retry" := 5%nat ]})
  ∧ (locations (relocatedError graphqlLocations noExtensions twoDocumentError
                  PathUndefined)
     ≠ locations twoDocumentError
     ∧ locations (relocatedError graphqlLocations noExtensions twoDocumentError
                    PathUndefined)
       = Some [(2%N, 3%N); (2%N, 8%N)]).
Proof.
  split; [|split].
  - split; [discriminate | reflexivity].
  - split; [discriminate | reflexivity].
  - split; [|vm_compute; reflexivity].
    intros Heq. vm_compute in Heq. discriminate.
Qed.

Lemma relocatedError_spec_witness :
  ∃ ref' store',
    relocatedErrorRef noLocations noExtensions
      {[ 1%positive := errorAt "boom" [FieldName "a"] ]} 1%positive
      (PathArray [FieldName "b"]) = Some (ref', store')
    ∧ ref' ≠ 1%positive
    ∧ ({[ 1%positive := errorAt "boom" [FieldName "a"] ]} : gmap positive _) !! ref' = None
    ∧ store' !! ref' =
        Some (relocatedError noLocations noExtensions
                (errorAt "boom" [FieldName "a"]) (PathArray [FieldName "b"]))
    ∧ ∀ other, other ≠ ref' →
        store' !! other =
        ({[ 1%positive := errorAt "boom" [FieldName "a"] ]} : gmap positive _) !! other.
Proof.
  destruct (relocatedError_spec noLocations noExtensions (errorAt "boom" [FieldName "a"]))
    as (_ & _ & _ & _ & _ & Hrefs).
  apply Hrefs. reflexivity.
Defined.

(** C1, as stated, fails on the example of the specification: nothing is
    listed under [x]; [e1] and [e3] are listed under [1] and [2], the second
    segments of their paths. *)
Lemma getErrorsByPathSegment_not_by_first_segment :
  getErrorsByPathSegment noLocations noExtensions
    [errorAt "e1" [FieldName "x"; Index 1];
     errorAt "e2" [FieldName "y"];
     errorAt "e3" [FieldName "x"; Index 2]]
  ≠ {[ "x" := [errorAt "e1" [Index 1]; errorAt "e3" [Index 2]] ]}
  ∧ getErrorsByPathSegment noLocations noExtensions
      [errorAt "e1" [FieldName "x"; Index 1];
       errorAt "e2" [FieldName "y"];
       errorAt "e3" [FieldName "x"; Index 2]]
    = <[ "1" := [errorAt "e1" [Index 1]] ]> {[ "2" := [errorAt "e3" [Index 2]] ]}.
Proof.
  split.
  - intros Heq. apply (f_equal (λ record, record !! "x")) in Heq.
    vm_compute in Heq. discriminate.
  - vm_compute. reflexivity.
Qed.

Definition sampleObject : ObjectData unit unit unit unit unit :=
  mkObject {[ "id" := JSNumber 7 ]} None.

Definition sampleErrors : list (GraphQLError unit unit unit unit unit) :=
  [errorAt "e1" [FieldName "a"; Index 0]; errorWithoutPath "e2";
   errorAt "e3" [FieldName "b"]; errorAt "e4" [Index 0]; errorAt "e5" []].

Lemma setErrors_getErrors_witness :
  ({[ 1%positive := sampleObject ]} : gmap positive _) !! 1%positive = Some sampleObject
  ∧ ∃ heap',
      setErrors {[ 1%positive := sampleObject ]} (JSObject 1) sampleErrors = Some heap'
      ∧ properties <$> heap' !! 1%positive = Some (properties sampleObject)
      ∧ (∀ other, other ≠ 1%positive →
           heap' !! other = ({[ 1%positive := sampleObject ]} : gmap positive _) !! other)
      ∧ getErrors heap' (JSObject 1) "a" =
          Some (filter (appliesToField "a") sampleErrors).
Proof.
  split; [reflexivity|].
  exact (setErrors_getErrors {[ 1%positive := sampleObject ]} 1%positive sampleObject
           sampleErrors "a" eq_refl).
Defined.

Example getErrors_example :
  getErrors {[ 1%positive := mkObject (properties sampleObject) (Some sampleErrors) ]}
    (JSObject 1) "a"
  = Some [errorAt "e1" [FieldName "a"; Index 0]; errorWithoutPath "e2"].
Proof. reflexivity. Qed.

Example setErrors_throws_on_null :
  setErrors {[ 1%positive := sampleObject ]} JSNull sampleErrors = None
  ∧ setErrors {[ 1%positive := sampleObject ]} (JSString "data") sampleErrors = None.
Proof. by split. Qed.

Example slicedError_example :
  slicedError noLocations noExtensions
    (errorAt "e" [FieldName "a"; FieldName "b"; FieldName "c"])
    = errorAt "e" [FieldName "b"; FieldName "c"]
  ∧ slicedError noLocations noExtensions (errorAt "e" [FieldName "a"]) = errorAt "e" []
  ∧ slicedError noLocations noExtensions (errorWithoutPath "e") = errorWithoutPath "e".
Proof. by repeat split. Qed.

Example getErrors_nothing_attached :
  getErrors {[ 1%positive := sampleObject ]} (JSObject 1) "a" = None
  ∧ getErrors {[ 1%positive := mkObject (properties sampleObject) (Some sampleErrors) ]}
      (JSObject 1) "c" = Some [errorWithoutPath "e2"]
  ∧ getErrors
      {[ 1%positive := mkObject (properties sampleObject) (Some [errorAt "e3" [FieldName "b"]]) ]}
      (JSObject 1) "c" = Some [].
Proof. repeat split. Qed.

(** ** Further properties of errors.ts *)

Section moreFacts.

Context {ASTNode Source SourceLocation OriginalError ExtensionValue : Type}.
Variable getLocations :
  option (list ASTNode) → option Source → option (list N) → option (list SourceLocation).
Variable extensionsOf : OriginalError → option (gmap string ExtensionValue).

Local Abbreviation GraphQLError :=
  (GraphQLError ASTNode Source SourceLocation OriginalError ExtensionValue).
Local Abbreviation ObjectData :=
  (ObjectData ASTNode Source SourceLocation OriginalError ExtensionValue).
Local Abbreviation constructGraphQLError := (constructGraphQLError getLocations extensionsOf).
Local Abbreviation relocatedError := (relocatedError getLocations extensionsOf).
Local Abbreviation slicedError := (slicedError getLocations extensionsOf).
Local Abbreviation getErrorsByPathSegment :=
  (getErrorsByPathSegment getLocations extensionsOf).
Local Abbreviation extendedError := (extendedError getLocations extensionsOf).
Local Abbreviation unextendedError := (unextendedError getLocations extensionsOf).
Local Abbreviation wellConstructed := (wellConstructed extensionsOf).
Local Abbreviation locationsComputed := (locationsComputed getLocations).

Implicit Types (err error : GraphQLError) (errors children : list GraphQLError).
Implicit Types (heap : gmap positive ObjectData).
Implicit Types (key fieldName extensionKey : string).
Implicit Types (originalExtensions newExtensions : gmap string ExtensionValue).

Lemma filter_Forall_id {A} (P : A → Prop) `{∀ x, Decision (P x)} (l : list A) :
  Forall P l → filter P l = l.
Proof.
  induction 1 as [|x l HP Hall IH]; [done|].
  by rewrite filter_cons_True, IH.
Qed.

(** *** relocatedError and slicedError *)

(** The constructor takes over the extensions of the original error once:
    building again from what it built changes nothing but the path. *)
Lemma relocatedError_constructed message' nodes' source' positions' path' originalError'
    extensions' newPath :
  relocatedError
    (constructGraphQLError message' nodes' source' positions' path' originalError'
       extensions')
    newPath
  = constructGraphQLError message' nodes' source' positions'
      (match newPath with
       | PathNull => None
       | PathUndefined => path'
       | PathArray segments => Some segments
       end)
      originalError' extensions'.
Proof.
  unfold Errors.relocatedError, Errors.constructGraphQLError. simpl.
  destruct extensions' as [extensions'|]; [done|].
  by destruct (originalError' ≫= extensionsOf).
Qed.

Lemma slicedError_of_constructed message' nodes' source' positions' path' originalError'
    extensions' :
  slicedError
    (constructGraphQLError message' nodes' source' positions' path' originalError'
       extensions')
  = constructGraphQLError message' nodes' source' positions' (drop 1 <$> path')
      originalError' extensions'.
Proof.
  unfold Errors.slicedError. rewrite relocatedError_constructed.
  by destruct path'.
Qed.

Lemma slicedError_iterated_constructed err n :
  Nat.iter (S n) slicedError err =
  constructGraphQLError (message err) (nodes err) (source err) (positions err)
    (drop (S n) <$> path err) (originalError err) (extensions err).
Proof.
  induction n as [|n IH]; [apply slicedError_constructed|].
  change (Nat.iter (S (S n)) slicedError err)
    with (slicedError (Nat.iter (S n) slicedError err)).
  rewrite IH, slicedError_of_constructed. f_equal.
  destruct (path err) as [segments|]; [|done]. simpl.
  by rewrite drop_drop, Nat.add_1_r.
Qed.

(** Slicing an error [n] times drops the first [n] segments of its path;
    message, nodes, source, positions and originalError stay as they are.
    From the first slice on the error is the one the constructor builds from
    these and the rest of the path.  An error with no path, or with an empty
    one, keeps its path. *)
Theorem slicedError_iterated err n :
  path (Nat.iter n slicedError err) = drop n <$> path err
  ∧ message (Nat.iter n slicedError err) = message err
  ∧ nodes (Nat.iter n slicedError err) = nodes err
  ∧ source (Nat.iter n slicedError err) = source err
  ∧ positions (Nat.iter n slicedError err) = positions err
  ∧ originalError (Nat.iter n slicedError err) = originalError err
  ∧ Nat.iter (S n) slicedError err =
      constructGraphQLError (message err) (nodes err) (source err) (positions err)
        (drop (S n) <$> path err) (originalError err) (extensions err)
  ∧ (path err = None ∨ path err = Some [] → path (slicedError err) = path err).
Proof.
  assert (path (Nat.iter n slicedError err) = drop n <$> path err
          ∧ message (Nat.iter n slicedError err) = message err
          ∧ nodes (Nat.iter n slicedError err) = nodes err
          ∧ source (Nat.iter n slicedError err) = source err
          ∧ positions (Nat.iter n slicedError err) = positions err
          ∧ originalError (Nat.iter n slicedError err) = originalError err)
    as (Hpath & Hmessage & Hnodes & Hsource & Hpositions & Horiginal).
  { destruct n as [|n].
    - simpl. repeat split. destruct (path err); simpl; [by rewrite drop_0 | done].
    - by rewrite slicedError_iterated_constructed. }
  repeat (split; [done|]).
  split; [apply slicedError_iterated_constructed|].
  rewrite slicedError_path. by intros [-> | ->].
Qed.

(** Relocating twice is relocating once: the second path stands, and the
    first only when the second is left out.  Relocating with the path left
    out gives an equal error exactly when the error is as the constructor
    leaves one: its locations are those computed from its nodes, source and
    positions, and it has extensions or its originalError brings none; every
    relocated error is such an error. *)
Theorem relocatedError_composes err firstPath secondPath :
  relocatedError (relocatedError err firstPath) secondPath
  = relocatedError err
      (match secondPath with
       | PathUndefined => firstPath
       | _ => secondPath
       end)
  ∧ (relocatedError err PathUndefined = err
     ↔ wellConstructed err ∧ locationsComputed err)
  ∧ wellConstructed (relocatedError err firstPath)
  ∧ locationsComputed (relocatedError err firstPath).
Proof.
  split; [|split; [|split]].
  - unfold Errors.relocatedError at 2. rewrite relocatedError_constructed.
    by destruct secondPath, firstPath.
  - unfold Errors.wellConstructed, Errors.locationsComputed,
      Errors.relocatedError, Errors.constructGraphQLError.
    destruct err as [message' nodes' source' positions' locations' path' originalError'
                       extensions']; simpl.
    split.
    + intros [= Hlocations Hextensions]. split; [|done].
      intros ->. done.
    + intros [Hwell Hlocations]. rewrite <- Hlocations. f_equal.
      destruct extensions' as [extensions'|]; [done|]. by rewrite Hwell.
  - unfold Errors.wellConstructed, Errors.relocatedError, Errors.constructGraphQLError.
    simpl. by destruct (extensions err).
  - done.
Qed.

(** *** getErrorsByPathSegment *)

Lemma slicedError_head_key error key :
  childKey error = Some key →
  ∃ segment rest,
    path (slicedError error) = Some (segment :: rest) ∧ propertyKey segment = key.
Proof.
  unfold childKey, Errors.slicedError. intros Hkey.
  destruct (path error) as [[|first [|second rest]]|] eqn:Hpath; try discriminate.
  injection Hkey as Hkey. by exists second, rest.
Qed.

Lemma getErrorsByPathSegment_lookup errors key :
  getErrorsByPathSegment errors !! key =
    match filter (λ error, childKey error = Some key) errors with
    | [] => None
    | kept => Some (slicedError <$> kept)
    end.
Proof.
  unfold Errors.getErrorsByPathSegment.
  by rewrite foldl_addErrorByPathSegment_lookup, lookup_empty.
Qed.

(** Nothing is lost: every error whose path has a second segment is found,
    sliced, under the key of that segment.  A key is in the record exactly
    when some error has it as its second segment, so the record is empty
    exactly when no path has two segments. *)
Theorem getErrorsByPathSegment_keeps_every_child errors :
  (∀ error key,
     error ∈ errors → childKey error = Some key →
     ∃ children,
       getErrorsByPathSegment errors !! key = Some children
       ∧ slicedError error ∈ children)
  ∧ (∀ key,
       is_Some (getErrorsByPathSegment errors !! key) ↔
       ∃ error, error ∈ errors ∧ childKey error = Some key)
  ∧ (getErrorsByPathSegment errors = ∅ ↔
     Forall (λ error, childKey error = None) errors).
Proof.
  assert (∀ error key,
            error ∈ errors → childKey error = Some key →
            ∃ children,
              getErrorsByPathSegment errors !! key = Some children
              ∧ slicedError error ∈ children) as Hkept.
  { intros error key Hin Hkey. rewrite getErrorsByPathSegment_lookup.
    assert (error ∈ filter (λ error, childKey error = Some key) errors) as Hfiltered
      by by apply list_elem_of_filter.
    destruct (filter _ errors) as [|kept rest] eqn:Hfilter.
    - by apply not_elem_of_nil in Hfiltered.
    - eexists. split; [done|]. by apply list_elem_of_fmap_2. }
  assert (∀ key,
            is_Some (getErrorsByPathSegment errors !! key) ↔
            ∃ error, error ∈ errors ∧ childKey error = Some key) as Hkeys.
  { intros key. split.
    - rewrite getErrorsByPathSegment_lookup.
      destruct (filter _ errors) as [|kept rest] eqn:Hfilter; [by intros [? ?]|].
      intros _.
      assert (kept ∈ filter (λ error, childKey error = Some key) errors) as Hin
        by (rewrite Hfilter; by left).
      apply list_elem_of_filter in Hin as [Hkey Hin]. by exists kept.
    - intros (error & Hin & Hkey).
      destruct (Hkept error key Hin Hkey) as (children & -> & _). by eexists. }
  split; [done|]. split; [done|].
  split.
  - intros Hempty. apply Forall_forall. intros error Hin.
    destruct (childKey error) as [key|] eqn:Hkey; [|done].
    destruct (Hkept error key Hin Hkey) as (children & Hlookup & _).
    rewrite Hempty, lookup_empty in Hlookup. discriminate.
  - intros Hnone. apply map_eq. intros key. rewrite lookup_empty.
    apply eq_None_not_Some. rewrite Hkeys. intros (error & Hin & Hkey).
    rewrite Forall_forall in Hnone. rewrite (Hnone error Hin) in Hkey. discriminate.
Qed.

(** Nothing is made up: a list in the record is never empty, and each error
    in the list under a key is the slice of an input error that has the key
    as its second segment, so its own path starts with a segment of that
    key. *)
Theorem getErrorsByPathSegment_children errors key children :
  getErrorsByPathSegment errors !! key = Some children →
  children ≠ []
  ∧ ∀ child,
      child ∈ children →
      (∃ error,
         error ∈ errors ∧ childKey error = Some key ∧ child = slicedError error)
      ∧ ∃ segment rest,
          path child = Some (segment :: rest) ∧ propertyKey segment = key.
Proof.
  rewrite getErrorsByPathSegment_lookup.
  destruct (filter _ errors) as [|kept rest] eqn:Hfilter; [discriminate|].
  intros [= <-]. split; [done|].
  intros child Hin. change (child ∈ slicedError <$> (kept :: rest)) in Hin.
  apply list_elem_of_fmap in Hin as (error & -> & Hin).
  rewrite <- Hfilter in Hin. apply list_elem_of_filter in Hin as [Hkey Hin].
  split; [by exists error|]. by apply slicedError_head_key.
Qed.

(** Grouping a concatenation of two error lists gives, under each key, the
    group of the first list followed by the group of the second. *)
Theorem getErrorsByPathSegment_app errors1 errors2 key :
  getErrorsByPathSegment (errors1 ++ errors2) !! key
  = union_with (λ children1 children2, Some (children1 ++ children2))
      (getErrorsByPathSegment errors1 !! key) (getErrorsByPathSegment errors2 !! key).
Proof.
  rewrite !getErrorsByPathSegment_lookup, filter_app.
  destruct (filter _ errors1) as [|kept1 rest1], (filter _ errors2) as [|kept2 rest2];
    simpl; try done.
  - by rewrite app_nil_r.
  - by rewrite fmap_app.
Qed.

(** *** setErrors and getErrors *)

Lemma getErrors_attached heap ref object errors fieldName :
  heap !! ref = Some object →
  subschemaErrors object = Some errors →
  getErrors heap (JSObject ref) fieldName =
    Some (filter (appliesToField fieldName) errors).
Proof.
  intros Hobject Herrors. unfold getErrors. rewrite Hobject. simpl.
  by rewrite Herrors, filter_errorMatchesSegment.
Qed.

(** Errors grouped under a child key and attached to the child are retrieved
    under that key only: for any other field name [getErrors] returns the
    empty list; and when every second segment is a field name, asking for
    the key returns all of them. *)
Theorem grouped_errors_retrieved_by_key heap ref object errors key children :
  getErrorsByPathSegment errors !! key = Some children →
  heap !! ref = Some object →
  ∃ heap',
    setErrors heap (JSObject ref) children = Some heap'
    ∧ (∀ fieldName,
         fieldName ≠ key → getErrors heap' (JSObject ref) fieldName = Some [])
    ∧ (Forall (λ error,
                 ∀ first i rest, path error ≠ Some (first :: Index i :: rest)) errors →
       getErrors heap' (JSObject ref) key = Some children).
Proof.
  intros Hchildren Hobject.
  assert (∀ child, child ∈ children →
            ∃ error segment rest,
              error ∈ errors ∧ childKey error = Some key
              ∧ child = slicedError error
              ∧ path child = Some (segment :: rest) ∧ propertyKey segment = key)
    as Hchild.
  { intros child Hin. revert Hchildren. rewrite getErrorsByPathSegment_lookup.
    destruct (filter _ errors) as [|kept rest] eqn:Hfilter; [discriminate|].
    intros [= <-]. change (child ∈ slicedError <$> (kept :: rest)) in Hin.
    apply list_elem_of_fmap in Hin as (error & -> & Hin).
    rewrite <- Hfilter in Hin. apply list_elem_of_filter in Hin as [Hkey Hin].
    destruct (slicedError_head_key error key Hkey) as (segment & rest' & Hpath & Hseg).
    by exists error, segment, rest'. }
  unfold setErrors. rewrite Hobject. simpl. eexists. split; [done|].
  split.
  - intros fieldName Hne.
    rewrite (getErrors_attached _ ref (mkObject (properties object) (Some children))
               children fieldName) by (by rewrite ?lookup_insert_eq).
    f_equal. apply filter_nil_Forall_not, Forall_forall. intros child Hin.
    destruct (Hchild child Hin) as (_ & segment & rest & _ & _ & _ & Hpath & Hseg).
    intros [Hnone|[rest' Hhead]]; [congruence|].
    rewrite Hpath in Hhead. injection Hhead as -> _. simpl in Hseg. congruence.
  - intros Hnames.
    rewrite (getErrors_attached _ ref (mkObject (properties object) (Some children))
               children key) by (by rewrite ?lookup_insert_eq).
    f_equal. apply filter_Forall_id, Forall_forall. intros child Hin.
    destruct (Hchild child Hin) as (error & segment & rest & Hin' & Hkey & -> & Hpath & Hseg).
    right. exists rest. rewrite Hpath. do 2 f_equal.
    destruct segment as [name|i]; [simpl in Hseg; by subst|].
    exfalso. rewrite Forall_forall in Hnames.
    unfold Errors.slicedError in Hpath. unfold childKey in Hkey.
    destruct (path error) as [[|first [|second rest']]|] eqn:Herror; try discriminate.
    simpl in Hpath. injection Hpath as -> ->.
    by apply (Hnames error Hin' first i rest).
Qed.

(** A second [setErrors] on an object replaces the list the first attached:
    the heap is the one the second call alone would leave; and attaching to
    one object changes what [getErrors] returns for no other value. *)
Theorem setErrors_last_write_wins heap ref object errors1 errors2 :
  heap !! ref = Some object →
  ∃ heap1 heap2,
    setErrors heap (JSObject ref) errors1 = Some heap1
    ∧ setErrors heap1 (JSObject ref) errors2 = Some heap2
    ∧ setErrors heap (JSObject ref) errors2 = Some heap2
    ∧ ∀ other fieldName,
        other ≠ JSObject ref →
        getErrors heap1 other fieldName = getErrors heap other fieldName.
Proof.
  intros Hobject. unfold setErrors. rewrite Hobject. simpl.
  eexists _, _. split; [done|]. rewrite lookup_insert_eq. simpl.
  split; [done|]. split; [by rewrite insert_insert_eq|].
  intros other fieldName Hne. unfold getErrors.
  destruct other as [| | | | |ref']; try done.
  rewrite lookup_insert_ne; [done | congruence].
Qed.

(** [getErrors] returns a list only for an object with a list attached, and
    then for every field name.  What it returns is a sublist of the attached
    list, in its order; an error that has a path is returned for one field
    name at most; and when no attached error has a path the whole attached
    list is returned. *)
Theorem getErrors_by_field heap result fieldName errors :
  getErrors heap result fieldName = Some errors →
  ∃ ref object attached,
    result = JSObject ref
    ∧ heap !! ref = Some object
    ∧ subschemaErrors object = Some attached
    ∧ (∀ otherName, is_Some (getErrors heap result otherName))
    ∧ errors `sublist_of` attached
    ∧ (∀ otherName others error,
         otherName ≠ fieldName →
         getErrors heap result otherName = Some others →
         error ∈ errors → error ∈ others → path error = None)
    ∧ (Forall (λ error, path error = None) attached → errors = attached).
Proof.
  unfold getErrors.
  destruct result as [| | | | |ref]; try discriminate.
  destruct (heap !! ref) as [object|] eqn:Hobject; [|discriminate]. simpl.
  destruct (subschemaErrors object) as [attached|] eqn:Hattached; [|discriminate].
  rewrite filter_errorMatchesSegment. intros [= <-].
  exists ref, object, attached. split; [done|]. split; [done|]. split; [done|].
  split; [by eexists|].
  split; [apply sublist_filter|]. split.
  - intros otherName others error Hne. rewrite filter_errorMatchesSegment.
    intros [= <-] [Hfield _]%list_elem_of_filter [Hother _]%list_elem_of_filter.
    destruct Hfield as [Hnone|[rest Hfield]]; [done|].
    destruct Hother as [Hnone|[rest' Hother]]; [done|]. congruence.
  - intros Hnone. apply filter_Forall_id. eapply Forall_impl; [done|].
    intros error Hpath. by left.
Qed.

(** *** extendedError and unextendedError *)

Lemma copyExtensionsExcept_spec extensionKey originalExtensions :
  (copyExtensionsExcept extensionKey originalExtensions).1
    = delete extensionKey originalExtensions
  ∧ ((copyExtensionsExcept extensionKey originalExtensions).2 = true
     ↔ delete extensionKey originalExtensions ≠ ∅).
Proof.
  unfold copyExtensionsExcept.
  apply (map_fold_weak_ind
    (λ (copied : gmap string ExtensionValue * bool) (seen : gmap string ExtensionValue),
       copied.1 = delete extensionKey seen
       ∧ (copied.2 = true ↔ delete extensionKey seen ≠ ∅))).
  - rewrite delete_empty. split; [done|]. split; [discriminate | done].
  - intros key value seen [newExtensions extensionsPresent] Hfresh [Hcopy Hpresent].
    simpl in *. case_decide as Hkey; simpl.
    + rewrite delete_insert_ne by done. subst newExtensions. split; [done|].
      split; [intros _; apply insert_non_empty | done].
    + subst key.
      rewrite delete_insert_eq, (delete_id seen extensionKey) in * by done. done.
Qed.

Lemma unextendedError_unfold err extensionKey :
  unextendedError err extensionKey =
    match extensions err with
    | None => err
    | Some originalExtensions =>
      if decide (size originalExtensions = 0%nat) then err
      else
        constructGraphQLError
          (message err) (nodes err) (source err) (positions err) (path err)
          (originalError err)
          (if decide (size (delete extensionKey originalExtensions) = 0%nat)
           then None
           else Some (delete extensionKey originalExtensions))
    end.
Proof.
  unfold Errors.unextendedError.
  destruct (extensions err) as [originalExtensions|]; [|done].
  case_decide; [done|].
  destruct (copyExtensionsExcept_spec extensionKey originalExtensions) as [Hcopy Hpresent].
  destruct (copyExtensionsExcept extensionKey originalExtensions)
    as [newExtensions extensionsPresent].
  simpl in *. subst newExtensions.
  rewrite <- map_size_non_empty_iff in Hpresent.
  destruct extensionsPresent; case_decide; try done.
  - exfalso. by apply Hpresent.
  - exfalso. assert (false = true) by by apply Hpresent. discriminate.
Qed.

(** [unextendedError] returns the error itself when it has no extensions or
    an empty extensions object.  Otherwise the new error has the original
    extensions without the key when some other key is left; when the key was
    the only one it is built with no extensions, so it has those the
    constructor takes over from [originalError], if any.  Nothing but the
    extensions changes. *)
Theorem unextendedError_extensions err extensionKey :
  (extensions err = None ∨ extensions err = Some ∅ →
   unextendedError err extensionKey = err)
  ∧ (∀ originalExtensions,
       extensions err = Some originalExtensions →
       delete extensionKey originalExtensions ≠ ∅ →
       extensions (unextendedError err extensionKey)
         = Some (delete extensionKey originalExtensions))
  ∧ (∀ originalExtensions,
       extensions err = Some originalExtensions →
       originalExtensions ≠ ∅ →
       delete extensionKey originalExtensions = ∅ →
       extensions (unextendedError err extensionKey)
         = originalError err ≫= extensionsOf)
  ∧ message (unextendedError err extensionKey) = message err
  ∧ nodes (unextendedError err extensionKey) = nodes err
  ∧ source (unextendedError err extensionKey) = source err
  ∧ positions (unextendedError err extensionKey) = positions err
  ∧ path (unextendedError err extensionKey) = path err
  ∧ originalError (unextendedError err extensionKey) = originalError err.
Proof.
  rewrite unextendedError_unfold.
  split; [|split; [|split]].
  - intros [->| ->]; [done|]. by rewrite map_size_empty.
  - intros originalExtensions -> Hleft.
    assert (originalExtensions ≠ ∅) as Hne by (intros ->; by rewrite delete_empty in Hleft).
    rewrite <- map_size_non_empty_iff in Hne, Hleft.
    by rewrite !decide_False by done.
  - intros originalExtensions -> Hne Hnone.
    rewrite <- map_size_non_empty_iff in Hne. rewrite <- map_size_empty_iff in Hnone.
    by rewrite decide_False, decide_True by done.
  - destruct (extensions err) as [originalExtensions|]; [|done].
    by case_decide.
Qed.

(** When the extensions of the original error, if it has any, do not hold
    the key, the extensions of the result never hold it, and stripping the
    key a second time changes nothing. *)
Theorem unextendedError_removes_key err extensionKey :
  (∀ inherited,
     originalError err ≫= extensionsOf = Some inherited →
     inherited !! extensionKey = None) →
  (∀ newExtensions,
     extensions (unextendedError err extensionKey) = Some newExtensions →
     newExtensions !! extensionKey = None)
  ∧ unextendedError (unextendedError err extensionKey)
      extensionKey
    = unextendedError err extensionKey.
Proof.
  intros Hinherited.
  rewrite (unextendedError_unfold err).
  destruct (extensions err) as [originalExtensions|] eqn:Hextensions.
  - case_decide as Hsize.
    + split.
      * rewrite Hextensions. intros newExtensions [= <-].
        apply map_size_empty_iff in Hsize. by rewrite Hsize.
      * by rewrite unextendedError_unfold, Hextensions, decide_True.
    + case_decide as Hleft.
      * unfold Errors.constructGraphQLError. simpl. split; [done|].
        rewrite unextendedError_unfold. simpl.
        destruct (originalError err ≫= extensionsOf) as [inherited|] eqn:Hfallback;
          [|done].
        case_decide as Hempty; [done|].
        unfold Errors.constructGraphQLError. simpl. rewrite Hfallback.
        rewrite (delete_id inherited) by by apply Hinherited.
        by rewrite decide_False.
      * unfold Errors.constructGraphQLError. simpl. split.
        -- intros newExtensions [= <-]. apply lookup_delete_eq.
        -- rewrite unextendedError_unfold. simpl.
           rewrite decide_False by done.
           unfold Errors.constructGraphQLError. simpl.
           rewrite delete_delete_eq. by rewrite decide_False.
  - split.
    + rewrite Hextensions. discriminate.
    + by rewrite unextendedError_unfold, Hextensions.
Qed.

(** Extending an error by a set of extensions plus one more key and then
    stripping that key gives the error extended by the set alone, when the
    set is not empty; when it is empty, the result is the error with the
    extensions the constructor takes over from [originalError], and it is the
    error itself when that had no extensions and its locations are those the
    constructor computes. *)
Theorem unextendedError_extendedError err extensionKey value newExtensions :
  newExtensions !! extensionKey = None →
  (newExtensions ≠ ∅ →
   unextendedError
     (extendedError err (<[extensionKey := value]> newExtensions))
     extensionKey
   = extendedError err newExtensions)
  ∧ (newExtensions = ∅ →
     unextendedError
       (extendedError err (<[extensionKey := value]> newExtensions))
       extensionKey
     = new_GraphQLError (message err) (nodes err) (source err) (positions err)
         (getLocations (nodes err) (source err) (positions err))
         (path err) (originalError err) (originalError err ≫= extensionsOf))
  ∧ (newExtensions = ∅ → extensions err = None → wellConstructed err →
     locationsComputed err →
     unextendedError
       (extendedError err (<[extensionKey := value]> newExtensions))
       extensionKey
     = err).
Proof.
  intros Hfresh.
  rewrite unextendedError_unfold. unfold Errors.extendedError. simpl.
  rewrite decide_False
    by (apply map_size_non_empty_iff, insert_non_empty).
  rewrite delete_insert_eq, (delete_id newExtensions) by done.
  split; [|split].
  - intros Hne. rewrite <- map_size_non_empty_iff in Hne.
    by rewrite decide_False.
  - intros ->. by rewrite decide_True by apply map_size_empty.
  - intros -> Hnone Hwell Hlocations. rewrite decide_True by apply map_size_empty.
    unfold Errors.constructGraphQLError. rewrite (Hwell Hnone), <- Hlocations.
    destruct err; simpl in *. by subst.
Qed.

End moreFacts.

(** ** The further properties at concrete errors *)

Definition groupedSample : list (GraphQLError unit unit unit unit unit) :=
  [errorAt "e1" [FieldName "users"; FieldName "name"];
   errorAt "e2" [FieldName "users"];
   errorAt "e3" [FieldName "users"; FieldName "id"; Index 0];
   errorAt "e4" [FieldName "users"; FieldName "name"; Index 3]].

Lemma getErrorsByPathSegment_children_witness :
  [errorAt "e1" [FieldName "name"]; errorAt "e4" [FieldName "name"; Index 3]] ≠ []
  ∧ ∀ child,
      child ∈ [errorAt "e1" [FieldName "name"]; errorAt "e4" [FieldName "name"; Index 3]] →
      (∃ error,
         error ∈ groupedSample ∧ childKey error = Some "name"
         ∧ child = slicedError noLocations noExtensions error)
      ∧ ∃ segment rest,
          path child = Some (segment :: rest) ∧ propertyKey segment = "name".
Proof.
  apply (getErrorsByPathSegment_children noLocations noExtensions groupedSample "name").
  vm_compute. reflexivity.
Defined.

Lemma grouped_errors_retrieved_by_key_witness :
  ∃ heap',
    setErrors {[ 1%positive := sampleObject ]} (JSObject 1)
      [errorAt "e1" [FieldName "name"]; errorAt "e4" [FieldName "name"; Index 3]]
      = Some heap'
    ∧ (∀ fieldName,
         fieldName ≠ "name" → getErrors heap' (JSObject 1) fieldName = Some [])
    ∧ (Forall (λ error,
                 ∀ first i rest, path error ≠ Some (first :: Index i :: rest))
              groupedSample →
       getErrors heap' (JSObject 1) "name"
       = Some [errorAt "e1" [FieldName "name"];
               errorAt "e4" [FieldName "name"; Index 3]]).
Proof.
  apply (grouped_errors_retrieved_by_key noLocations noExtensions
           {[ 1%positive := sampleObject ]} 1%positive sampleObject groupedSample "name").
  - vm_compute. reflexivity.
  - reflexivity.
Defined.

Lemma setErrors_last_write_wins_witness :
  ∃ heap1 heap2,
    setErrors {[ 1%positive := sampleObject ]} (JSObject 1) sampleErrors = Some heap1
    ∧ setErrors heap1 (JSObject 1) groupedSample = Some heap2
    ∧ setErrors {[ 1%positive := sampleObject ]} (JSObject 1) groupedSample = Some heap2
    ∧ ∀ other fieldName,
        other ≠ JSObject 1 →
        getErrors heap1 other fieldName
        = getErrors {[ 1%positive := sampleObject ]} other fieldName.
Proof.
  apply (setErrors_last_write_wins {[ 1%positive := sampleObject ]} 1%positive
           sampleObject sampleErrors groupedSample).
  reflexivity.
Defined.

Lemma getErrors_by_field_witness :
  ∃ ref object attached,
    JSObject 1 = JSObject ref
    ∧ ({[ 1%positive := mkObject (properties sampleObject) (Some sampleErrors) ]}
         : gmap positive _) !! ref = Some object
    ∧ subschemaErrors object = Some attached
    ∧ (∀ otherName,
         is_Some (getErrors
                    {[ 1%positive := mkObject (properties sampleObject) (Some sampleErrors) ]}
                    (JSObject 1) otherName))
    ∧ [errorAt "e1" [FieldName "a"; Index 0]; errorWithoutPath "e2"] `sublist_of` attached
    ∧ (∀ otherName others error,
         otherName ≠ "a" →
         getErrors {[ 1%positive := mkObject (properties sampleObject) (Some sampleErrors) ]}
           (JSObject 1) otherName = Some others →
         error ∈ [errorAt "e1" [FieldName "a"; Index 0]; errorWithoutPath "e2"] →
         error ∈ others → path error = None)
    ∧ (Forall (λ error, path error = None) attached →
       [errorAt "e1" [FieldName "a"; Index 0]; errorWithoutPath "e2"] = attached).
Proof.
  apply (getErrors_by_field
           {[ 1%positive := mkObject (properties sampleObject) (Some sampleErrors) ]}
           (JSObject 1) "a").
  reflexivity.
Defined.

Lemma unextendedError_removes_key_witness :
  (∀ newExtensions,
     extensions
       (unextendedError noLocations sampleExtensionsOf
          (errorWithExtensions (Some {[ "code" := 1%nat; "retry" := 2%nat ]})
             (Some (Some {[ "retry" := 5%nat ]})))
          "code")
     = Some newExtensions →
     newExtensions !! "code" = None)
  ∧ unextendedError noLocations sampleExtensionsOf
      (unextendedError noLocations sampleExtensionsOf
         (errorWithExtensions (Some {[ "code" := 1%nat; "retry" := 2%nat ]})
            (Some (Some {[ "retry" := 5%nat ]})))
         "code")
      "code"
    = unextendedError noLocations sampleExtensionsOf
        (errorWithExtensions (Some {[ "code" := 1%nat; "retry" := 2%nat ]})
           (Some (Some {[ "retry" := 5%nat ]})))
        "code".
Proof.
  apply (unextendedError_removes_key noLocations sampleExtensionsOf).
  intros inherited [= <-]. reflexivity.
Defined.

Lemma unextendedError_extendedError_witness :
  unextendedError noLocations sampleExtensionsOf
    (extendedError noLocations sampleExtensionsOf (errorWithExtensions None None)
       (<[ "code" := 1%nat ]> {[ "retry" := 2%nat ]}))
    "code"
  = extendedError noLocations sampleExtensionsOf (errorWithExtensions None None) {[ "retry" := 2%nat ]}.
Proof.
  destruct (unextendedError_extendedError noLocations sampleExtensionsOf
              (errorWithExtensions None None) "code" 1%nat {[ "retry" := 2%nat ]})
    as (Hkept & _).
  - reflexivity.
  - apply Hkept. intros Hempty.
    apply (f_equal (λ extensions, extensions !! "retry")) in Hempty.
    vm_compute in Hempty. discriminate.
Defined.

(** Stripping the only key of an error whose original error has extensions
    of its own brings those back, the stripped key included. *)
Example unextendedError_takes_over_original_extensions :
  extensions
    (unextendedError noLocations sampleExtensionsOf
       (errorWithExtensions (Some {[ "code" := 1%nat ]})
          (Some (Some {[ "code" := 7%nat ]})))
       "code")
  = Some {[ "code" := 7%nat ]}.
Proof. vm_compute. reflexivity. Qed.

End ErrorsFacts.

(* ===================================================================== *)
(** * Properties of typeCandidates.ts *)
(* ===================================================================== *)

Module TypeCandidatesFacts.
Import TypeCandidates.

(** ** setOperationTypeNames *)

Lemma operationKey_inj operation1 operation2 :
  operationKey operation1 = operationKey operation2 → operation1 = operation2.
Proof. by destruct operation1, operation2. Qed.

Lemma lastNameFor_app operation' operationTypes1 operationTypes2 :
  lastNameFor operation' (operationTypes1 ++ operationTypes2) =
    match lastNameFor operation' operationTypes2 with
    | Some name => Some name
    | None => lastNameFor operation' operationTypes1
    end.
Proof.
  unfold lastNameFor. rewrite filter_app, last_app.
  by destruct (last (filter _ operationTypes2)).
Qed.

Lemma foldl_insert_operationTypes operationTypes (names : gmap string string) operation' :
  foldl (λ names operationType,
           <[operationKey (operation operationType) := typeName operationType]> names)
        names operationTypes !! operationKey operation' =
    match lastNameFor operation' operationTypes with
    | Some name => Some name
    | None => names !! operationKey operation'
    end.
Proof.
  induction operationTypes as [|operationType operationTypes IH] using rev_ind; [done|].
  rewrite foldl_snoc, lastNameFor_app.
  destruct (decide (operation operationType = operation')) as [<-|Hne].
  - rewrite lookup_insert_eq. unfold lastNameFor.
    by rewrite filter_cons_True.
  - rewrite lookup_insert_ne by (intros Hkey; by apply operationKey_inj in Hkey).
    unfold lastNameFor at 1. by rewrite filter_cons_False.
Qed.

Lemma recordOperationTypes_foldl (names : gmap string string) node :
  recordOperationTypes names node =
    foldl (λ names operationType,
             <[operationKey (operation operationType) := typeName operationType]> names)
          names (default [] (operationTypes node)).
Proof. unfold recordOperationTypes. by destruct (operationTypes node). Qed.

Lemma foldl_recordOperationTypes nodes (names : gmap string string) :
  foldl recordOperationTypes names nodes =
    foldl (λ names operationType,
             <[operationKey (operation operationType) := typeName operationType]> names)
          names (mjoin ((λ node, default [] (operationTypes node)) <$> nodes)).
Proof.
  revert names. induction nodes as [|node nodes IH]; intros names; [done|].
  simpl. by rewrite foldl_app, IH, recordOperationTypes_foldl.
Qed.

(** C3 (as the code has it): the name recorded for an operation is the one
    given by the last extension node entry for it; only when no extension node
    names the operation is it the one given by the last entry of the
    definition node; and when no node names it, the name recorded before the
    call stays. *)
Theorem setOperationTypeNames_spec schemaDef schemaExtensions
    (operationTypeNames : gmap string string) operation' :
  setOperationTypeNames schemaDef schemaExtensions operationTypeNames
    !! operationKey operation' =
    match lastNameFor operation' (extensionAssignments schemaExtensions) with
    | Some name => Some name
    | None =>
      match lastNameFor operation' (definitionAssignments schemaDef) with
      | Some name => Some name
      | None => operationTypeNames !! operationKey operation'
      end
    end.
Proof.
  unfold setOperationTypeNames.
  rewrite foldl_recordOperationTypes, foldl_insert_operationTypes.
  assert (mjoin ((λ node, default [] (operationTypes node)) <$>
                 (ExtensionNode <$> schemaExtensions))
          = extensionAssignments schemaExtensions) as Hexts.
  { unfold extensionAssignments. by rewrite <- list_fmap_compose. }
  destruct schemaDef as [schemaDef|].
  - rewrite fmap_cons.
    change (mjoin (?first :: ?rest)) with (first ++ mjoin rest).
    rewrite Hexts, lastNameFor_app.
    by destruct (lastNameFor operation' (extensionAssignments schemaExtensions)).
  - rewrite Hexts.
    by destruct (lastNameFor operation' (extensionAssignments schemaExtensions)).
Qed.

(** C3, as stated, fails: when the definition node names [QueryFromDefinition]
    for [query] and an extension node names [QueryFromExtension], the
    extension's name is the one recorded. *)
Lemma setOperationTypeNames_extension_wins :
  setOperationTypeNames
    (Some (mkSchemaDefinition (Some [mkOperationType OpQuery "QueryFromDefinition"])))
    [mkSchemaExtension (Some [mkOperationType OpQuery "QueryFromExtension"])]
    {[ "query" := "Query"; "mutation" := "Mutation"; "subscription" := "Subscription" ]}
  !! "query" = Some "QueryFromExtension"
  ∧ setOperationTypeNames
      (Some (mkSchemaDefinition (Some [mkOperationType OpQuery "QueryFromDefinition"])))
      [mkSchemaExtension (Some [mkOperationType OpQuery "QueryFromExtension"])]
      {[ "query" := "Query"; "mutation" := "Mutation"; "subscription" := "Subscription" ]}
    !! "query" ≠ Some "QueryFromDefinition".
Proof. split; [reflexivity | discriminate]. Qed.

(** ** buildTypeMap *)

Section buildTypeMapFacts.

Context {GraphQLNamedType GraphQLSchema SubschemaConfig : Type}.
Context {MergedTypeInfo TypeMergingOptions : Type}.
Context `{EqDecision GraphQLNamedType}.
Variable isSpecifiedScalarType : GraphQLNamedType → bool.
Variable mergeCandidates :
  string → list (MergeTypeCandidate GraphQLNamedType GraphQLSchema SubschemaConfig)
  → TypeMergingOptions → GraphQLNamedType.

Local Abbreviation Candidate :=
  (MergeTypeCandidate GraphQLNamedType GraphQLSchema SubschemaConfig).
Local Abbreviation mergesCandidates := (mergesCandidates isSpecifiedScalarType).
Local Abbreviation composeType := (composeType isSpecifiedScalarType mergeCandidates).
Local Abbreviation buildTypeMap := (buildTypeMap isSpecifiedScalarType mergeCandidates).

Implicit Types (cands : list Candidate) (typeCandidates : gmap string (list Candidate)).
Implicit Types (stitchingInfo : option (StitchingInfo MergedTypeInfo)).
Implicit Types (operationTypeNames : gmap string string).
Implicit Types (onTypeConflict : option (OnTypeConflict GraphQLNamedType GraphQLSchema)).
Implicit Types (mergeTypes : MergeTypes GraphQLNamedType GraphQLSchema SubschemaConfig).
Implicit Types (typeMergingOptions : TypeMergingOptions).
Implicit Types (typeMap : gmap string GraphQLNamedType) (typeName : string).

Lemma lastCandidate_last cands : lastCandidate cands = last cands.
Proof. unfold lastCandidate. by rewrite last_lookup, Nat.sub_1_r. Qed.

Lemma candidateSelector_nonempty onTypeConflict cands :
  cands ≠ [] → is_Some (candidateSelector onTypeConflict cands).
Proof.
  intros Hne. destruct cands as [|first rest]; [done|].
  destruct onTypeConflict as [onTypeConflict|]; simpl.
  - by eexists.
  - rewrite lastCandidate_last. destruct (last_is_Some (first :: rest)) as [_ Hsome].
    by apply Hsome.
Qed.

Lemma composeType_unfold stitchingInfo operationTypeNames onTypeConflict mergeTypes
    typeMergingOptions typeName cands :
  composeType stitchingInfo operationTypeNames onTypeConflict mergeTypes
    typeMergingOptions typeName cands =
  if mergesCandidates stitchingInfo operationTypeNames mergeTypes typeName cands
  then Some (mergeCandidates typeName cands typeMergingOptions)
  else type <$> candidateSelector onTypeConflict cands.
Proof. unfold TypeCandidates.composeType. by destruct onTypeConflict. Qed.

Lemma composeType_nonempty stitchingInfo operationTypeNames onTypeConflict mergeTypes
    typeMergingOptions typeName cands :
  cands ≠ [] →
  is_Some (composeType stitchingInfo operationTypeNames onTypeConflict mergeTypes
             typeMergingOptions typeName cands).
Proof.
  intros Hne. rewrite composeType_unfold.
  destruct (mergesCandidates _ _ _ _ _); [by eexists|].
  destruct (candidateSelector_nonempty onTypeConflict cands Hne) as [winner ->].
  by eexists.
Qed.

(** What the [forEach] of [buildTypeMap] leaves: every key of
    [typeCandidates] has the type composed for it, or some round threw. *)
Lemma buildTypeMap_invariant typeCandidates stitchingInfo operationTypeNames
    onTypeConflict mergeTypes typeMergingOptions :
  match buildTypeMap typeCandidates stitchingInfo operationTypeNames onTypeConflict
          mergeTypes typeMergingOptions with
  | Some typeMap =>
    ∀ typeName,
      typeMap !! typeName =
      typeCandidates !! typeName ≫=
        composeType stitchingInfo operationTypeNames onTypeConflict mergeTypes
          typeMergingOptions typeName
  | None =>
    ∃ typeName cands,
      typeCandidates !! typeName = Some cands
      ∧ composeType stitchingInfo operationTypeNames onTypeConflict mergeTypes
          typeMergingOptions typeName cands = None
  end.
Proof.
  unfold TypeCandidates.buildTypeMap.
  apply (map_fold_weak_ind
    (λ (result : option (gmap string GraphQLNamedType)) (seen : gmap string (list Candidate)),
       match result with
       | Some typeMap =>
         ∀ typeName,
           typeMap !! typeName =
           seen !! typeName ≫=
             composeType stitchingInfo operationTypeNames onTypeConflict mergeTypes
               typeMergingOptions typeName
       | None =>
         ∃ typeName cands,
           seen !! typeName = Some cands
           ∧ composeType stitchingInfo operationTypeNames onTypeConflict mergeTypes
               typeMergingOptions typeName cands = None
       end)).
  - intros typeName. by rewrite !lookup_empty.
  - intros name cands seen result Hfresh IH.
    destruct result as [typeMap|]; simpl.
    + destruct (composeType _ _ _ _ _ name cands) as [composite|] eqn:Hcompose; simpl.
      * intros typeName. destruct (decide (name = typeName)) as [<-|Hne].
        -- by rewrite !lookup_insert_eq.
        -- by rewrite !lookup_insert_ne.
      * exists name, cands. by rewrite lookup_insert_eq.
    + destruct IH as (typeName & cands' & Hin & Hnone).
      exists typeName, cands'. split; [|done].
      rewrite lookup_insert_ne; [done | congruence].
Qed.

Lemma buildTypeMap_lookup typeCandidates stitchingInfo operationTypeNames
    onTypeConflict mergeTypes typeMergingOptions typeMap typeName :
  buildTypeMap typeCandidates stitchingInfo operationTypeNames onTypeConflict
    mergeTypes typeMergingOptions = Some typeMap →
  typeMap !! typeName =
  typeCandidates !! typeName ≫=
    composeType stitchingInfo operationTypeNames onTypeConflict mergeTypes
      typeMergingOptions typeName.
Proof.
  intros Hbuild.
  pose proof (buildTypeMap_invariant typeCandidates stitchingInfo operationTypeNames
                onTypeConflict mergeTypes typeMergingOptions) as Hinv.
  rewrite Hbuild in Hinv. apply Hinv.
Qed.

Lemma buildTypeMap_returns typeCandidates stitchingInfo operationTypeNames
    onTypeConflict mergeTypes typeMergingOptions :
  (∀ typeName cands, typeCandidates !! typeName = Some cands → cands ≠ []) →
  is_Some (buildTypeMap typeCandidates stitchingInfo operationTypeNames onTypeConflict
             mergeTypes typeMergingOptions).
Proof.
  intros Hnonempty.
  pose proof (buildTypeMap_invariant typeCandidates stitchingInfo operationTypeNames
                onTypeConflict mergeTypes typeMergingOptions) as Hinv.
  destruct (buildTypeMap _ _ _ _ _ _) as [typeMap|]; [by eexists|].
  destruct Hinv as (typeName & cands & Hin & Hnone).
  destruct (composeType_nonempty stitchingInfo operationTypeNames onTypeConflict
              mergeTypes typeMergingOptions typeName cands (Hnonempty _ _ Hin))
    as [composite Hsome].
  congruence.
Qed.

(** *** The conflict selector *)

(** C6: the selector folds the candidates from the left.  It throws on an
    empty list and returns the only candidate of a one-element list without
    calling the callback.  Appending [next] to a list selected down to [prev]
    calls the callback once, on the two types and the two transformed
    schemas: when it returns the type of [prev], [prev] stays; otherwise, when
    it returns the type of [next], [next] takes over; otherwise the
    accumulator becomes a candidate of the returned type named [unknown], with
    no subschema and no transformed schema, which is the [prev] of the
    comparison after it. *)
Theorem onTypeConflictToCandidateSelector_spec
    (onTypeConflict : OnTypeConflict GraphQLNamedType GraphQLSchema) :
  onTypeConflictToCandidateSelector onTypeConflict ([] : list Candidate) = None
  ∧ (∀ candidate : Candidate,
       onTypeConflictToCandidateSelector onTypeConflict [candidate] = Some candidate)
  ∧ (∀ cands (prev next : Candidate),
       onTypeConflictToCandidateSelector onTypeConflict cands = Some prev →
       let winner :=
         onTypeConflict (type prev) (type next)
           (mkConflictInfo (transformedSchema prev) (transformedSchema next)) in
       ∃ accumulator,
         onTypeConflictToCandidateSelector onTypeConflict (cands ++ [next])
           = Some accumulator
         ∧ (winner = type prev → accumulator = prev)
         ∧ (winner ≠ type prev → winner = type next → accumulator = next)
         ∧ (winner ≠ type prev → winner ≠ type next →
            accumulator = mkCandidate winner None None (Some "unknown"))).
Proof.
  split; [done|]. split; [done|].
  intros cands prev next Hprev winner.
  destruct cands as [|first rest]; [discriminate|].
  simpl in Hprev. injection Hprev as Hprev.
  exists (resolveConflict onTypeConflict prev next).
  split.
  - simpl. by rewrite foldl_snoc, Hprev.
  - unfold resolveConflict. fold winner.
    destruct (decide (type prev = winner)) as [Hleft|Hleft].
    + repeat split; congruence.
    + destruct (decide (type next = winner)) as [Hright|Hright];
        repeat split; congruence.
Qed.

(** *** Which names are merged *)

Lemma mergesCandidates_root stitchingInfo operationTypeNames mergeTypes typeName cands :
  operationTypeNames !! "query" = Some typeName
  ∨ operationTypeNames !! "mutation" = Some typeName
  ∨ operationTypeNames !! "subscription" = Some typeName →
  mergesCandidates stitchingInfo operationTypeNames mergeTypes typeName cands = true.
Proof.
  intros Hroot. unfold TypeCandidates.mergesCandidates.
  destruct Hroot as [Hroot|[Hroot|Hroot]];
    rewrite (bool_decide_eq_true_2 _ Hroot); simpl;
    rewrite ?orb_true_r; done.
Qed.

Lemma mergesCandidates_not_root stitchingInfo operationTypeNames mergeTypes typeName cands :
  notRootTypeName operationTypeNames typeName →
  notInMergedTypes stitchingInfo typeName →
  mergesCandidates stitchingInfo operationTypeNames mergeTypes typeName cands =
    match mergeTypes with
    | MergeTypesBoolean true =>
      negb (existsb (λ candidate, isSpecifiedScalarType (type candidate)) cands)
    | MergeTypesBoolean false => false
    | MergeTypesList names => bool_decide (typeName ∈ names)
    | MergeTypesFilter filter => filter cands typeName
    end.
Proof.
  intros (Hquery & Hmutation & Hsubscription) Hinfo.
  unfold TypeCandidates.mergesCandidates.
  rewrite !bool_decide_eq_false_2 by done. simpl.
  assert (match stitchingInfo with
          | Some stitchingInfo =>
            bool_decide (is_Some (mergedTypes stitchingInfo !! typeName))
          | None => false
          end = false) as ->.
  { destruct stitchingInfo as [info|]; [|done].
    apply bool_decide_eq_false_2. rewrite (Hinfo info eq_refl).
    by intros [? ?]. }
  destruct mergeTypes as [[]| |]; by rewrite ?orb_false_r.
Qed.

Lemma existsb_false_Forall {A} (f : A → bool) (l : list A) :
  existsb f l = false ↔ Forall (λ x, f x = false) l.
Proof.
  induction l as [|x l IH]; simpl; [by split; [constructor|]|].
  rewrite orb_false_iff, Forall_cons. tauto.
Qed.

Lemma existsb_true_Exists {A} (f : A → bool) (l : list A) :
  existsb f l = true ↔ Exists (λ x, f x = true) l.
Proof.
  induction l as [|x l IH]; simpl.
  - split; [discriminate | by intros ?%Exists_nil].
  - rewrite orb_true_iff, Exists_cons. tauto.
Qed.

(** C4: a name that is the query, the mutation or the subscription type name
    is merged whatever the merge policy, the stitching information and the
    conflict callback are: the type map holds [mergeCandidates] of all its
    candidates under it. *)
Theorem buildTypeMap_merges_root_types typeCandidates stitchingInfo operationTypeNames
    onTypeConflict mergeTypes typeMergingOptions typeName cands :
  typeCandidates !! typeName = Some cands →
  operationTypeNames !! "query" = Some typeName
  ∨ operationTypeNames !! "mutation" = Some typeName
  ∨ operationTypeNames !! "subscription" = Some typeName →
  mergesCandidates stitchingInfo operationTypeNames mergeTypes typeName cands = true
  ∧ (∀ typeMap,
       buildTypeMap typeCandidates stitchingInfo operationTypeNames onTypeConflict
         mergeTypes typeMergingOptions = Some typeMap →
       typeMap !! typeName = Some (mergeCandidates typeName cands typeMergingOptions))
  ∧ ((∀ name cands', typeCandidates !! name = Some cands' → cands' ≠ []) →
     ∃ typeMap,
       buildTypeMap typeCandidates stitchingInfo operationTypeNames onTypeConflict
         mergeTypes typeMergingOptions = Some typeMap
       ∧ typeMap !! typeName = Some (mergeCandidates typeName cands typeMergingOptions)).
Proof.
  intros Hcands Hroot.
  pose proof (mergesCandidates_root stitchingInfo operationTypeNames mergeTypes
                typeName cands Hroot) as Hmerge.
  assert (∀ typeMap,
            buildTypeMap typeCandidates stitchingInfo operationTypeNames onTypeConflict
              mergeTypes typeMergingOptions = Some typeMap →
            typeMap !! typeName = Some (mergeCandidates typeName cands typeMergingOptions))
    as Hlookup.
  { intros typeMap Hbuild.
    rewrite (buildTypeMap_lookup _ _ _ _ _ _ _ typeName Hbuild), Hcands. simpl.
    by rewrite composeType_unfold, Hmerge. }
  split; [done|]. split; [done|].
  intros Hnonempty.
  destruct (buildTypeMap_returns typeCandidates stitchingInfo operationTypeNames
              onTypeConflict mergeTypes typeMergingOptions Hnonempty) as [typeMap Hbuild].
  exists typeMap. split; [done|]. by apply Hlookup.
Qed.

(** C5: with no conflict callback, a name that is not merged gets the type of
    the last candidate of its list; and a name that is no root type name, with
    merging off and no stitching entry, whose list holds one candidate gets
    that candidate's type, with or without a callback. *)
Theorem buildTypeMap_selects_last_candidate typeCandidates operationTypeNames
    typeMergingOptions typeName cands :
  typeCandidates !! typeName = Some cands →
  (∀ stitchingInfo mergeTypes,
     mergesCandidates stitchingInfo operationTypeNames mergeTypes typeName cands = false →
     (∀ typeMap,
        buildTypeMap typeCandidates stitchingInfo operationTypeNames None mergeTypes
          typeMergingOptions = Some typeMap →
        typeMap !! typeName = type <$> last cands)
     ∧ ((∀ name cands', typeCandidates !! name = Some cands' → cands' ≠ []) →
        ∃ typeMap winner,
          buildTypeMap typeCandidates stitchingInfo operationTypeNames None mergeTypes
            typeMergingOptions = Some typeMap
          ∧ last cands = Some winner
          ∧ typeMap !! typeName = Some (type winner)))
  ∧ (∀ stitchingInfo onTypeConflict candidate,
       notRootTypeName operationTypeNames typeName →
       notInMergedTypes stitchingInfo typeName →
       cands = [candidate] →
       (∀ name cands', typeCandidates !! name = Some cands' → cands' ≠ []) →
       ∃ typeMap,
         buildTypeMap typeCandidates stitchingInfo operationTypeNames onTypeConflict
           (MergeTypesBoolean false) typeMergingOptions = Some typeMap
         ∧ typeMap !! typeName = Some (type candidate)).
Proof.
  intros Hcands. split.
  - intros stitchingInfo mergeTypes Hselect.
    assert (∀ typeMap,
              buildTypeMap typeCandidates stitchingInfo operationTypeNames None mergeTypes
                typeMergingOptions = Some typeMap →
              typeMap !! typeName = type <$> last cands) as Hlookup.
    { intros typeMap Hbuild.
      rewrite (buildTypeMap_lookup _ _ _ _ _ _ _ typeName Hbuild), Hcands. simpl.
      rewrite composeType_unfold, Hselect. simpl. by rewrite lastCandidate_last. }
    split; [done|].
    intros Hnonempty.
    destruct (buildTypeMap_returns typeCandidates stitchingInfo operationTypeNames
                None mergeTypes typeMergingOptions Hnonempty) as [typeMap Hbuild].
    destruct (last_is_Some cands) as [_ Hlast].
    destruct (Hlast (Hnonempty _ _ Hcands)) as [winner Hwinner].
    exists typeMap, winner. split; [done|]. split; [done|].
    by rewrite (Hlookup typeMap Hbuild), Hwinner.
  - intros stitchingInfo onTypeConflict candidate Hroot Hinfo -> Hnonempty.
    destruct (buildTypeMap_returns typeCandidates stitchingInfo operationTypeNames
                onTypeConflict (MergeTypesBoolean false) typeMergingOptions Hnonempty)
      as [typeMap Hbuild].
    exists typeMap. split; [done|].
    rewrite (buildTypeMap_lookup _ _ _ _ _ _ _ typeName Hbuild), Hcands. simpl.
    rewrite composeType_unfold, mergesCandidates_not_root by done.
    by destruct onTypeConflict.
Qed.

(** C7: under [mergeTypes === true], a name that is no root type name and has
    no stitching entry is merged exactly when none of its candidates is a
    specified scalar type; when one is, the name gets the type of the
    candidate the selector picks. *)
Theorem buildTypeMap_merge_all_but_specified_scalars typeCandidates stitchingInfo
    operationTypeNames onTypeConflict typeMergingOptions typeName cands :
  typeCandidates !! typeName = Some cands →
  notRootTypeName operationTypeNames typeName →
  notInMergedTypes stitchingInfo typeName →
  (mergesCandidates stitchingInfo operationTypeNames (MergeTypesBoolean true) typeName cands
     = true
   ↔ Forall (λ candidate, isSpecifiedScalarType (type candidate) = false) cands)
  ∧ (∀ typeMap,
       buildTypeMap typeCandidates stitchingInfo operationTypeNames onTypeConflict
         (MergeTypesBoolean true) typeMergingOptions = Some typeMap →
       (Forall (λ candidate, isSpecifiedScalarType (type candidate) = false) cands →
        typeMap !! typeName = Some (mergeCandidates typeName cands typeMergingOptions))
       ∧ (Exists (λ candidate, isSpecifiedScalarType (type candidate) = true) cands →
          typeMap !! typeName = type <$> candidateSelector onTypeConflict cands))
  ∧ ((∀ name cands', typeCandidates !! name = Some cands' → cands' ≠ []) →
     is_Some (buildTypeMap typeCandidates stitchingInfo operationTypeNames onTypeConflict
                (MergeTypesBoolean true) typeMergingOptions)).
Proof.
  intros Hcands Hroot Hinfo.
  pose proof (mergesCandidates_not_root stitchingInfo operationTypeNames
                (MergeTypesBoolean true) typeName cands Hroot Hinfo) as Hmerges.
  simpl in Hmerges.
  split; [|split].
  - rewrite Hmerges, negb_true_iff. apply existsb_false_Forall.
  - intros typeMap Hbuild.
    rewrite (buildTypeMap_lookup _ _ _ _ _ _ _ typeName Hbuild), Hcands. simpl.
    rewrite composeType_unfold, Hmerges. split.
    + intros Hnone%existsb_false_Forall. by rewrite Hnone.
    + intros Hsome%existsb_true_Exists. by rewrite Hsome.
  - apply buildTypeMap_returns.
Qed.

End buildTypeMapFacts.

(** ** The statements on a small stitched schema

    Types are named by strings, a transformed schema by the name of its
    subschema; merging is shown as the list of the merged types. *)

Definition sampleCandidate (type schema : string) : MergeTypeCandidate string string unit :=
  mkCandidate type (Some tt) (Some schema) None.

Definition sampleIsSpecifiedScalarType (type : string) : bool :=
  bool_decide (type ∈ ["String"; "Int"; "Float"; "Boolean"; "ID"]).

Definition sampleMergeCandidates (typeName : string)
    (cands : list (MergeTypeCandidate string string unit)) (options : unit) : string :=
  String.concat "+" (TypeCandidates.type <$> cands).

Definition sampleTypeCandidates : gmap string (list (MergeTypeCandidate string string unit)) :=
  {[ "Query" := [sampleCandidate "QueryA" "a"; sampleCandidate "QueryB" "b"];
     "User" := [sampleCandidate "UserA" "a"; sampleCandidate "UserB" "b"];
     "Widget" := [sampleCandidate "WidgetB" "b"];
     "ID" := [sampleCandidate "ID" "a"; sampleCandidate "ID" "b"] ]}.

Definition sampleOperationTypeNames : gmap string string :=
  {[ "query" := "Query"; "mutation" := "Mutation"; "subscription" := "Subscription" ]}.

(** A callback that makes up a type of its own when the two sides differ. *)
Definition sampleOnTypeConflict : OnTypeConflict string string :=
  λ left right info, if decide (left = right) then left else "Custom".

Lemma sampleTypeCandidates_nonempty name cands :
  sampleTypeCandidates !! name = Some cands → cands ≠ [].
Proof.
  revert name cands.
  change (map_Forall (λ _ cands, cands ≠ []) sampleTypeCandidates).
  apply map_Forall_to_list. unfold sampleTypeCandidates.
  vm_compute map_to_list.
  repeat (apply Forall_cons; split; [simpl; discriminate|]). apply Forall_nil_2.
Defined.

Lemma buildTypeMap_merges_root_types_witness :
  ∃ typeMap,
    buildTypeMap sampleIsSpecifiedScalarType sampleMergeCandidates sampleTypeCandidates
      (None : option (StitchingInfo unit)) sampleOperationTypeNames None
      (MergeTypesBoolean false) tt = Some typeMap
    ∧ typeMap !! "Query" = Some "QueryA+QueryB".
Proof.
  destruct (buildTypeMap_merges_root_types sampleIsSpecifiedScalarType
              sampleMergeCandidates sampleTypeCandidates (None : option (StitchingInfo unit))
              sampleOperationTypeNames None (MergeTypesBoolean false) tt "Query"
              [sampleCandidate "QueryA" "a"; sampleCandidate "QueryB" "b"])
    as (_ & _ & Hreturns).
  - reflexivity.
  - left. reflexivity.
  - exact (Hreturns sampleTypeCandidates_nonempty).
Defined.

Lemma buildTypeMap_selects_last_candidate_witness :
  ∃ typeMap winner,
    buildTypeMap sampleIsSpecifiedScalarType sampleMergeCandidates sampleTypeCandidates
      (None : option (StitchingInfo unit)) sampleOperationTypeNames None
      (MergeTypesBoolean false) tt = Some typeMap
    ∧ last [sampleCandidate "UserA" "a"; sampleCandidate "UserB" "b"] = Some winner
    ∧ typeMap !! "User" = Some (TypeCandidates.type winner).
Proof.
  destruct (buildTypeMap_selects_last_candidate (MergedTypeInfo := unit)
              sampleIsSpecifiedScalarType sampleMergeCandidates sampleTypeCandidates sampleOperationTypeNames tt "User"
              [sampleCandidate "UserA" "a"; sampleCandidate "UserB" "b"])
    as (Hlast & _).
  - reflexivity.
  - destruct (Hlast (None : option (StitchingInfo unit)) (MergeTypesBoolean false))
      as (_ & Hreturns).
    + reflexivity.
    + exact (Hreturns sampleTypeCandidates_nonempty).
Defined.

Lemma onTypeConflictToCandidateSelector_spec_witness :
  ∃ accumulator,
    onTypeConflictToCandidateSelector sampleOnTypeConflict
      ([sampleCandidate "UserA" "a"] ++ [sampleCandidate "UserB" "b"]) = Some accumulator
    ∧ accumulator = mkCandidate "Custom" None None (Some "unknown").
Proof.
  destruct (onTypeConflictToCandidateSelector_spec (SubschemaConfig := unit)
              sampleOnTypeConflict) as (_ & _ & Hstep).
  destruct (Hstep [sampleCandidate "UserA" "a"] (sampleCandidate "UserA" "a")
              (sampleCandidate "UserB" "b") eq_refl)
    as (accumulator & Hselected & _ & _ & Hcustom).
  exists accumulator. split; [exact Hselected|].
  apply Hcustom; discriminate.
Defined.

Lemma buildTypeMap_merge_all_but_specified_scalars_witness :
  mergesCandidates sampleIsSpecifiedScalarType (None : option (StitchingInfo unit))
    sampleOperationTypeNames (MergeTypesBoolean true) "ID"
    [sampleCandidate "ID" "a"; sampleCandidate "ID" "b"] ≠ true
  ∧ mergesCandidates sampleIsSpecifiedScalarType (None : option (StitchingInfo unit))
      sampleOperationTypeNames (MergeTypesBoolean true) "User"
      [sampleCandidate "UserA" "a"; sampleCandidate "UserB" "b"] = true.
Proof.
  split.
  - destruct (buildTypeMap_merge_all_but_specified_scalars sampleIsSpecifiedScalarType
                sampleMergeCandidates sampleTypeCandidates (None : option (StitchingInfo unit))
                sampleOperationTypeNames None tt "ID"
                [sampleCandidate "ID" "a"; sampleCandidate "ID" "b"])
      as (Hiff & _).
    + reflexivity.
    + repeat split; discriminate.
    + intros info Hinfo. discriminate.
    + intros Hmerged. apply Hiff in Hmerged.
      apply Forall_cons in Hmerged as [Hscalar _]. discriminate.
  - destruct (buildTypeMap_merge_all_but_specified_scalars sampleIsSpecifiedScalarType
                sampleMergeCandidates sampleTypeCandidates (None : option (StitchingInfo unit))
                sampleOperationTypeNames None tt "User"
                [sampleCandidate "UserA" "a"; sampleCandidate "UserB" "b"])
      as (Hiff & _).
    + reflexivity.
    + repeat split; discriminate.
    + intros info Hinfo. discriminate.
    + apply Hiff. repeat constructor.
Defined.

Example buildTypeMap_sample :
  buildTypeMap sampleIsSpecifiedScalarType sampleMergeCandidates sampleTypeCandidates
    (None : option (StitchingInfo unit)) sampleOperationTypeNames None
    (MergeTypesBoolean true) tt
  = Some {[ "Query" := "QueryA+QueryB"; "User" := "UserA+UserB";
            "Widget" := "WidgetB"; "ID" := "ID" ]}.
Proof. vm_compute. reflexivity. Qed.

Example buildTypeMap_sample_conflict :
  buildTypeMap sampleIsSpecifiedScalarType sampleMergeCandidates sampleTypeCandidates
    (None : option (StitchingInfo unit)) sampleOperationTypeNames
    (Some sampleOnTypeConflict) (MergeTypesBoolean false) tt
  = Some {[ "Query" := "QueryA+QueryB"; "User" := "Custom";
            "Widget" := "WidgetB"; "ID" := "ID" ]}.
Proof. vm_compute. reflexivity. Qed.

Example buildTypeMap_throws_on_empty_list :
  buildTypeMap sampleIsSpecifiedScalarType sampleMergeCandidates
    (<[ "Empty" := [] ]> sampleTypeCandidates)
    (None : option (StitchingInfo unit)) sampleOperationTypeNames None
    (MergeTypesBoolean false) tt
  = None.
Proof. vm_compute. reflexivity. Qed.

(** ** Further properties of setOperationTypeNames *)

Lemma setOperationTypeNames_foldl schemaDef schemaExtensions
    (operationTypeNames : gmap string string) :
  setOperationTypeNames schemaDef schemaExtensions operationTypeNames =
    foldl (λ names operationType,
             <[operationKey (operation operationType) := typeName operationType]> names)
          operationTypeNames
          (definitionAssignments schemaDef ++ extensionAssignments schemaExtensions).
Proof.
  unfold setOperationTypeNames. rewrite foldl_recordOperationTypes. f_equal.
  assert (mjoin ((λ node, default [] (operationTypes node)) <$>
                 (ExtensionNode <$> schemaExtensions))
          = extensionAssignments schemaExtensions) as Hexts.
  { unfold extensionAssignments. by rewrite <- list_fmap_compose. }
  destruct schemaDef as [schemaDef|].
  - rewrite fmap_cons.
    change (mjoin (?first :: ?rest)) with (first ++ mjoin rest).
    by rewrite Hexts.
  - by rewrite Hexts.
Qed.

Lemma foldl_insert_other_key operationTypes (names : gmap string string) key :
  (∀ operation', operationKey operation' ≠ key) →
  foldl (λ names operationType,
           <[operationKey (operation operationType) := typeName operationType]> names)
        names operationTypes !! key = names !! key.
Proof.
  intros Hkey.
  induction operationTypes as [|operationType operationTypes IH] using rev_ind; [done|].
  rewrite foldl_snoc, lookup_insert_ne; [done | apply Hkey].
Qed.

(** [setOperationTypeNames] writes the keys [query], [mutation] and
    [subscription] only; nodes that name no operation leave the record as it
    was; and running it twice on the same nodes gives what running it once
    gives. *)
Theorem setOperationTypeNames_frame schemaDef schemaExtensions
    (operationTypeNames : gmap string string) :
  (∀ key,
     key ≠ "query" → key ≠ "mutation" → key ≠ "subscription" →
     setOperationTypeNames schemaDef schemaExtensions operationTypeNames !! key
     = operationTypeNames !! key)
  ∧ (definitionAssignments schemaDef = [] →
     extensionAssignments schemaExtensions = [] →
     setOperationTypeNames schemaDef schemaExtensions operationTypeNames
     = operationTypeNames)
  ∧ setOperationTypeNames schemaDef schemaExtensions
      (setOperationTypeNames schemaDef schemaExtensions operationTypeNames)
    = setOperationTypeNames schemaDef schemaExtensions operationTypeNames.
Proof.
  rewrite !setOperationTypeNames_foldl.
  assert (∀ key, key ≠ "query" → key ≠ "mutation" → key ≠ "subscription" →
            ∀ operation', operationKey operation' ≠ key) as Hother.
  { intros key ? ? ? []; simpl; congruence. }
  split; [|split].
  - intros key Hquery Hmutation Hsubscription.
    by apply foldl_insert_other_key, Hother.
  - by intros -> ->.
  - apply map_eq. intros key.
    destruct (decide (key = "query")) as [->|Hquery];
      [|destruct (decide (key = "mutation")) as [->|Hmutation];
        [|destruct (decide (key = "subscription")) as [->|Hsubscription]]].
    + rewrite !(foldl_insert_operationTypes _ _ OpQuery).
      by destruct (lastNameFor OpQuery _).
    + rewrite !(foldl_insert_operationTypes _ _ OpMutation).
      by destruct (lastNameFor OpMutation _).
    + rewrite !(foldl_insert_operationTypes _ _ OpSubscription).
      by destruct (lastNameFor OpSubscription _).
    + by rewrite !foldl_insert_other_key by by apply Hother.
Qed.

(** ** Further properties of buildTypeMap *)

Section moreBuildTypeMapFacts.

Context {GraphQLNamedType GraphQLSchema SubschemaConfig : Type}.
Context {MergedTypeInfo TypeMergingOptions : Type}.
Context `{EqDecision GraphQLNamedType}.
Variable isSpecifiedScalarType : GraphQLNamedType → bool.
Variable mergeCandidates :
  string → list (MergeTypeCandidate GraphQLNamedType GraphQLSchema SubschemaConfig)
  → TypeMergingOptions → GraphQLNamedType.

Local Abbreviation Candidate :=
  (MergeTypeCandidate GraphQLNamedType GraphQLSchema SubschemaConfig).
Local Abbreviation mergesCandidates := (mergesCandidates isSpecifiedScalarType).
Local Abbreviation composeType := (composeType isSpecifiedScalarType mergeCandidates).
Local Abbreviation buildTypeMap := (buildTypeMap isSpecifiedScalarType mergeCandidates).

Implicit Types (cands : list Candidate) (typeCandidates : gmap string (list Candidate)).
Implicit Types (stitchingInfo : option (StitchingInfo MergedTypeInfo)).
Implicit Types (operationTypeNames : gmap string string).
Implicit Types (onTypeConflict : option (OnTypeConflict GraphQLNamedType GraphQLSchema)).
Implicit Types (mergeTypes : MergeTypes GraphQLNamedType GraphQLSchema SubschemaConfig).
Implicit Types (typeMergingOptions : TypeMergingOptions).
Implicit Types (typeMap : gmap string GraphQLNamedType) (typeName : string).

(** The call returns exactly when every round does. *)
Lemma buildTypeMap_Some_iff typeCandidates stitchingInfo operationTypeNames
    onTypeConflict mergeTypes typeMergingOptions :
  is_Some (buildTypeMap typeCandidates stitchingInfo operationTypeNames onTypeConflict
             mergeTypes typeMergingOptions)
  ↔ ∀ typeName cands,
      typeCandidates !! typeName = Some cands →
      is_Some (composeType stitchingInfo operationTypeNames onTypeConflict mergeTypes
                 typeMergingOptions typeName cands).
Proof.
  unfold TypeCandidates.buildTypeMap.
  apply (map_fold_weak_ind
    (λ (result : option (gmap string GraphQLNamedType)) (seen : gmap string (list Candidate)),
       is_Some result
       ↔ ∀ typeName cands,
           seen !! typeName = Some cands →
           is_Some (composeType stitchingInfo operationTypeNames onTypeConflict mergeTypes
                      typeMergingOptions typeName cands))).
  - split; [|by eexists]. intros _ typeName cands. by rewrite lookup_empty.
  - intros name cands seen result Hfresh IH. split.
    + intros Hsome typeName cands' Hin.
      destruct result as [typeMap|]; [|by destruct Hsome].
      simpl in Hsome.
      destruct (decide (name = typeName)) as [<-|Hne].
      * rewrite lookup_insert_eq in Hin. injection Hin as <-.
        destruct (composeType _ _ _ _ _ name cands); [by eexists | by destruct Hsome].
      * rewrite lookup_insert_ne in Hin by done.
        destruct IH as [IH _]. apply IH; [by eexists | done].
    + intros Hall.
      assert (is_Some result) as [typeMap ->].
      { apply IH. intros typeName cands' Hin. apply Hall.
        rewrite lookup_insert_ne; [done | congruence]. }
      destruct (Hall name cands (lookup_insert_eq _ _ _)) as [composite Hcomposite].
      simpl. rewrite Hcomposite. by eexists.
Qed.

Lemma composeType_None_iff stitchingInfo operationTypeNames onTypeConflict mergeTypes
    typeMergingOptions typeName cands :
  composeType stitchingInfo operationTypeNames onTypeConflict mergeTypes
    typeMergingOptions typeName cands = None
  ↔ cands = []
    ∧ mergesCandidates stitchingInfo operationTypeNames mergeTypes typeName [] = false.
Proof.
  split.
  - intros Hnone. destruct cands as [|first rest].
    + split; [done|]. rewrite composeType_unfold in Hnone.
      by destruct (mergesCandidates _ _ _ _ _).
    + destruct (composeType_nonempty isSpecifiedScalarType mergeCandidates stitchingInfo
                  operationTypeNames onTypeConflict mergeTypes typeMergingOptions
                  typeName (first :: rest)) as [composite Hsome]; [done|].
      congruence.
  - intros [-> Hselect]. rewrite composeType_unfold, Hselect.
    by destruct onTypeConflict.
Qed.

(** [buildTypeMap] throws when some name that is not merged has an empty
    candidate list; when it returns, the type map has the names of the
    candidate table and no other. *)
Theorem buildTypeMap_names typeCandidates stitchingInfo operationTypeNames
    onTypeConflict mergeTypes typeMergingOptions :
  ((∃ typeName,
      typeCandidates !! typeName = Some []
      ∧ mergesCandidates stitchingInfo operationTypeNames mergeTypes typeName [] = false) →
   buildTypeMap typeCandidates stitchingInfo operationTypeNames onTypeConflict
     mergeTypes typeMergingOptions = None)
  ∧ (∀ typeMap,
       buildTypeMap typeCandidates stitchingInfo operationTypeNames onTypeConflict
         mergeTypes typeMergingOptions = Some typeMap →
       dom typeMap = dom typeCandidates).
Proof.
  pose proof (buildTypeMap_Some_iff typeCandidates stitchingInfo operationTypeNames
                onTypeConflict mergeTypes typeMergingOptions) as Hsome.
  split.
  - intros (typeName & Hin & Hselect).
    apply eq_None_not_Some. intros Hbuilt.
    destruct Hsome as [Hsome _].
    destruct (Hsome Hbuilt typeName [] Hin) as [composite Hcomposite].
    assert (composeType stitchingInfo operationTypeNames onTypeConflict mergeTypes
              typeMergingOptions typeName [] = None) as Hnone
      by by apply composeType_None_iff.
    congruence.
  - intros typeMap Hbuild. apply set_eq. intros typeName.
    rewrite !elem_of_dom.
    rewrite (buildTypeMap_lookup isSpecifiedScalarType mergeCandidates _ _ _ _ _ _ _
               typeName Hbuild).
    destruct (typeCandidates !! typeName) as [cands|] eqn:Hin; simpl.
    + destruct Hsome as [Hsome _].
      split; [by eexists|]. intros _. apply (Hsome (mk_is_Some _ _ Hbuild) _ _ Hin).
    + split; by intros [? ?].
Qed.

(** *** More on the conflict selector *)

Lemma resolveConflict_cases (onTypeConflict : OnTypeConflict GraphQLNamedType GraphQLSchema)
    (prev next : Candidate) :
  (∀ left right info,
     onTypeConflict left right info = left ∨ onTypeConflict left right info = right) →
  resolveConflict onTypeConflict prev next = prev
  ∨ resolveConflict onTypeConflict prev next = next.
Proof.
  intros Hpicks. unfold resolveConflict.
  destruct (Hpicks (type prev) (type next)
              (mkConflictInfo (transformedSchema prev) (transformedSchema next)))
    as [Hleft|Hright].
  - left. by rewrite decide_True.
  - case_decide; [by left|]. right. by rewrite decide_True.
Qed.

(** When the callback always returns one of the two types it is given, the
    selector returns one of the candidates of the list, never one it made
    up. *)
Theorem onTypeConflictToCandidateSelector_picks_a_candidate
    (onTypeConflict : OnTypeConflict GraphQLNamedType GraphQLSchema) cands :
  (∀ left right info,
     onTypeConflict left right info = left ∨ onTypeConflict left right info = right) →
  cands ≠ [] →
  ∃ selected,
    onTypeConflictToCandidateSelector onTypeConflict cands = Some selected
    ∧ selected ∈ cands.
Proof.
  intros Hpicks Hne. destruct cands as [|first rest]; [done|].
  simpl. eexists. split; [done|]. clear Hne.
  revert first. induction rest as [|next rest IH]; intros first; simpl.
  - by left.
  - destruct (resolveConflict_cases onTypeConflict first next Hpicks) as [-> | ->].
    + pose proof (IH first) as Hin. apply elem_of_cons in Hin as [Hfirst|Hrest].
      * rewrite Hfirst. by left.
      * by do 2 right.
    + right. apply IH.
Qed.

Lemma foldl_resolveConflict_right (onTypeConflict : OnTypeConflict GraphQLNamedType GraphQLSchema)
    (first : Candidate) rest :
  (∀ left right info, onTypeConflict left right info = right) →
  type (foldl (resolveConflict onTypeConflict) first rest)
  = default (type first) (type <$> last rest).
Proof.
  intros Hright. revert first.
  induction rest as [|next rest IH]; intros first; [done|].
  simpl. rewrite IH, last_cons.
  assert (type (resolveConflict onTypeConflict first next) = type next) as ->.
  { unfold resolveConflict. rewrite Hright.
    case_decide; [done|]. by rewrite decide_True. }
  by destruct (last rest).
Qed.

Lemma foldl_resolveConflict_left (onTypeConflict : OnTypeConflict GraphQLNamedType GraphQLSchema)
    (first : Candidate) rest :
  (∀ left right info, onTypeConflict left right info = left) →
  foldl (resolveConflict onTypeConflict) first rest = first.
Proof.
  intros Hleft. induction rest as [|next rest IH]; [done|].
  simpl. unfold resolveConflict at 2. rewrite Hleft. by rewrite decide_True.
Qed.

(** A callback that always returns the right-hand type changes nothing: the
    type map is the one built with no callback.  With a callback that always
    returns the left-hand type, a name that is not merged gets the type of
    its first candidate. *)
Theorem buildTypeMap_biased_callbacks typeCandidates stitchingInfo operationTypeNames
    mergeTypes typeMergingOptions
    (onTypeConflict : OnTypeConflict GraphQLNamedType GraphQLSchema) :
  ((∀ left right info, onTypeConflict left right info = right) →
   buildTypeMap typeCandidates stitchingInfo operationTypeNames (Some onTypeConflict)
     mergeTypes typeMergingOptions
   = buildTypeMap typeCandidates stitchingInfo operationTypeNames None
       mergeTypes typeMergingOptions)
  ∧ ((∀ left right info, onTypeConflict left right info = left) →
     ∀ typeMap typeName cands,
       buildTypeMap typeCandidates stitchingInfo operationTypeNames (Some onTypeConflict)
         mergeTypes typeMergingOptions = Some typeMap →
       typeCandidates !! typeName = Some cands →
       mergesCandidates stitchingInfo operationTypeNames mergeTypes typeName cands = false →
       typeMap !! typeName = type <$> head cands).
Proof.
  split.
  - intros Hright.
    assert (∀ typeName cands,
              composeType stitchingInfo operationTypeNames (Some onTypeConflict) mergeTypes
                typeMergingOptions typeName cands
              = composeType stitchingInfo operationTypeNames None mergeTypes
                  typeMergingOptions typeName cands) as Hcompose.
    { intros typeName cands. rewrite !composeType_unfold.
      destruct (mergesCandidates _ _ _ _ _); [done|]. simpl.
      rewrite lastCandidate_last. destruct cands as [|first rest]; [done|].
      simpl onTypeConflictToCandidateSelector. simpl fmap at 1.
      rewrite foldl_resolveConflict_right, last_cons by done.
      by destruct (last rest). }
    pose proof (buildTypeMap_Some_iff typeCandidates stitchingInfo operationTypeNames
                  (Some onTypeConflict) mergeTypes typeMergingOptions) as Hwith.
    pose proof (buildTypeMap_Some_iff typeCandidates stitchingInfo operationTypeNames
                  None mergeTypes typeMergingOptions) as Hwithout.
    destruct (buildTypeMap _ _ _ (Some onTypeConflict) _ _) as [typeMap1|] eqn:Hbuild1;
      destruct (buildTypeMap _ _ _ None _ _) as [typeMap2|] eqn:Hbuild2.
    + f_equal. apply map_eq. intros typeName.
      rewrite (buildTypeMap_lookup isSpecifiedScalarType mergeCandidates _ _ _ _ _ _ _
                 typeName Hbuild1).
      rewrite (buildTypeMap_lookup isSpecifiedScalarType mergeCandidates _ _ _ _ _ _ _
                 typeName Hbuild2).
      destruct (typeCandidates !! typeName); [apply Hcompose | done].
    + exfalso. destruct Hwith as [Hwith _], Hwithout as [_ Hwithout].
      destruct Hwithout as [? ?]; [|done].
      intros typeName cands Hin. rewrite <- Hcompose. by apply Hwith.
    + exfalso. destruct Hwith as [_ Hwith], Hwithout as [Hwithout _].
      destruct Hwith as [? ?]; [|done].
      intros typeName cands Hin. rewrite Hcompose. by apply Hwithout.
    + done.
  - intros Hleft typeMap typeName cands Hbuild Hin Hselect.
    rewrite (buildTypeMap_lookup isSpecifiedScalarType mergeCandidates _ _ _ _ _ _ _
               typeName Hbuild), Hin. simpl.
    rewrite composeType_unfold, Hselect. simpl.
    destruct cands as [|first rest]; [done|]. simpl.
    by rewrite foldl_resolveConflict_left.
Qed.

End moreBuildTypeMapFacts.

Lemma onTypeConflictToCandidateSelector_picks_a_candidate_witness :
  ∃ selected,
    onTypeConflictToCandidateSelector (λ left right info, right)
      [sampleCandidate "UserA" "a"; sampleCandidate "UserB" "b"; sampleCandidate "UserA" "c"]
    = Some selected
    ∧ selected
        ∈ [sampleCandidate "UserA" "a"; sampleCandidate "UserB" "b";
           sampleCandidate "UserA" "c"].
Proof.
  apply (onTypeConflictToCandidateSelector_picks_a_candidate (λ left right info, right)).
  - intros left right info. by right.
  - discriminate.
Defined.

Example buildTypeMap_first_wins_with_left_callback :
  buildTypeMap sampleIsSpecifiedScalarType sampleMergeCandidates sampleTypeCandidates
    (None : option (StitchingInfo unit)) sampleOperationTypeNames
    (Some (λ left right info, left)) (MergeTypesBoolean false) tt
  = Some {[ "Query" := "QueryA+QueryB"; "User" := "UserA";
            "Widget" := "WidgetB"; "ID" := "ID" ]}.
Proof. vm_compute. reflexivity. Qed.

(** ** Properties of buildTypeCandidates *)

Section buildTypeCandidatesFacts.

Context {GraphQLNamedType GraphQLSchema SubschemaConfig : Type}.
Context {MergedTypeInfo TypeMergingOptions : Type}.
Context {GraphQLDirective TypedefObject ParseOptions DocumentNode DefinitionNode : Type}.
Context `{EqDecision GraphQLNamedType} `{EqDecision SubschemaConfig}.

Variable isSpecifiedScalarType : GraphQLNamedType → bool.
Variable mergeCandidates :
  string → list (MergeTypeCandidate GraphQLNamedType GraphQLSchema SubschemaConfig)
  → TypeMergingOptions → GraphQLNamedType.
Variable namedTypeName : GraphQLNamedType → string.
Variable directiveName : GraphQLDirective → string.
Variable wrapSchema : SubschemaConfig → GraphQLSchema.
Variable getQueryType : GraphQLSchema → option GraphQLNamedType.
Variable getMutationType : GraphQLSchema → option GraphQLNamedType.
Variable getSubscriptionType : GraphQLSchema → option GraphQLNamedType.
Variable getDirectives : GraphQLSchema → list GraphQLDirective.
Variable getTypeMap : GraphQLSchema → list (string * GraphQLNamedType).
Variable buildDocumentFromTypeDefinitions :
  ITypeDefinitions TypedefObject → ParseOptions → DocumentNode.
Variable extractSchemaDefinition : DocumentNode → option SchemaDefinitionNode.
Variable extractSchemaExtensions : DocumentNode → list SchemaExtensionNode.
Variable extractTypeDefinitions : DocumentNode → DocumentNode.
Variable extractDirectiveDefinitions : DocumentNode → DocumentNode.
Variable extractTypeExtensionDefinitions : DocumentNode → DocumentNode.
Variable definitions : DocumentNode → list DefinitionNode.
Variable typeFromAST : DefinitionNode → option GraphQLNamedType.
Variable directiveFromAST : DefinitionNode → option GraphQLDirective.

Local Abbreviation Candidate :=
  (MergeTypeCandidate GraphQLNamedType GraphQLSchema SubschemaConfig).
Local Abbreviation buildTypeCandidates :=
  (buildTypeCandidates namedTypeName directiveName wrapSchema getQueryType
     getMutationType getSubscriptionType getDirectives getTypeMap
     buildDocumentFromTypeDefinitions extractSchemaDefinition extractSchemaExtensions
     extractTypeDefinitions extractDirectiveDefinitions extractTypeExtensionDefinitions
     definitions typeFromAST directiveFromAST).
Local Abbreviation addSubschema :=
  (addSubschema namedTypeName directiveName wrapSchema getQueryType getMutationType
     getSubscriptionType getDirectives getTypeMap).
Local Abbreviation subschemaAdditions :=
  (subschemaAdditions namedTypeName wrapSchema getQueryType getMutationType
     getSubscriptionType getTypeMap).
Local Abbreviation typeDefsDocument := (typeDefsDocument buildDocumentFromTypeDefinitions).
Local Abbreviation resolvedOperationTypeNames :=
  (resolvedOperationTypeNames buildDocumentFromTypeDefinitions extractSchemaDefinition
     extractSchemaExtensions).
Local Abbreviation allAdditions :=
  (allAdditions namedTypeName wrapSchema getQueryType getMutationType getSubscriptionType
     getTypeMap buildDocumentFromTypeDefinitions extractSchemaDefinition
     extractSchemaExtensions extractTypeDefinitions definitions typeFromAST).

Implicit Types (typeCandidates : gmap string (list Candidate)).
Implicit Types (additions : list (string * Candidate)).
Implicit Types (subschemaConfigs : list SubschemaConfig) (types : list GraphQLNamedType).
Implicit Types (typeDefs : ITypeDefinitions TypedefObject) (parseOptions : ParseOptions).
Implicit Types (transformedSchemas : SubschemaConfig → option GraphQLSchema).
Implicit Types (extensions : list DocumentNode).
Implicit Types (directiveMap : gmap string GraphQLDirective).
Implicit Types (operationTypeNames : gmap string string) (mergeDirectives : bool).
Implicit Types (name : string).

(** *** addTypeCandidate *)

(** The table after some additions, one [addTypeCandidate] each. *)
Definition addAll typeCandidates additions : gmap string (list Candidate) :=
  foldl (λ typeCandidates addition,
           addTypeCandidate typeCandidates addition.1 addition.2)
        typeCandidates additions.

Lemma addTypeCandidate_lookup typeCandidates name (candidate : Candidate) name' :
  addTypeCandidate typeCandidates name candidate !! name' =
    if decide (name = name')
    then Some (default [] (typeCandidates !! name') ++ [candidate])
    else typeCandidates !! name'.
Proof.
  unfold addTypeCandidate. case_decide as Hname.
  - subst. by rewrite lookup_insert_eq.
  - by rewrite lookup_insert_ne.
Qed.

Lemma addAll_lookup additions typeCandidates name :
  addAll typeCandidates additions !! name =
    match additionsFor name additions with
    | [] => typeCandidates !! name
    | added => Some (default [] (typeCandidates !! name) ++ added)
    end.
Proof.
  unfold addAll, additionsFor. revert typeCandidates.
  induction additions as [|[name' candidate] additions IH]; intros typeCandidates; [done|].
  simpl. rewrite IH, addTypeCandidate_lookup, filter_cons. simpl.
  case_decide as Hname; simpl; [|done].
  change (list_fmap _ _ snd ?l) with (l.*2).
  destruct ((filter _ additions).*2) as [|added rest]; [done|].
  by rewrite <- (assoc_L (++)).
Qed.

Lemma addAll_app typeCandidates additions1 additions2 :
  addAll typeCandidates (additions1 ++ additions2)
  = addAll (addAll typeCandidates additions1) additions2.
Proof. apply foldl_app. Qed.

Lemma foldl_pick_addAll {A} (pick : A → option (string * Candidate))
    (step : gmap string (list Candidate) → A → gmap string (list Candidate))
    (items : list A) typeCandidates :
  (∀ typeCandidates item,
     step typeCandidates item =
       match pick item with
       | Some addition => addTypeCandidate typeCandidates addition.1 addition.2
       | None => typeCandidates
       end) →
  foldl step typeCandidates items = addAll typeCandidates (omap pick items).
Proof.
  intros Hstep. revert typeCandidates.
  induction items as [|item items IH]; intros typeCandidates; [done|].
  simpl. rewrite Hstep, IH. by destruct (pick item).
Qed.

(** *** The rounds of buildTypeCandidates as additions *)

Lemma addOperationTypeCandidates_addAll operationTypeNames subschemaConfig typeCandidates :
  addOperationTypeCandidates getQueryType getMutationType getSubscriptionType
    operationTypeNames subschemaConfig (wrapSchema subschemaConfig) typeCandidates
  = addAll typeCandidates
      (operationTypeAdditions wrapSchema getQueryType getMutationType getSubscriptionType
         operationTypeNames subschemaConfig).
Proof.
  unfold addOperationTypeCandidates, operationTypeAdditions.
  apply foldl_pick_addAll. intros table [operationType [rootType|]]; done.
Qed.

Lemma addTypeMapCandidates_addAll subschemaConfig typeCandidates :
  addTypeMapCandidates namedTypeName getQueryType getMutationType getSubscriptionType
    getTypeMap subschemaConfig (wrapSchema subschemaConfig) typeCandidates
  = addAll typeCandidates
      (typeMapAdditions namedTypeName wrapSchema getQueryType getMutationType
         getSubscriptionType getTypeMap subschemaConfig).
Proof.
  unfold addTypeMapCandidates, typeMapAdditions.
  apply foldl_pick_addAll. intros table [typeName type'].
  by destruct (isOwnTypeCandidate _ _ _ _ _ _).
Qed.

Lemma addDefinedTypes_addAll typesDocument typeCandidates :
  addDefinedTypes namedTypeName definitions typeFromAST typesDocument typeCandidates
  = addAll typeCandidates
      (definedTypeAdditions namedTypeName definitions typeFromAST typesDocument).
Proof.
  unfold addDefinedTypes, definedTypeAdditions.
  apply foldl_pick_addAll. intros table def. by destruct (typeFromAST def).
Qed.

Lemma addTypes_addAll types typeCandidates :
  addTypes namedTypeName types typeCandidates
  = addAll typeCandidates (typeAdditions namedTypeName types).
Proof.
  unfold addTypes, typeAdditions, addAll. revert typeCandidates.
  induction types as [|type' types IH]; intros typeCandidates; [done|].
  simpl. by rewrite IH.
Qed.

Lemma foldl_addSubschema operationTypeNames mergeDirectives subschemaConfigs
    typeCandidates transformedSchemas directiveMap :
  (foldl (addSubschema operationTypeNames mergeDirectives)
     (typeCandidates, transformedSchemas, directiveMap) subschemaConfigs).1.1
  = addAll typeCandidates (mjoin (subschemaAdditions operationTypeNames <$> subschemaConfigs))
  ∧ (∀ subschemaConfig,
       (foldl (addSubschema operationTypeNames mergeDirectives)
          (typeCandidates, transformedSchemas, directiveMap) subschemaConfigs).1.2
         subschemaConfig
       = if decide (subschemaConfig ∈ subschemaConfigs)
         then Some (wrapSchema subschemaConfig)
         else transformedSchemas subschemaConfig)
  ∧ (foldl (addSubschema operationTypeNames mergeDirectives)
       (typeCandidates, transformedSchemas, directiveMap) subschemaConfigs).2
    = if mergeDirectives
      then addDirectives directiveName
             (mjoin ((λ subschemaConfig, getDirectives (wrapSchema subschemaConfig))
                     <$> subschemaConfigs))
             directiveMap
      else directiveMap.
Proof.
  revert typeCandidates transformedSchemas directiveMap.
  induction subschemaConfigs as [|first rest IH];
    intros typeCandidates transformedSchemas directiveMap.
  - simpl. split; [done|]. split; [done | by destruct mergeDirectives].
  - cbn [foldl fmap list_fmap]. unfold TypeCandidates.addSubschema at 2 4 6.
    destruct (IH (addTypeMapCandidates namedTypeName getQueryType getMutationType
                    getSubscriptionType getTypeMap first (wrapSchema first)
                    (addOperationTypeCandidates getQueryType getMutationType
                       getSubscriptionType operationTypeNames first (wrapSchema first)
                       typeCandidates))
                 (λ config, if decide (config = first) then Some (wrapSchema first)
                            else transformedSchemas config)
                 (if mergeDirectives
                  then addDirectives directiveName (getDirectives (wrapSchema first))
                         directiveMap
                  else directiveMap))
      as (Htable & Hschemas & Hdirectives).
    split; [|split].
    + rewrite Htable, addTypeMapCandidates_addAll, addOperationTypeCandidates_addAll.
      change (mjoin (?first :: ?rest)) with (first ++ mjoin rest).
      unfold TypeCandidates.subschemaAdditions at 2.
      by rewrite !addAll_app.
    + intros subschemaConfig. rewrite Hschemas.
      destruct (decide (subschemaConfig = first)) as [->|Hne].
      * rewrite (decide_True (P := first ∈ first :: rest)) by by left.
        by destruct (decide (first ∈ rest)).
      * destruct (decide (subschemaConfig ∈ rest)) as [Hin|Hnotin].
        -- by rewrite decide_True by by right.
        -- rewrite decide_False; [done|].
           by intros [?|?]%elem_of_cons.
    + rewrite Hdirectives. destruct mergeDirectives; [|done].
      change (mjoin (?first :: ?rest)) with (first ++ mjoin rest).
      unfold addDirectives. by rewrite foldl_app.
Qed.

(** What a call that returns leaves, component by component. *)
Lemma buildTypeCandidates_Some subschemaConfigs types typeDefs parseOptions
    transformedSchemas extensions directiveMap operationTypeNames mergeDirectives result :
  buildTypeCandidates subschemaConfigs types typeDefs parseOptions transformedSchemas
    extensions directiveMap operationTypeNames mergeDirectives = Some result →
  resultTypeCandidates result
  = addAll ∅ (allAdditions subschemaConfigs types typeDefs parseOptions operationTypeNames)
  ∧ resultOperationTypeNames result
    = resolvedOperationTypeNames typeDefs parseOptions operationTypeNames
  ∧ (∀ subschemaConfig,
       resultTransformedSchemas result subschemaConfig
       = if decide (subschemaConfig ∈ subschemaConfigs)
         then Some (wrapSchema subschemaConfig)
         else transformedSchemas subschemaConfig)
  ∧ resultSchemaDef result
    = typeDefsDocument typeDefs parseOptions ≫= extractSchemaDefinition
  ∧ resultSchemaExtensions result
    = default [] (extractSchemaExtensions <$> typeDefsDocument typeDefs parseOptions).
Proof.
  unfold TypeCandidates.buildTypeCandidates, TypeCandidates.allAdditions,
    TypeCandidates.resolvedOperationTypeNames, TypeCandidates.typeDefsDocument.
  set (document := if hasTypeDefs typeDefs
                   then Some (buildDocumentFromTypeDefinitions typeDefs parseOptions)
                   else None).
  assert (match document with
          | Some document => [] ++ extractSchemaExtensions document
          | None => []
          end = default [] (extractSchemaExtensions <$> document)) as ->
    by by destruct document.
  set (names := setOperationTypeNames _ _ operationTypeNames).
  destruct (foldl_addSubschema names mergeDirectives subschemaConfigs ∅
              transformedSchemas directiveMap) as (Htable & Hschemas & _).
  destruct (foldl (addSubschema names mergeDirectives) (∅, transformedSchemas, directiveMap)
              subschemaConfigs) as [[table schemas] directives].
  simpl in Htable, Hschemas.
  destruct document as [document|]; simpl.
  - destruct (addDefinedDirectives _ _ _ _ _) as [directives'|]; [|discriminate].
    simpl. intros [= <-]. simpl.
    by rewrite addTypes_addAll, addDefinedTypes_addAll, Htable, <- !addAll_app.
  - intros [= <-]. simpl.
    by rewrite addTypes_addAll, Htable, <- !addAll_app.
Qed.

(** *** Where a candidate comes from *)

Local Abbreviation rootType := (rootType getQueryType getMutationType getSubscriptionType).
Local Abbreviation localCandidate :=
  (localCandidate (GraphQLSchema := GraphQLSchema) (SubschemaConfig := SubschemaConfig)).
Local Abbreviation typeAdditions :=
  (typeAdditions (GraphQLSchema := GraphQLSchema) (SubschemaConfig := SubschemaConfig)
     namedTypeName).
Local Abbreviation definedTypeAdditions :=
  (definedTypeAdditions (GraphQLSchema := GraphQLSchema)
     (SubschemaConfig := SubschemaConfig) namedTypeName definitions typeFromAST).
Local Abbreviation subschemaCandidate := (subschemaCandidate wrapSchema).
Local Abbreviation isOwnTypeCandidate :=
  (isOwnTypeCandidate namedTypeName getQueryType getMutationType getSubscriptionType).
Local Abbreviation buildTypeMap := (buildTypeMap isSpecifiedScalarType mergeCandidates).
Local Abbreviation mergesCandidates := (mergesCandidates isSpecifiedScalarType).

Lemma elem_of_additionsFor name additions (candidate : Candidate) :
  candidate ∈ additionsFor name additions ↔ (name, candidate) ∈ additions.
Proof.
  unfold additionsFor. rewrite list_elem_of_fmap. split.
  - intros ([name' candidate'] & -> & Hin).
    apply list_elem_of_filter in Hin as [Hname Hin]. simpl in *. by subst.
  - intros Hin. exists (name, candidate). split; [done|].
    by apply list_elem_of_filter.
Qed.

Lemma additionsFor_app name additions1 additions2 :
  additionsFor name (additions1 ++ additions2)
  = additionsFor name additions1 ++ additionsFor name additions2.
Proof. unfold additionsFor. by rewrite filter_app, fmap_app. Qed.

Lemma additionsFor_typeAdditions name types :
  additionsFor name (typeAdditions types)
  = localCandidate <$> filter (λ type', namedTypeName type' = name) types.
Proof.
  unfold additionsFor, TypeCandidates.typeAdditions.
  induction types as [|type' types IH]; [done|].
  rewrite fmap_cons, !filter_cons. simpl fst.
  case_decide; [rewrite !fmap_cons|]; by rewrite IH.
Qed.

Lemma addAll_empty_lookup additions name :
  addAll ∅ additions !! name =
    match additionsFor name additions with
    | [] => None
    | cands => Some cands
    end.
Proof. rewrite addAll_lookup, lookup_empty. by destruct (additionsFor name additions). Qed.

Lemma addAll_empty_elem_of additions name cands :
  addAll ∅ additions !! name = Some cands →
  cands ≠ [] ∧ ∀ candidate : Candidate, candidate ∈ cands ↔ (name, candidate) ∈ additions.
Proof.
  rewrite addAll_empty_lookup.
  destruct (additionsFor name additions) as [|first rest] eqn:Hfor; [discriminate|].
  intros [= <-]. split; [done|]. intros candidate.
  by rewrite <- elem_of_additionsFor, Hfor.
Qed.

Lemma elem_of_operationTypeAdditions operationTypeNames subschemaConfig name
    (candidate : Candidate) :
  (name, candidate)
    ∈ operationTypeAdditions wrapSchema getQueryType getMutationType getSubscriptionType
        operationTypeNames subschemaConfig
  ↔ ∃ operation' type',
      rootType operation' (wrapSchema subschemaConfig) = Some type'
      ∧ name = operationTypeName operationTypeNames (operationKey operation')
      ∧ candidate = subschemaCandidate subschemaConfig type'.
Proof.
  unfold operationTypeAdditions, schemaOperationTypes. rewrite list_elem_of_omap. split.
  - intros ([operationType root] & Hin & Hpick).
    destruct root as [type'|]; [|discriminate]. injection Hpick as <- <-.
    apply elem_of_cons in Hin as [[= -> Hroot]|Hin];
      [by exists OpQuery, type'|].
    apply elem_of_cons in Hin as [[= -> Hroot]|Hin];
      [by exists OpMutation, type'|].
    apply list_elem_of_singleton in Hin as [= -> Hroot].
    by exists OpSubscription, type'.
  - intros (operation' & type' & Hroot & -> & ->).
    exists (operationKey operation', Some type'). split; [|done].
    destruct operation'; simpl in Hroot; rewrite Hroot;
      [by left | by right; left | by do 2 right; left].
Qed.

Lemma isOwnTypeCandidate_true schema type' :
  isOwnTypeCandidate schema type' = true
  ↔ substring 0 2 (namedTypeName type') ≠ "__"
    ∧ ∀ operation', rootType operation' schema ≠ Some type'.
Proof.
  unfold TypeCandidates.isOwnTypeCandidate.
  rewrite !andb_true_iff, negb_true_iff, bool_decide_eq_false, !bool_decide_eq_true.
  split.
  - intros [[[Hname Hquery] Hmutation] Hsubscription]. split; [done|]. by intros [].
  - intros [Hname Hroot]. repeat split; [done | apply (Hroot OpQuery)
      | apply (Hroot OpMutation) | apply (Hroot OpSubscription)].
Qed.

Lemma elem_of_typeMapAdditions subschemaConfig name (candidate : Candidate) :
  (name, candidate)
    ∈ typeMapAdditions namedTypeName wrapSchema getQueryType getMutationType
        getSubscriptionType getTypeMap subschemaConfig
  ↔ ∃ typeName type',
      (typeName, type') ∈ getTypeMap (wrapSchema subschemaConfig)
      ∧ isOwnTypeCandidate (wrapSchema subschemaConfig) type' = true
      ∧ name = namedTypeName type'
      ∧ candidate = subschemaCandidate subschemaConfig type'.
Proof.
  unfold typeMapAdditions. rewrite list_elem_of_omap. split.
  - intros ([typeName type'] & Hin & Hpick).
    destruct (isOwnTypeCandidate _ type') eqn:Hown; [|discriminate].
    injection Hpick as <- <-. by exists typeName, type'.
  - intros (typeName & type' & Hin & Hown & -> & ->).
    exists (typeName, type'). split; [done|]. by rewrite Hown.
Qed.

Lemma or_iff_both (A A' B B' : Prop) : (A ↔ A') → (B ↔ B') → (A ∨ B ↔ A' ∨ B').
Proof. tauto. Qed.

Lemma elem_of_allAdditions subschemaConfigs types typeDefs parseOptions operationTypeNames
    name (candidate : Candidate) :
  (name, candidate)
    ∈ allAdditions subschemaConfigs types typeDefs parseOptions operationTypeNames
  ↔ (∃ subschemaConfig,
       subschemaConfig ∈ subschemaConfigs
       ∧ (name, candidate)
           ∈ subschemaAdditions
               (resolvedOperationTypeNames typeDefs parseOptions operationTypeNames)
               subschemaConfig)
    ∨ (∃ document def type',
         typeDefsDocument typeDefs parseOptions = Some document
         ∧ def ∈ definitions (extractTypeDefinitions document)
         ∧ typeFromAST def = Some type'
         ∧ name = namedTypeName type' ∧ candidate = localCandidate type')
    ∨ (∃ type', type' ∈ types
         ∧ name = namedTypeName type' ∧ candidate = localCandidate type').
Proof.
  unfold TypeCandidates.allAdditions. rewrite !elem_of_app, list_elem_of_join.
  apply or_iff_both; [|apply or_iff_both].
  - split.
    + intros (additions & Hin & (subschemaConfig & -> & Hconfig)%list_elem_of_fmap).
      by exists subschemaConfig.
    + intros (subschemaConfig & Hconfig & Hin). eexists. split; [done|].
      by apply list_elem_of_fmap_2.
  - destruct (typeDefsDocument typeDefs parseOptions) as [document|]; simpl.
    + unfold TypeCandidates.definedTypeAdditions. rewrite list_elem_of_omap. split.
      * intros (def & Hin & Hpick).
        destruct (typeFromAST def) as [type'|] eqn:Htype; [|discriminate].
        injection Hpick as <- <-. by exists document, def, type'.
      * intros (document' & def & type' & [= <-] & Hin & Htype & -> & ->).
        exists def. split; [done|]. by rewrite Htype.
    + split; [by intros ?%not_elem_of_nil|].
      by intros (? & ? & ? & ? & _).
  - unfold TypeCandidates.typeAdditions. rewrite list_elem_of_fmap. split.
    + intros (type' & [= -> ->] & Hin). by exists type'.
    + intros (type' & Hin & -> & ->). by exists type'.
Qed.

(** For each name, the candidates are those of the subschemas in the order
    of the list (for each subschema its root types, under the resolved
    operation type names, then the other types of its type map), then those
    of the type definitions, then those of [types]; a name with no candidate
    is not in the table. *)
Theorem buildTypeCandidates_in_order subschemaConfigs types typeDefs parseOptions
    transformedSchemas extensions directiveMap operationTypeNames mergeDirectives
    result name :
  buildTypeCandidates subschemaConfigs types typeDefs parseOptions transformedSchemas
    extensions directiveMap operationTypeNames mergeDirectives = Some result →
  resultTypeCandidates result !! name =
    match
      mjoin ((λ subschemaConfig,
                additionsFor name
                  (subschemaAdditions
                     (resolvedOperationTypeNames typeDefs parseOptions operationTypeNames)
                     subschemaConfig))
             <$> subschemaConfigs)
      ++ default []
           ((λ document,
               additionsFor name
                 (definedTypeAdditions (extractTypeDefinitions document)))
            <$> typeDefsDocument typeDefs parseOptions)
      ++ (localCandidate <$> filter (λ type', namedTypeName type' = name) types)
    with
    | [] => None
    | cands => Some cands
    end.
Proof.
  intros Hbuild.
  destruct (buildTypeCandidates_Some _ _ _ _ _ _ _ _ _ _ Hbuild) as (-> & _).
  rewrite addAll_empty_lookup. unfold TypeCandidates.allAdditions.
  rewrite !additionsFor_app, additionsFor_typeAdditions.
  assert (∀ additionLists : list (list (string * Candidate)),
            additionsFor name (mjoin additionLists)
            = mjoin (additionsFor name <$> additionLists)) as Hjoin.
  { induction additionLists as [|additions additionLists IH]; [done|].
    change (mjoin (?first :: ?rest)) with (first ++ mjoin rest).
    by rewrite additionsFor_app, IH. }
  rewrite Hjoin, <- list_fmap_compose.
  by destruct (typeDefsDocument typeDefs parseOptions).
Qed.

(** No candidate list of the table [buildTypeCandidates] leaves is empty, so
    the candidate selector of [buildTypeMap], with or without a conflict
    callback, has a candidate to return for every name of the table; and when
    [buildTypeMap] returns on that table, the type map has exactly the names
    under which a candidate was added. *)
Theorem buildTypeMap_after_buildTypeCandidates subschemaConfigs types typeDefs
    parseOptions transformedSchemas extensions directiveMap operationTypeNames
    mergeDirectives result :
  buildTypeCandidates subschemaConfigs types typeDefs parseOptions transformedSchemas
    extensions directiveMap operationTypeNames mergeDirectives = Some result →
  (∀ name cands,
     resultTypeCandidates result !! name = Some cands →
     cands ≠ []
     ∧ ∀ onTypeConflict : option (OnTypeConflict GraphQLNamedType GraphQLSchema),
         is_Some (candidateSelector onTypeConflict cands))
  ∧ (∀ (stitchingInfo : option (StitchingInfo MergedTypeInfo))
       (onTypeConflict : option (OnTypeConflict GraphQLNamedType GraphQLSchema))
       (mergeTypes : MergeTypes GraphQLNamedType GraphQLSchema SubschemaConfig)
       (typeMergingOptions : TypeMergingOptions) typeMap,
       buildTypeMap (resultTypeCandidates result) stitchingInfo
         (resultOperationTypeNames result) onTypeConflict mergeTypes typeMergingOptions
       = Some typeMap →
       ∀ name,
         is_Some (typeMap !! name)
         ↔ ∃ candidate,
             (name, candidate)
               ∈ allAdditions subschemaConfigs types typeDefs parseOptions
                   operationTypeNames).
Proof.
  intros Hbuild.
  destruct (buildTypeCandidates_Some _ _ _ _ _ _ _ _ _ _ Hbuild) as (Htable & _).
  assert (∀ name cands, resultTypeCandidates result !! name = Some cands → cands ≠ [])
    as Hnonempty.
  { intros name cands. rewrite Htable. intros Hin.
    by destruct (addAll_empty_elem_of _ _ _ Hin). }
  split.
  - intros name cands Hin. split; [by eapply Hnonempty|].
    intros onTypeConflict. apply candidateSelector_nonempty. by eapply Hnonempty.
  - intros stitchingInfo onTypeConflict mergeTypes typeMergingOptions typeMap Hmap name.
    rewrite (buildTypeMap_lookup isSpecifiedScalarType mergeCandidates _ _ _ _ _ _ _
               name Hmap), Htable, addAll_empty_lookup.
    destruct (additionsFor name _) as [|first rest] eqn:Hfor; simpl.
    + split; [by intros [? ?]|]. intros [candidate Hin].
      apply elem_of_additionsFor in Hin. rewrite Hfor in Hin.
      by apply not_elem_of_nil in Hin.
    + split.
      * intros _. exists first. apply elem_of_additionsFor. rewrite Hfor. by left.
      * intros _.
        destruct (buildTypeMap_Some_iff isSpecifiedScalarType mergeCandidates
                    (resultTypeCandidates result) stitchingInfo
                    (resultOperationTypeNames result) onTypeConflict mergeTypes
                    typeMergingOptions) as [Hrounds _].
        apply (Hrounds (mk_is_Some _ _ Hmap) name).
        by rewrite Htable, addAll_empty_lookup, Hfor.
Qed.

(** The root type a subschema has for an operation is a candidate under the
    name resolved for that operation, and the composite type of that name is
    merged from a candidate list that holds it, whatever the policy and the
    callback. *)
Theorem subschema_root_types_are_merged subschemaConfigs types typeDefs parseOptions
    transformedSchemas extensions directiveMap operationTypeNames mergeDirectives
    result subschemaConfig operation' type' :
  buildTypeCandidates subschemaConfigs types typeDefs parseOptions transformedSchemas
    extensions directiveMap operationTypeNames mergeDirectives = Some result →
  subschemaConfig ∈ subschemaConfigs →
  rootType operation' (wrapSchema subschemaConfig) = Some type' →
  ∃ cands,
    resultTypeCandidates result
      !! operationTypeName (resultOperationTypeNames result) (operationKey operation')
    = Some cands
    ∧ subschemaCandidate subschemaConfig type' ∈ cands
    ∧ ∀ rootName (stitchingInfo : option (StitchingInfo MergedTypeInfo))
        (onTypeConflict : option (OnTypeConflict GraphQLNamedType GraphQLSchema))
        (mergeTypes : MergeTypes GraphQLNamedType GraphQLSchema SubschemaConfig)
        (typeMergingOptions : TypeMergingOptions),
        resultOperationTypeNames result !! operationKey operation' = Some rootName →
        ∃ typeMap,
          buildTypeMap (resultTypeCandidates result) stitchingInfo
            (resultOperationTypeNames result) onTypeConflict mergeTypes typeMergingOptions
          = Some typeMap
          ∧ typeMap !! rootName = Some (mergeCandidates rootName cands typeMergingOptions).
Proof.
  intros Hbuild Hconfig Hroot.
  destruct (buildTypeCandidates_Some _ _ _ _ _ _ _ _ _ _ Hbuild) as (Htable & Hnames & _).
  assert ((operationTypeName (resultOperationTypeNames result) (operationKey operation'),
           subschemaCandidate subschemaConfig type')
          ∈ allAdditions subschemaConfigs types typeDefs parseOptions operationTypeNames)
    as Hadded.
  { apply elem_of_allAdditions. left. exists subschemaConfig. split; [done|].
    unfold TypeCandidates.subschemaAdditions. apply elem_of_app. left.
    apply elem_of_operationTypeAdditions. exists operation', type'.
    by rewrite Hnames. }
  pose proof (addAll_empty_lookup
                (allAdditions subschemaConfigs types typeDefs parseOptions operationTypeNames)
                (operationTypeName (resultOperationTypeNames result)
                   (operationKey operation'))) as Hlookup.
  apply elem_of_additionsFor in Hadded.
  destruct (additionsFor _ _) as [|first rest] eqn:Hfor;
    [by apply not_elem_of_nil in Hadded|].
  exists (first :: rest). split; [by rewrite Htable|]. split; [done|].
  intros rootName stitchingInfo onTypeConflict mergeTypes typeMergingOptions Hname.
  assert (∀ name cands, resultTypeCandidates result !! name = Some cands → cands ≠ [])
    as Hnonempty.
  { intros name cands. rewrite Htable. intros Hin.
    by destruct (addAll_empty_elem_of _ _ _ Hin). }
  destruct (buildTypeMap_returns isSpecifiedScalarType mergeCandidates
              (resultTypeCandidates result) stitchingInfo (resultOperationTypeNames result)
              onTypeConflict mergeTypes typeMergingOptions Hnonempty) as [typeMap Hmap].
  exists typeMap. split; [done|].
  rewrite (buildTypeMap_lookup isSpecifiedScalarType mergeCandidates _ _ _ _ _ _ _
             rootName Hmap), Htable.
  unfold operationTypeName in Hlookup. rewrite Hname in Hlookup. simpl in Hlookup.
  rewrite Hlookup. simpl. rewrite composeType_unfold, mergesCandidates_root; [done|].
  destruct operation'; simpl in Hname; auto.
Qed.

(** Every candidate of the table is one a subschema of the list contributed,
    with the wrapped schema of that subschema, or one without subschema.  A
    subschema's candidate is a root type under the name resolved for its
    operation, or a type that is no root type of that subschema, under its own
    name, which does not start with two underscores.  A candidate without
    subschema is under its own name. *)
Theorem buildTypeCandidates_candidate_origin subschemaConfigs types typeDefs parseOptions
    transformedSchemas extensions directiveMap operationTypeNames mergeDirectives
    result name cands (candidate : Candidate) :
  buildTypeCandidates subschemaConfigs types typeDefs parseOptions transformedSchemas
    extensions directiveMap operationTypeNames mergeDirectives = Some result →
  resultTypeCandidates result !! name = Some cands →
  candidate ∈ cands →
  schemaName candidate = None
  ∧ match subschema candidate with
    | Some subschemaConfig =>
      subschemaConfig ∈ subschemaConfigs
      ∧ transformedSchema candidate = Some (wrapSchema subschemaConfig)
      ∧ resultTransformedSchemas result subschemaConfig = Some (wrapSchema subschemaConfig)
      ∧ ((∃ operation',
            rootType operation' (wrapSchema subschemaConfig) = Some (type candidate)
            ∧ name = operationTypeName (resultOperationTypeNames result)
                       (operationKey operation'))
         ∨ (name = namedTypeName (type candidate)
            ∧ substring 0 2 name ≠ "__"
            ∧ ∀ operation',
                rootType operation' (wrapSchema subschemaConfig) ≠ Some (type candidate)))
    | None => name = namedTypeName (type candidate) ∧ transformedSchema candidate = None
    end.
Proof.
  clear isSpecifiedScalarType mergeCandidates.
  intros Hbuild Hcands Hin.
  destruct (buildTypeCandidates_Some _ _ _ _ _ _ _ _ _ _ Hbuild)
    as (Htable & Hnames & Hschemas & _).
  rewrite Htable in Hcands.
  destruct (addAll_empty_elem_of _ _ _ Hcands) as [_ Hadded].
  apply Hadded, elem_of_allAdditions in Hin.
  destruct Hin as [(subschemaConfig & Hconfig & Hin)
                  |[(document & def & type' & _ & _ & _ & -> & ->)
                   |(type' & _ & -> & ->)]]; [|done..].
  unfold TypeCandidates.subschemaAdditions in Hin.
  apply elem_of_app in Hin as [Hin|Hin].
  - apply elem_of_operationTypeAdditions in Hin
      as (operation' & type' & Hroot & -> & ->).
    simpl. split; [done|]. split; [done|]. split; [done|].
    split; [by rewrite Hschemas, decide_True|].
    left. exists operation'. by rewrite Hnames.
  - apply elem_of_typeMapAdditions in Hin
      as (typeName & type' & _ & Hown & -> & ->).
    apply isOwnTypeCandidate_true in Hown as [Hprefix Hroot].
    simpl. split; [done|]. split; [done|]. split; [done|].
    split; [by rewrite Hschemas, decide_True|]. by right.
Qed.

(** A type handed in through [types] goes last under its name: the last type
    of [types] with a name is the last candidate of that name, so with no
    conflict callback it is the composite type of a name that is not merged,
    whatever the subschemas and the type definitions contribute. *)
Theorem types_override_other_candidates subschemaConfigs types typeDefs parseOptions
    transformedSchemas extensions directiveMap operationTypeNames mergeDirectives
    result name winner :
  buildTypeCandidates subschemaConfigs types typeDefs parseOptions transformedSchemas
    extensions directiveMap operationTypeNames mergeDirectives = Some result →
  last (filter (λ type', namedTypeName type' = name) types) = Some winner →
  ∃ cands,
    resultTypeCandidates result !! name = Some cands
    ∧ last cands = Some (localCandidate winner)
    ∧ ∀ (stitchingInfo : option (StitchingInfo MergedTypeInfo))
        (mergeTypes : MergeTypes GraphQLNamedType GraphQLSchema SubschemaConfig)
        (typeMergingOptions : TypeMergingOptions),
        mergesCandidates stitchingInfo (resultOperationTypeNames result) mergeTypes
          name cands = false →
        ∃ typeMap,
          buildTypeMap (resultTypeCandidates result) stitchingInfo
            (resultOperationTypeNames result) None mergeTypes typeMergingOptions
          = Some typeMap
          ∧ typeMap !! name = Some winner.
Proof.
  intros Hbuild Hwinner.
  destruct (buildTypeCandidates_Some _ _ _ _ _ _ _ _ _ _ Hbuild) as (Htable & _).
  pose proof (addAll_empty_lookup
                (allAdditions subschemaConfigs types typeDefs parseOptions operationTypeNames)
                name) as Hlookup.
  assert (last (additionsFor name
                  (allAdditions subschemaConfigs types typeDefs parseOptions
                     operationTypeNames))
          = Some (localCandidate winner)) as Hlast.
  { unfold TypeCandidates.allAdditions.
    rewrite !additionsFor_app, additionsFor_typeAdditions, !last_app, fmap_last, Hwinner.
    done. }
  destruct (additionsFor _ _) as [|first rest] eqn:Hfor; [discriminate|].
  exists (first :: rest). split; [by rewrite Htable|]. split; [done|].
  intros stitchingInfo mergeTypes typeMergingOptions Hselect.
  assert (∀ name cands, resultTypeCandidates result !! name = Some cands → cands ≠ [])
    as Hnonempty.
  { intros name' cands. rewrite Htable. intros Hin.
    by destruct (addAll_empty_elem_of _ _ _ Hin). }
  destruct (buildTypeMap_returns isSpecifiedScalarType mergeCandidates
              (resultTypeCandidates result) stitchingInfo (resultOperationTypeNames result)
              None mergeTypes typeMergingOptions Hnonempty) as [typeMap Hmap].
  exists typeMap. split; [done|].
  rewrite (buildTypeMap_lookup isSpecifiedScalarType mergeCandidates _ _ _ _ _ _ _
             name Hmap), Htable, Hlookup. simpl.
  rewrite composeType_unfold, Hselect. simpl.
  by rewrite lastCandidate_last, Hlast.
Qed.

(** *** Directives, extensions and failure *)

Local Abbreviation addDirectives := (addDirectives directiveName).
Local Abbreviation addDefinedDirectives :=
  (addDefinedDirectives directiveName definitions directiveFromAST).

Lemma addDirectives_lookup directives directiveMap name :
  addDirectives directives directiveMap !! name =
    match last (filter (λ directive, directiveName directive = name) directives) with
    | Some directive => Some directive
    | None => directiveMap !! name
    end.
Proof.
  unfold TypeCandidates.addDirectives.
  induction directives as [|directive directives IH] using rev_ind; [done|].
  rewrite foldl_snoc, filter_app, last_app, filter_cons.
  destruct (decide (directiveName directive = name)) as [<-|Hne].
  - by rewrite lookup_insert_eq.
  - by rewrite lookup_insert_ne.
Qed.

Lemma addDefinedDirectives_spec directivesDocument directiveMap :
  (Forall (λ def, is_Some (directiveFromAST def)) (definitions directivesDocument) →
   addDefinedDirectives directivesDocument directiveMap
   = Some (addDirectives (omap directiveFromAST (definitions directivesDocument))
             directiveMap))
  ∧ (Exists (λ def, directiveFromAST def = None) (definitions directivesDocument) →
     addDefinedDirectives directivesDocument directiveMap = None).
Proof.
  unfold TypeCandidates.addDefinedDirectives, TypeCandidates.addDirectives.
  set (step := λ (directiveMap : option (gmap string GraphQLDirective)) def,
         directiveMap ← directiveMap;
         directive ← directiveFromAST def;
         Some (<[directiveName directive := directive]> directiveMap)).
  assert (∀ defs, foldl step None defs = None) as Hnone
    by (induction defs as [|def defs IH]; [done | apply IH]).
  revert directiveMap.
  induction (definitions directivesDocument) as [|def defs IH]; intros directiveMap.
  - split; [done | by intros ?%Exists_nil].
  - split.
    + intros [[directive Hdirective] Hall]%Forall_cons. simpl.
      rewrite Hdirective. simpl. by apply IH.
    + intros [Hdef|Hrest]%Exists_cons; simpl.
      * by rewrite Hdef.
      * destruct (directiveFromAST def) as [directive|]; simpl; [by apply IH | done].
Qed.

(** All directives a call writes to the directive map, in the order it
    writes them. *)
Definition writtenDirectives subschemaConfigs typeDefs parseOptions mergeDirectives
    : list GraphQLDirective :=
  (if mergeDirectives
   then mjoin ((λ subschemaConfig, getDirectives (wrapSchema subschemaConfig))
               <$> subschemaConfigs)
   else [])
  ++ default []
       ((λ document,
           omap directiveFromAST (definitions (extractDirectiveDefinitions document)))
        <$> typeDefsDocument typeDefs parseOptions).

Lemma buildTypeCandidates_unfold subschemaConfigs types typeDefs parseOptions
    transformedSchemas extensions directiveMap operationTypeNames mergeDirectives :
  buildTypeCandidates subschemaConfigs types typeDefs parseOptions transformedSchemas
    extensions directiveMap operationTypeNames mergeDirectives
  = let after :=
      foldl (addSubschema
               (resolvedOperationTypeNames typeDefs parseOptions operationTypeNames)
               mergeDirectives)
            (∅, transformedSchemas, directiveMap) subschemaConfigs in
    match typeDefsDocument typeDefs parseOptions with
    | Some document =>
      directiveMap' ←
        addDefinedDirectives (extractDirectiveDefinitions document) after.2;
      Some (mkTypeCandidatesResult
              (addTypes namedTypeName types
                 (addDefinedTypes namedTypeName definitions typeFromAST
                    (extractTypeDefinitions document) after.1.1))
              after.1.2
              (if (0 <? length (definitions (extractTypeExtensionDefinitions document)))%nat
               then extensions ++ [extractTypeExtensionDefinitions document]
               else extensions)
              directiveMap'
              (extractSchemaDefinition document)
              (extractSchemaExtensions document)
              (resolvedOperationTypeNames typeDefs parseOptions operationTypeNames))
    | None =>
      Some (mkTypeCandidatesResult (addTypes namedTypeName types after.1.1) after.1.2
              extensions after.2 None []
              (resolvedOperationTypeNames typeDefs parseOptions operationTypeNames))
    end.
Proof.
  unfold TypeCandidates.buildTypeCandidates, TypeCandidates.resolvedOperationTypeNames,
    TypeCandidates.typeDefsDocument.
  destruct (hasTypeDefs typeDefs); simpl;
    by destruct (foldl _ _ subschemaConfigs) as [[table schemas] directives].
Qed.

(** With no type definitions, a call that returns leaves [extensions] and
    [operationTypeNames] as they were, sets [schemaDefs] to no definition and
    no extension, and, unless directives are merged, leaves the directive map
    as it was; the schema recorded for a subschema that is not in the list
    stays. *)
Theorem buildTypeCandidates_without_typeDefs subschemaConfigs types typeDefs parseOptions
    transformedSchemas extensions directiveMap operationTypeNames mergeDirectives result :
  hasTypeDefs typeDefs = false →
  buildTypeCandidates subschemaConfigs types typeDefs parseOptions transformedSchemas
    extensions directiveMap operationTypeNames mergeDirectives = Some result →
  resultExtensions result = extensions
  ∧ resultOperationTypeNames result = operationTypeNames
  ∧ resultSchemaDef result = None
  ∧ resultSchemaExtensions result = []
  ∧ (mergeDirectives = false → resultDirectiveMap result = directiveMap)
  ∧ (∀ subschemaConfig,
       subschemaConfig ∉ subschemaConfigs →
       resultTransformedSchemas result subschemaConfig
       = transformedSchemas subschemaConfig).
Proof.
  intros Hnone. rewrite buildTypeCandidates_unfold.
  unfold TypeCandidates.resolvedOperationTypeNames, TypeCandidates.typeDefsDocument.
  rewrite Hnone. simpl.
  destruct (foldl_addSubschema (setOperationTypeNames None [] operationTypeNames)
              mergeDirectives subschemaConfigs ∅ transformedSchemas directiveMap)
    as (_ & Hschemas & Hdirectives).
  intros [= <-]. simpl.
  split; [done|]. split; [done|]. split; [done|]. split; [done|]. split.
  - intros ->. by rewrite Hdirectives.
  - intros subschemaConfig Hnotin. by rewrite Hschemas, decide_False.
Qed.

(** Where [typeFromAST] returns [null] for a type definition the definition
    is skipped; for a directive definition the [null] is not looked for: with
    type definitions one of whose directive definitions gives [null], the
    call throws. *)
Theorem buildTypeCandidates_null_directive_throws subschemaConfigs types typeDefs
    parseOptions transformedSchemas extensions directiveMap operationTypeNames
    mergeDirectives document def :
  typeDefsDocument typeDefs parseOptions = Some document →
  def ∈ definitions (extractDirectiveDefinitions document) →
  directiveFromAST def = None →
  buildTypeCandidates subschemaConfigs types typeDefs parseOptions transformedSchemas
    extensions directiveMap operationTypeNames mergeDirectives = None.
Proof.
  intros Hdocument Hin Hdef.
  rewrite buildTypeCandidates_unfold. cbv zeta. rewrite Hdocument.
  set (after := foldl _ _ subschemaConfigs).
  destruct (addDefinedDirectives_spec (extractDirectiveDefinitions document) after.2)
    as [_ Hthrows].
  rewrite Hthrows; [done|]. apply Exists_exists. by exists def.
Qed.

(** Under each name the directive map holds the last directive of that name
    the call wrote, and what it held before when the call wrote none: the
    directives of the subschemas, in the order of the list, are written only
    when directives are merged, and those of the type definitions after them. *)
Theorem buildTypeCandidates_directives subschemaConfigs types typeDefs parseOptions
    transformedSchemas extensions directiveMap operationTypeNames mergeDirectives
    result name :
  buildTypeCandidates subschemaConfigs types typeDefs parseOptions transformedSchemas
    extensions directiveMap operationTypeNames mergeDirectives = Some result →
  resultDirectiveMap result !! name =
    match last (filter (λ directive, directiveName directive = name)
                  (writtenDirectives subschemaConfigs typeDefs parseOptions
                     mergeDirectives)) with
    | Some directive => Some directive
    | None => directiveMap !! name
    end.
Proof.
  rewrite buildTypeCandidates_unfold. cbv zeta. unfold writtenDirectives.
  destruct (foldl_addSubschema
              (resolvedOperationTypeNames typeDefs parseOptions operationTypeNames)
              mergeDirectives subschemaConfigs ∅ transformedSchemas directiveMap)
    as (_ & _ & Hdirectives).
  set (after := foldl _ _ subschemaConfigs) in *.
  assert (after.2 !! name =
          match last (filter (λ directive, directiveName directive = name)
                        (if mergeDirectives
                         then mjoin ((λ subschemaConfig,
                                        getDirectives (wrapSchema subschemaConfig))
                                     <$> subschemaConfigs)
                         else [])) with
          | Some directive => Some directive
          | None => directiveMap !! name
          end) as Hbefore.
  { rewrite Hdirectives. destruct mergeDirectives; [|done]. apply addDirectives_lookup. }
  destruct (typeDefsDocument typeDefs parseOptions) as [document|]; simpl.
  - destruct (addDefinedDirectives_spec (extractDirectiveDefinitions document) after.2)
      as [Hall Hsome].
    destruct (decide (Exists (λ def, directiveFromAST def = None)
                        (definitions (extractDirectiveDefinitions document))))
      as [Hexists|Hnot].
    + rewrite (Hsome Hexists). discriminate.
    + rewrite Hall.
      * simpl. intros [= <-]. simpl.
        rewrite addDirectives_lookup, filter_app, last_app, Hbefore.
        by destruct (last (filter _ (omap directiveFromAST _))).
      * apply Forall_forall. intros def Hin.
        destruct (directiveFromAST def) as [directive|] eqn:Hdef; [by eexists|].
        exfalso. apply Hnot, Exists_exists. by exists def.
  - intros [= <-]. simpl. by rewrite app_nil_r.
Qed.

End buildTypeCandidatesFacts.

(** ** The properties of buildTypeCandidates on two subschemas

    A type is named by the schema it belongs to and its name, a schema and a
    subschema by a string, a document by the kinds and names of its
    definitions.  The subschema [users] calls its query type [UserQuery] and
    has a mutation type; [widgets] has a query type only; both have a type
    [User]; the type definitions name [RootQuery] as the query type and
    declare two types and a directive. *)

Definition stitchedSchemaTypes (schema : string) : list string :=
  if decide (schema = "users")
  then ["UserQuery"; "Mutation"; "User"; "__Schema"; "ID"]
  else ["Query"; "Widget"; "User"; "__Type"].

Definition stitchedGetTypeMap (schema : string) : list (string * (string * string)) :=
  (λ name, (name, (schema, name))) <$> stitchedSchemaTypes schema.

Definition stitchedGetQueryType (schema : string) : option (string * string) :=
  Some (schema, if decide (schema = "users") then "UserQuery" else "Query").

Definition stitchedGetMutationType (schema : string) : option (string * string) :=
  if decide (schema = "users") then Some (schema, "Mutation") else None.

Definition stitchedGetSubscriptionType (schema : string) : option (string * string) :=
  None.

Definition stitchedDocument : list (string * string) :=
  [("type", "Extra"); ("type", "User"); ("directive", "auth"); ("extend", "User")].

Definition stitchedDefinitionsOf (kind : string) (document : list (string * string))
    : list (string * string) :=
  filter (λ def, def.1 = kind) document.

Definition stitchedIsSpecifiedScalarType (type : string * string) : bool :=
  bool_decide (type.2 ∈ ["String"; "Int"; "Float"; "Boolean"; "ID"]).

Definition stitchedMergeCandidates (typeName : string)
    (cands : list (MergeTypeCandidate (string * string) string string)) (options : unit)
    : string * string :=
  ("merged", String.concat "+" ((λ cand, (TypeCandidates.type cand).1) <$> cands)).

(** The call on the two subschemas, one extra type, the type definitions,
    merging directives. *)
Definition stitchedCall (typeDefs : ITypeDefinitions unit) (mergeDirectives : bool)
    : option (TypeCandidatesResult (string * string) string string (string * string)
                (list (string * string))) :=
  buildTypeCandidates (λ type, type.2) (λ directive, directive.2) (λ config, config)
    stitchedGetQueryType stitchedGetMutationType stitchedGetSubscriptionType
    (λ schema, [(schema, "cached")]) stitchedGetTypeMap
    (λ typeDefs parseOptions, stitchedDocument)
    (λ document, Some (mkSchemaDefinition (Some [mkOperationType OpQuery "RootQuery"])))
    (λ document, []) (stitchedDefinitionsOf "type") (stitchedDefinitionsOf "directive")
    (stitchedDefinitionsOf "extend") (λ document, document)
    (λ def, Some ("typeDefs", def.2)) (λ def, Some ("typeDefs", def.2))
    ["users"; "widgets"] [("types", "Widget")] typeDefs tt (λ config, None) [] ∅
    sampleOperationTypeNames mergeDirectives.

Definition stitched : option (TypeCandidatesResult (string * string) string string
                                (string * string) (list (string * string))) :=
  stitchedCall (TypeDefsArray [TypedefOther tt]) true.

Example stitched_table :
  resultTypeCandidates <$> stitched
  = Some {[ "RootQuery" := [mkCandidate ("users", "UserQuery") (Some "users") (Some "users") None;
                            mkCandidate ("widgets", "Query") (Some "widgets") (Some "widgets") None];
            "Mutation" := [mkCandidate ("users", "Mutation") (Some "users") (Some "users") None];
            "User" := [mkCandidate ("users", "User") (Some "users") (Some "users") None;
                       mkCandidate ("widgets", "User") (Some "widgets") (Some "widgets") None;
                       mkCandidate ("typeDefs", "User") None None None];
            "ID" := [mkCandidate ("users", "ID") (Some "users") (Some "users") None];
            "Widget" := [mkCandidate ("widgets", "Widget") (Some "widgets") (Some "widgets") None;
                         mkCandidate ("types", "Widget") None None None];
            "Extra" := [mkCandidate ("typeDefs", "Extra") None None None] ]}.
Proof. vm_compute. reflexivity. Qed.

Lemma buildTypeCandidates_in_order_witness :
  match stitched with
  | Some result =>
    resultTypeCandidates result !! "User"
    = Some [mkCandidate ("users", "User") (Some "users") (Some "users") None;
            mkCandidate ("widgets", "User") (Some "widgets") (Some "widgets") None;
            mkCandidate ("typeDefs", "User") None None None]
  | None => False
  end.
Proof.
  destruct stitched as [result|] eqn:Hbuild; [|by vm_compute in Hbuild].
  unfold stitched, stitchedCall in Hbuild.
  rewrite (buildTypeCandidates_in_order _ _ _ _ _ _ _ _ _ _ _ _ _ _ _ _ _ _ _ _ _ _ _ _ _ _ _
             "User" Hbuild).
  vm_compute. reflexivity.
Defined.

Lemma buildTypeMap_after_buildTypeCandidates_witness :
  match stitched with
  | Some result =>
    ∀ name cands,
      resultTypeCandidates result !! name = Some cands →
      cands ≠ []
      ∧ ∀ onTypeConflict : option (OnTypeConflict (string * string) string),
          is_Some (candidateSelector onTypeConflict cands)
  | None => False
  end.
Proof.
  destruct stitched as [result|] eqn:Hbuild; [|by vm_compute in Hbuild].
  unfold stitched, stitchedCall in Hbuild.
  apply (buildTypeMap_after_buildTypeCandidates (MergedTypeInfo := unit)
           stitchedIsSpecifiedScalarType stitchedMergeCandidates
           _ _ _ _ _ _ _ _ _ _ _ _ _ _ _ _ _ _ _ _ _ _ _ _ _ _ _ Hbuild).
Defined.

Lemma subschema_root_types_are_merged_witness :
  match stitched with
  | Some result =>
    ∃ cands typeMap,
      resultTypeCandidates result !! "RootQuery" = Some cands
      ∧ mkCandidate ("users", "UserQuery") (Some "users") (Some "users") None ∈ cands
      ∧ buildTypeMap stitchedIsSpecifiedScalarType stitchedMergeCandidates
          (resultTypeCandidates result) (None : option (StitchingInfo unit))
          (resultOperationTypeNames result) None (MergeTypesBoolean false) tt
        = Some typeMap
      ∧ typeMap !! "RootQuery" = Some (stitchedMergeCandidates "RootQuery" cands tt)
  | None => False
  end.
Proof.
  destruct stitched as [result|] eqn:Hbuild; [|by vm_compute in Hbuild].
  unfold stitched, stitchedCall in Hbuild.
  destruct (subschema_root_types_are_merged (MergedTypeInfo := unit)
              stitchedIsSpecifiedScalarType stitchedMergeCandidates
              _ _ _ _ _ _ _ _ _ _ _ _ _ _ _ _ _ _ _ _ _ _ _ _ _ _ _
              "users" OpQuery ("users", "UserQuery") Hbuild)
    as (cands & Hcands & Hin & Hmerged).
  - set_solver.
  - reflexivity.
  - assert (resultOperationTypeNames result !! "query" = Some "RootQuery") as Hname.
    { vm_compute in Hbuild. injection Hbuild as <-. reflexivity. }
    destruct (Hmerged "RootQuery" None None (MergeTypesBoolean false) tt Hname)
      as (typeMap & Hmap & Hroot).
    exists cands, typeMap. unfold operationTypeName in Hcands. simpl in Hcands.
    rewrite Hname in Hcands. done.
Defined.

Lemma buildTypeCandidates_candidate_origin_witness :
  match stitched with
  | Some result =>
    resultTransformedSchemas result "widgets" = Some "widgets"
    ∧ ((∃ operation',
          rootType stitchedGetQueryType stitchedGetMutationType
            stitchedGetSubscriptionType operation' "widgets" = Some ("widgets", "User")
          ∧ "User" = operationTypeName (resultOperationTypeNames result)
                       (operationKey operation'))
       ∨ ("User" = "User"
          ∧ substring 0 2 "User" ≠ "__"
          ∧ ∀ operation',
              rootType stitchedGetQueryType stitchedGetMutationType
                stitchedGetSubscriptionType operation' "widgets"
              ≠ Some ("widgets", "User")))
  | None => False
  end.
Proof.
  destruct stitched as [result|] eqn:Hbuild; [|by vm_compute in Hbuild].
  unfold stitched, stitchedCall in Hbuild.
  destruct (buildTypeCandidates_candidate_origin
              _ _ _ _ _ _ _ _ _ _ _ _ _ _ _ _ _ _ _ _ _ _ _ _ _ _ _
              "User"
              [mkCandidate ("users", "User") (Some "users") (Some "users") None;
               mkCandidate ("widgets", "User") (Some "widgets") (Some "widgets") None;
               mkCandidate ("typeDefs", "User") None None None]
              (mkCandidate ("widgets", "User") (Some "widgets") (Some "widgets") None)
              Hbuild)
    as (_ & _ & _ & Hschema & Horigin).
  - vm_compute in Hbuild. injection Hbuild as <-. vm_compute. reflexivity.
  - set_solver.
  - done.
Defined.

Lemma types_override_other_candidates_witness :
  match stitched with
  | Some result =>
    ∃ cands typeMap,
      resultTypeCandidates result !! "Widget" = Some cands
      ∧ last cands = Some (mkCandidate ("types", "Widget") None None None)
      ∧ buildTypeMap stitchedIsSpecifiedScalarType stitchedMergeCandidates
          (resultTypeCandidates result) (None : option (StitchingInfo unit))
          (resultOperationTypeNames result) None (MergeTypesBoolean false) tt
        = Some typeMap
      ∧ typeMap !! "Widget" = Some ("types", "Widget")
  | None => False
  end.
Proof.
  destruct stitched as [result|] eqn:Hbuild; [|by vm_compute in Hbuild].
  unfold stitched, stitchedCall in Hbuild.
  destruct (types_override_other_candidates (MergedTypeInfo := unit)
              stitchedIsSpecifiedScalarType stitchedMergeCandidates
              _ _ _ _ _ _ _ _ _ _ _ _ _ _ _ _ _ _ _ _ _ _ _ _ _ _ _
              "Widget" ("types", "Widget") Hbuild)
    as (cands & Hcands & Hlast & Hselected).
  - reflexivity.
  - destruct (Hselected None (MergeTypesBoolean false) tt) as (typeMap & Hmap & Hwinner).
    + assert (resultOperationTypeNames result
              = {[ "query" := "RootQuery"; "mutation" := "Mutation";
                   "subscription" := "Subscription" ]}) as ->.
      { vm_compute in Hbuild. injection Hbuild as <-. vm_compute. reflexivity. }
      reflexivity.
    + by exists cands, typeMap.
Defined.

Lemma buildTypeCandidates_without_typeDefs_witness :
  match stitchedCall TypeDefsUndefined false with
  | Some result =>
    resultExtensions result = []
    ∧ resultOperationTypeNames result = sampleOperationTypeNames
    ∧ resultDirectiveMap result = ∅
  | None => False
  end.
Proof.
  destruct (stitchedCall TypeDefsUndefined false) as [result|] eqn:Hbuild;
    [|by vm_compute in Hbuild].
  unfold stitchedCall in Hbuild.
  pose proof (λ Hnone, buildTypeCandidates_without_typeDefs
                         _ _ _ _ _ _ _ _ _ _ _ _ _ _ _ _ _ _ _ _ _ _ _ _ _ _ _
                         Hnone Hbuild) as Hframe.
  destruct (Hframe eq_refl) as (Hextensions & Hnames & _ & _ & Hdirectives & _).
  split; [done|]. split; [done|]. by apply Hdirectives.
Defined.

Lemma buildTypeCandidates_directives_witness :
  match stitched with
  | Some result =>
    resultDirectiveMap result !! "cached" = Some ("widgets", "cached")
    ∧ resultDirectiveMap result !! "auth" = Some ("typeDefs", "auth")
  | None => False
  end.
Proof.
  destruct stitched as [result|] eqn:Hbuild; [|by vm_compute in Hbuild].
  unfold stitched, stitchedCall in Hbuild.
  rewrite !(buildTypeCandidates_directives
              _ _ _ _ _ _ _ _ _ _ _ _ _ _ _ _ _ _ _ _ _ _ _ _ _ _ _ _ Hbuild).
  split; vm_compute; reflexivity.
Defined.

Lemma buildTypeCandidates_null_directive_throws_witness :
  buildTypeCandidates (λ type, type.2) (λ directive, directive.2) (λ config, config)
    stitchedGetQueryType stitchedGetMutationType stitchedGetSubscriptionType
    (λ schema, [(schema, "cached")]) stitchedGetTypeMap
    (λ typeDefs parseOptions, stitchedDocument)
    (λ document, None) (λ document, []) (stitchedDefinitionsOf "type")
    (stitchedDefinitionsOf "directive") (stitchedDefinitionsOf "extend")
    (λ document, document) (λ def, Some ("typeDefs", def.2)) (λ def, None)
    ["users"; "widgets"] []
    (TypeDefsOne (TypedefString (TypedefObject := unit) "directive @auth on FIELD")) tt
    (λ config, None) [] ∅ sampleOperationTypeNames false
  = None.
Proof.
  apply (buildTypeCandidates_null_directive_throws
           _ _ _ _ _ _ _ _ _ _ _ _ _ _ _ _ _ _ _ _ _ _ _ _ _ _
           stitchedDocument ("directive", "auth")).
  - reflexivity.
  - vm_compute. by left.
  - reflexivity.
Defined.

End TypeCandidatesFacts.


(* ===================================================================== *)
(** * Properties of WrapType *)
(* ===================================================================== *)

Module WrapTypeFacts.
Import WrapType.

Section facts.

Context {GraphQLSchema SubschemaConfig Request ExecutionResult : Type}.
Context {DelegationContext TransformationContext : Type}.

Local Abbreviation Transform :=
  (Transform GraphQLSchema SubschemaConfig Request ExecutionResult
     DelegationContext TransformationContext).
Local Abbreviation Call :=
  (Call GraphQLSchema SubschemaConfig Request ExecutionResult
     DelegationContext TransformationContext).

Variable WrapFields : string → list string → list string → Transform.

Lemma invoke_WrapType outerTypeName innerTypeName fieldName
    (this : state (WrapFields outerTypeName [fieldName] [innerTypeName])) (call : Call) :
  invoke (WrapType WrapFields outerTypeName innerTypeName fieldName) this call
  = invoke (WrapFields outerTypeName [fieldName] [innerTypeName]) this call.
Proof. by destruct call. Qed.

Lemma replies_WrapType outerTypeName innerTypeName fieldName (calls : list Call) :
  ∀ this : state (WrapFields outerTypeName [fieldName] [innerTypeName]),
    replies (WrapType WrapFields outerTypeName innerTypeName fieldName) this calls
    = replies (WrapFields outerTypeName [fieldName] [innerTypeName]) this calls.
Proof.
  induction calls as [|call calls IH]; intros this; [done|].
  cbn [replies]. rewrite invoke_WrapType.
  destruct (invoke (WrapFields outerTypeName [fieldName] [innerTypeName]) this call)
    as [reply this'].
  by rewrite IH.
Qed.

(** C8: a [WrapType] built from an outer type name, an inner type name and a
    field name answers every call as the [WrapFields] built from the outer
    type name, the one field name and the one inner type name does: each of
    the three methods returns what that transformer's method returns from the
    same state, and so any sequence of calls on a new [WrapType] is answered
    as the same sequence on a new [WrapFields]. *)
Theorem WrapType_is_WrapFields outerTypeName innerTypeName fieldName :
  (∀ this schema subschemaConfig,
     transformSchema (WrapType WrapFields outerTypeName innerTypeName fieldName)
       this schema subschemaConfig
     = transformSchema (WrapFields outerTypeName [fieldName] [innerTypeName])
         this schema subschemaConfig)
  ∧ (∀ this request delegationContext transformationContext,
       transformRequest (WrapType WrapFields outerTypeName innerTypeName fieldName)
         this request delegationContext transformationContext
       = transformRequest (WrapFields outerTypeName [fieldName] [innerTypeName])
           this request delegationContext transformationContext)
  ∧ (∀ this result delegationContext transformationContext,
       transformResult (WrapType WrapFields outerTypeName innerTypeName fieldName)
         this result delegationContext transformationContext
       = transformResult (WrapFields outerTypeName [fieldName] [innerTypeName])
           this result delegationContext transformationContext)
  ∧ (∀ calls,
       observe (WrapType WrapFields outerTypeName innerTypeName fieldName) calls
       = observe (WrapFields outerTypeName [fieldName] [innerTypeName]) calls).
Proof.
  split; [done|]. split; [done|]. split; [done|].
  intros calls. unfold observe. apply replies_WrapType.
Qed.

End facts.

(** ** On a transformer that records what it was built with

    The stand-in for [WrapFields] answers each call with the names it was
    constructed from and counts its calls, so the order of the constructor's
    arguments and the state handed on both show in the replies. *)
Definition sampleWrapFields (outerTypeName : string)
    (wrappingFieldNames wrappingTypeNames : list string)
    : Transform (list string) unit (list string) (list string) unit unit :=
  {| state := nat;
     constructed := 0%nat;
     transformSchema := λ this schema _,
       (schema ++ outerTypeName :: wrappingTypeNames, S this);
     transformRequest := λ this request _ _,
       (request ++ pretty this :: wrappingFieldNames, S this);
     transformResult := λ this result _ _,
       (result ++ pretty this :: outerTypeName :: wrappingFieldNames, S this) |}.

Example WrapType_sample :
  observe (WrapType sampleWrapFields "Query" "UserQueries" "users")
    [CallTransformSchema [] None; CallTransformRequest [] tt tt;
     CallTransformResult [] tt tt]
  = [ReplySchema ["Query"; "UserQueries"]; ReplyRequest ["1"; "users"];
     ReplyResult ["2"; "Query"; "users"]].
Proof. reflexivity. Qed.

End WrapTypeFacts.

(* ===================================================================== *)
(** * Properties of TransformRootFields *)
(* ===================================================================== *)

Module TransformRootFieldsFacts.
Import TransformRootFields.

Section facts.

Context {GraphQLSchema SubschemaConfig Request ExecutionResult : Type}.
Context {DelegationContext TransformationContext : Type}.
Context {GraphQLNamedType GraphQLFieldConfig FieldTransformerResult : Type}.
Context {FieldNodeTransformer : Type}.

Local Abbreviation Transform :=
  (WrapType.Transform GraphQLSchema SubschemaConfig Request ExecutionResult
     DelegationContext TransformationContext).
Local Abbreviation Call :=
  (WrapType.Call GraphQLSchema SubschemaConfig Request ExecutionResult
     DelegationContext TransformationContext).
Local Abbreviation TransformRootFields :=
  (TransformRootFields GraphQLSchema SubschemaConfig Request ExecutionResult
     DelegationContext TransformationContext GraphQLFieldConfig FieldTransformerResult
     FieldNodeTransformer).

Variable getQueryType : GraphQLSchema → option GraphQLNamedType.
Variable getMutationType : GraphQLSchema → option GraphQLNamedType.
Variable getSubscriptionType : GraphQLSchema → option GraphQLNamedType.
Variable namedTypeName : GraphQLNamedType → string.
Variable undefinedResult : FieldTransformerResult.
Variable TransformObjectFields :
  (string → string → GraphQLFieldConfig → FieldTransformerResult)
  → option FieldNodeTransformer → Transform.

Local Abbreviation rootToObjectFieldTransformer :=
  (rootToObjectFieldTransformer getQueryType getMutationType getSubscriptionType
     namedTypeName undefinedResult).
Local Abbreviation replies :=
  (replies getQueryType getMutationType getSubscriptionType namedTypeName
     undefinedResult TransformObjectFields).

Lemma replies_with_transformer rootFieldTransformer fieldNodeTransformer
    (object : Transform) (calls : list Call) :
  Forall isDelegationCall calls →
  ∀ state : WrapType.state object,
    replies (mkTransformRootFields rootFieldTransformer fieldNodeTransformer
               (Some (existT object state))) calls
    = Some (WrapType.replies object state calls).
Proof.
  induction 1 as [|call calls Hcall Hcalls IH]; intros state; [done|].
  destruct call as [schema subschemaConfig|request delegationContext transformationContext
                   |result delegationContext transformationContext]; [done| |].
  - cbn [TransformRootFields.replies WrapType.replies]. unfold invoke, WrapType.invoke,
      transformRequest. simpl.
    destruct (WrapType.transformRequest object state request delegationContext
                transformationContext) as [request' state'].
    simpl. by rewrite IH.
  - cbn [TransformRootFields.replies WrapType.replies]. unfold invoke, WrapType.invoke,
      transformResult. simpl.
    destruct (WrapType.transformResult object state result delegationContext
                transformationContext) as [result' state'].
    simpl. by rewrite IH.
Qed.

(** On a new object a call of [transformRequest] or [transformResult]
    throws.  A call of [transformSchema] on an object in any state, followed
    by calls of the other two methods, is answered as a new
    [TransformObjectFields] answers the same calls, one built with the
    dispatcher for that schema and the field node transformer of the object:
    what the object did before the [transformSchema] call plays no part. *)
Theorem TransformRootFields_delegates (this : TransformRootFields)
    (schema : GraphQLSchema) (subschemaConfig : option SubschemaConfig)
    (calls : list Call) :
  Forall isDelegationCall calls →
  replies this (WrapType.CallTransformSchema schema subschemaConfig :: calls)
  = Some (WrapType.observe
            (TransformObjectFields (rootToObjectFieldTransformer this schema)
               (fieldNodeTransformer this))
            (WrapType.CallTransformSchema schema subschemaConfig :: calls))
  ∧ ∀ call,
      isDelegationCall call →
      replies (new (rootFieldTransformer this) (fieldNodeTransformer this))
        (call :: calls) = None.
Proof.
  intros Hcalls. split.
  - unfold WrapType.observe.
    cbn [TransformRootFields.replies WrapType.replies]. unfold invoke, WrapType.invoke,
      transformSchema.
    destruct (WrapType.transformSchema _ _ schema subschemaConfig) as [schema' state].
    simpl. by rewrite replies_with_transformer.
  - by intros [| |].
Qed.

(** The dispatcher hands a field to the callback only for a type whose name
    is that of a root type of the schema, with the first of [Query],
    [Mutation] and [Subscription] whose root type has that name; for every
    other type name it returns [undefined], whatever the callback. *)
Lemma rootToObjectFieldTransformer_dispatch (this : TransformRootFields)
    (schema : GraphQLSchema) typeName fieldName (fieldConfig : GraphQLFieldConfig) :
  ((∀ root, root ∈ [getQueryType schema; getMutationType schema;
                    getSubscriptionType schema] →
      namedTypeName <$> root ≠ Some typeName) →
   rootToObjectFieldTransformer this schema typeName fieldName fieldConfig
   = undefinedResult)
  ∧ (namedTypeName <$> getQueryType schema = Some typeName →
     rootToObjectFieldTransformer this schema typeName fieldName fieldConfig
     = rootFieldTransformer this Query fieldName fieldConfig)
  ∧ (namedTypeName <$> getQueryType schema ≠ Some typeName →
     namedTypeName <$> getMutationType schema = Some typeName →
     rootToObjectFieldTransformer this schema typeName fieldName fieldConfig
     = rootFieldTransformer this Mutation fieldName fieldConfig)
  ∧ (namedTypeName <$> getQueryType schema ≠ Some typeName →
     namedTypeName <$> getMutationType schema ≠ Some typeName →
     namedTypeName <$> getSubscriptionType schema = Some typeName →
     rootToObjectFieldTransformer this schema typeName fieldName fieldConfig
     = rootFieldTransformer this Subscription fieldName fieldConfig).
Proof.
  unfold TransformRootFields.rootToObjectFieldTransformer. cbv zeta.
  split; [|split; [|split]].
  - intros Hnone.
    case_decide as Hquery;
      [exfalso; symmetry in Hquery; revert Hquery; apply Hnone; by left|].
    case_decide as Hmutation;
      [exfalso; symmetry in Hmutation; revert Hmutation; apply Hnone; by right; left|].
    case_decide as Hsubscription; [|done].
    exfalso. symmetry in Hsubscription. revert Hsubscription. apply Hnone.
    by do 2 right; left.
  - intros Hquery. by rewrite decide_True.
  - intros Hquery Hmutation. by rewrite decide_False, decide_True.
  - intros Hquery Hmutation Hsubscription.
    by rewrite decide_False, decide_False, decide_True.
Qed.

End facts.

(** ** On a transformer that records what it is asked

    A schema is the list of its type names, the first being its query type;
    the stand-in for [TransformObjectFields] answers [transformSchema] with
    what the field transformer returns for the field [f] of each type, and
    counts its calls. *)
Definition sampleTransformObjectFields
    (objectFieldTransformer : string → string → unit → string)
    (fieldNodeTransformer : option unit)
    : WrapType.Transform (list string) unit (list string) (list string) unit unit :=
  {| WrapType.state := nat;
     WrapType.constructed := 0%nat;
     WrapType.transformSchema := λ this schema _,
       ((λ typeName, objectFieldTransformer typeName "f" tt) <$> schema, S this);
     WrapType.transformRequest := λ this request _ _, (pretty this :: request, S this);
     WrapType.transformResult := λ this result _ _, (pretty this :: result, S this) |}.

Definition sampleRootFieldTransformer (operation : RootOperation) (fieldName : string)
    (fieldConfig : unit) : string :=
  match operation with
  | Query => "query." +:+ fieldName
  | Mutation => "mutation." +:+ fieldName
  | Subscription => "subscription." +:+ fieldName
  end.

Lemma TransformRootFields_delegates_witness :
  replies head (λ schema, None) (λ schema, None) (λ name : string, name) "undefined"
    sampleTransformObjectFields (new sampleRootFieldTransformer None)
    [WrapType.CallTransformSchema ["Root"; "User"] None;
     WrapType.CallTransformRequest ["r"] tt tt;
     WrapType.CallTransformResult ["d"] tt tt]
  = Some [WrapType.ReplySchema ["query.f"; "undefined"];
          WrapType.ReplyRequest ["1"; "r"];
          WrapType.ReplyResult ["2"; "d"]].
Proof.
  destruct (TransformRootFields_delegates head (λ schema, None) (λ schema, None)
              (λ name : string, name) "undefined" sampleTransformObjectFields
              (new sampleRootFieldTransformer None) ["Root"; "User"] None
              [WrapType.CallTransformRequest ["r"] tt tt;
               WrapType.CallTransformResult ["d"] tt tt])
    as [Hreplies _].
  - by repeat constructor.
  - rewrite Hreplies. reflexivity.
Defined.

Example TransformRootFields_throws_before_transformSchema :
  replies head (λ schema, None) (λ schema, None) (λ name : string, name) "undefined"
    sampleTransformObjectFields (new sampleRootFieldTransformer None)
    [WrapType.CallTransformRequest ["r"] tt tt;
     WrapType.CallTransformSchema ["Root"; "User"] None]
  = None.
Proof. reflexivity. Qed.

End TransformRootFieldsFacts.
